(** * Ramavtal: the hybrid retrieval index of [rag_engine.py]

    A shallow embedding of the chunker, the BM25 engine, reciprocal rank
    fusion, the change detector and the [HybridIndex] store, together with
    the properties the design document states about them.

    Conventions of the embedding:
    - Python [str] is [string]; a character is a code point below 256.
    - Python [int] counts (sizes, positions, ranks) are [nat].
    - Python [float] is idealised as a real number ([R]).
    - a [dict] keyed by strings is a [gmap string _]; a [set] of strings is
      a [gset string]; [sorted] is a stable insertion sort.
    - methods of [HybridIndex] run in a state-and-exception monad over the
      object and the index directory on disk. *)

From Stdlib Require Import QArith Reals Lra Lia String Ascii.
From stdpp Require Import base option list sorting gmap strings.

Local Open Scope string_scope.
Local Open Scope list_scope.

(** ** Python built-ins used by the engine *)

Module Py.

(** [str.isspace] for one character, which is also what [\s] matches. *)
Definition is_space (c : ascii) : bool :=
  match c with
  | "009" | "010" | "011" | "012" | "013"
  | "028" | "029" | "030" | "031" | " "
  | "133" | "160" => true
  | _ => false
  end%char.

(** The maximal runs of characters satisfying [keep], left to right;
    [acc] is the run being read.  Both [str.split()] and
    [re.findall] of a one-class [+] pattern are instances. *)
Fixpoint runs_go (keep : ascii -> bool) (acc : string) (s : string) : list string :=
  match s with
  | EmptyString =>
      match acc with EmptyString => [] | _ => [acc] end
  | String c s' =>
      if keep c
      then runs_go keep (acc ++ String c EmptyString) s'
      else match acc with
           | EmptyString => runs_go keep EmptyString s'
           | _ => acc :: runs_go keep EmptyString s'
           end
  end.

Definition runs (keep : ascii -> bool) (s : string) : list string :=
  runs_go keep EmptyString s.

(** [str.split()] with no argument. *)
Definition split (s : string) : list string :=
  runs (fun c => negb (is_space c)) s.

(** Truth value of [text.strip()]: some character is not white space. *)
Fixpoint strip_nonempty (s : string) : bool :=
  match s with
  | EmptyString => false
  | String c s' => negb (is_space c) || strip_nonempty s'
  end.

(** [\w] of a Unicode pattern, on code points below 256. *)
Definition is_word (c : ascii) : bool :=
  let n := N_of_ascii c in
  ((48 <=? n) && (n <=? 57) || (65 <=? n) && (n <=? 90) || (n =? 95)
   || (97 <=? n) && (n <=? 122)
   || (n =? 170) || (n =? 178) || (n =? 179) || (n =? 181) || (n =? 185)
   || (n =? 186) || (188 <=? n) && (n <=? 190)
   || (192 <=? n) && (n <=? 214) || (216 <=? n) && (n <=? 246)
   || (248 <=? n))%N.

(** [str.lower], on code points below 256. *)
Definition lower_char (c : ascii) : ascii :=
  let n := N_of_ascii c in
  if ((65 <=? n) && (n <=? 90) || (192 <=? n) && (n <=? 214)
      || (216 <=? n) && (n <=? 222))%N
  then ascii_of_N (n + 32)
  else c.

Fixpoint lower (s : string) : string :=
  match s with
  | EmptyString => EmptyString
  | String c s' => String (lower_char c) (lower s')
  end.

(** [s.rfind(c)]: position of the last [c]; [i] is the position of the
    head of [s]. *)
Fixpoint rfind_go (c : ascii) (s : string) (i : nat) (found : option nat) : option nat :=
  match s with
  | EmptyString => found
  | String a s' => rfind_go c s' (S i) (if Ascii.eqb a c then Some i else found)
  end.

Definition rfind (c : ascii) (s : string) : option nat := rfind_go c s 0 None.

(** [PurePath.suffix] of a file name: from the last dot, unless that dot
    is the first or the last character. *)
Definition suffix (name : string) : string :=
  match rfind "." name with
  | Some i =>
      if (0 <? i)%nat && (i <? String.length name - 1)%nat
      then String.substring i (String.length name - i) name
      else EmptyString
  | None => EmptyString
  end.

(** [enumerate(l)]. *)
Definition enumerate {A} (l : list A) : list (nat * A) :=
  imap (fun i x => (i, x)) l.

(** [sep.join(ws)]. *)
Definition join (sep : string) (ws : list string) : string :=
  String.concat sep ws.

(** [l[-n:] if n else []]: the last [n] elements, the whole list when it
    is shorter. *)
Definition last_n {A} (n : nat) (l : list A) : list A :=
  drop (length l - n) l.

(** [sorted(l, key=...)]: stable, so an insertion sort that puts an
    element in front of the first one it does not exceed. *)
Section sorted.
Context {A : Type} (le : A -> A -> bool).

Fixpoint insert_sorted (x : A) (l : list A) : list A :=
  match l with
  | [] => [x]
  | y :: l' => if le x y then x :: l else y :: insert_sorted x l'
  end.

Definition sorted (l : list A) : list A := foldr insert_sorted [] l.
End sorted.

(** [sorted] on strings (code point order). *)
Definition sorted_str (l : list string) : list string := sorted String.leb l.

End Py.

(** ** Vocabulary of the statements *)

(** All characters of [s] satisfy [p]. *)
Fixpoint all_chars (p : ascii -> bool) (s : string) : bool :=
  match s with
  | EmptyString => true
  | String c s' => p c && all_chars p s'
  end.

(** A non-empty string of kept characters, as [Py.runs] returns them. *)
Definition is_run (keep : ascii -> bool) (s : string) : Prop :=
  s ≠ EmptyString ∧ all_chars keep s = true.

(** ** config.py *)

Module config.
Definition CHUNK_SIZE : nat := 400.
Definition CHUNK_OVERLAP : nat := 50.
Definition SUPPORTED_EXTENSIONS : list string := [".pdf"; ".docx"].
End config.

(** ** Chunking, sentence-aware *)

(** [_SENTENCE_RE = (?<=[.!?])\s+]: a run of white space that directly
    follows a full stop, exclamation mark or question mark. *)
Definition is_sentence_end (c : ascii) : bool :=
  match c with
  | "." | "!" | "?" => true
  | _ => false
  end%char.

(** Scanner state of [_SENTENCE_RE.split]: reading a piece (remembering
    whether its last character ends a sentence) or inside a separator. *)
Inductive scan : Type :=
  | InText (after_end : bool)
  | InSep.

Fixpoint sentence_split_go (st : scan) (acc : string) (s : string) : list string :=
  match s with
  | EmptyString => [acc]
  | String c s' =>
      match st with
      | InSep =>
          if Py.is_space c
          then sentence_split_go InSep EmptyString s'
          else sentence_split_go (InText (is_sentence_end c)) (String c EmptyString) s'
      | InText after_end =>
          if after_end && Py.is_space c
          then acc :: sentence_split_go InSep EmptyString s'
          else sentence_split_go (InText (is_sentence_end c)) (acc ++ String c EmptyString) s'
      end
  end.

Definition sentence_split (text : string) : list string :=
  sentence_split_go (InText false) EmptyString text.

(** One iteration of the loop of [chunk_text]; the state is
    [(chunks, current_words)]. *)
Definition chunk_step (chunk_size overlap : nat)
    (st : list string * list string) (sentence : string) : list string * list string :=
  let '(chunks, current_words) := st in
  let words := Py.split sentence in
  match words with
  | [] => (chunks, current_words)
  | _ :: _ =>
      let '(chunks, current_words) :=
        if (chunk_size <? length current_words + length words)%nat
           && negb (bool_decide (current_words = []))
        then (chunks ++ [Py.join " " current_words],
              match overlap with
              | O => []
              | _ => Py.last_n overlap current_words
              end)
        else (chunks, current_words) in
      (chunks, current_words ++ words)
  end.

Definition chunk_text (text : string) (chunk_size overlap : nat) : list string :=
  let sentences := sentence_split text in
  let '(chunks, current_words) :=
    foldl (chunk_step chunk_size overlap) ([], []) sentences in
  match current_words with
  | [] => chunks
  | _ :: _ => chunks ++ [Py.join " " current_words]
  end.

(** Number of words of a chunk. *)
Definition word_count (s : string) : nat := length (Py.split s).

(** A word, as [str.split()] returns them. *)
Definition is_word_str (s : string) : Prop :=
  is_run (fun c => negb (Py.is_space c)) s.

(** The shape of the word list of a chunk: within the size, or a seed of
    at most [overlap] carried-over words followed by one whole sentence. *)
Definition chunk_shape (chunk_size overlap : nat) (sentences : list string)
    (ws : list string) : Prop :=
  (length ws ≤ chunk_size)%nat ∨
  ∃ seed sent, sent ∈ sentences ∧ (length seed ≤ overlap)%nat ∧ ws = seed ++ Py.split sent.

(** The loop invariant of [chunk_text] on the state
    [(chunks, current_words)]. *)
Definition chunk_inv (chunk_size overlap : nat) (sentences : list string)
    (st : list string * list string) : Prop :=
  Forall is_word_str st.2 ∧
  chunk_shape chunk_size overlap sentences st.2 ∧
  Forall (fun c => ∃ ws, c = Py.join " " ws ∧ Forall is_word_str ws ∧
                         chunk_shape chunk_size overlap sentences ws) st.1.

(** ** Exceptions *)

Inductive exn : Type :=
  | ValueError (msg : string)
  | KeyError (key : string)
  | IndexError
  | ZeroDivisionError
  | FileNotFoundError (path : string).

Inductive Result (A : Type) : Type :=
  | Ok (a : A)
  | Raise (e : exn).
Arguments Ok {A} a.
Arguments Raise {A} e.

Definition rbind {A B} (m : Result A) (k : A -> Result B) : Result B :=
  match m with
  | Ok a => k a
  | Raise e => Raise e
  end.

Notation "x <-! m ; k" := (rbind m (fun x => k))
  (at level 100, m at next level, right associativity, only parsing).

(** [l[i]], which raises [IndexError] out of range. *)
Definition getitem {A} (l : list A) (i : nat) : Result A :=
  match l !! i with
  | Some x => Ok x
  | None => Raise IndexError
  end.

(** [d[k]] on a dictionary, which raises [KeyError] on a missing key. *)
Definition getkey {V} (d : gmap string V) (k : string) : Result V :=
  match d !! k with
  | Some v => Ok v
  | None => Raise (KeyError k)
  end.

(** [[l[i] for i in idxs]], also numpy's [a[idxs]] on rows. *)
Fixpoint select {A} (l : list A) (idxs : list nat) : Result (list A) :=
  match idxs with
  | [] => Ok []
  | i :: idxs' =>
      x <-! getitem l i;
      xs <-! select l idxs';
      Ok (x :: xs)
  end.

(** A loop whose body may raise. *)
Fixpoint foldlM {A S} (f : S -> A -> Result S) (s : S) (l : list A) : Result S :=
  match l with
  | [] => Ok s
  | x :: l' => s' <-! f s x; foldlM f s' l'
  end.

(** Float division and [math.log]. *)
Definition float_div (x y : R) : Result R :=
  if Req_dec_T y 0 then Raise ZeroDivisionError else Ok (x / y)%R.

Definition math_log (x : R) : Result R :=
  if Rlt_dec 0 x then Ok (ln x) else Raise (ValueError "math domain error").

Definition Rleb (x y : R) : bool := if Rle_dec x y then true else false.

#[global] Instance Rlt_decision : RelDecision Rlt := Rlt_dec.

(** ** BM25 (Okapi BM25) *)

Definition _tokenize (text : string) : list string :=
  Py.runs Py.is_word (Py.lower text).

(** [Counter(tokens)]. *)
Definition Counter (tokens : list string) : gmap string nat :=
  foldl (fun tf t => <[t := S (default 0 (tf !! t))]> tf) ∅ tokens.

Module BM25.

Record t : Type := mk {
  k1 : R;
  b : R;
  _doc_freqs : gmap string nat;
  _doc_lens : list nat;
  _avg_dl : R;
  _tf : list (gmap string nat);
  _n_docs : nat
}.

(** [BM25(k1, b)]. *)
Definition init (k1 b : R) : t :=
  {| k1 := k1; b := b; _doc_freqs := ∅; _doc_lens := []; _avg_dl := 0%R;
     _tf := []; _n_docs := 0 |}.

(** [BM25()], with the default parameters. *)
Definition new : t := init 1.5%R 0.75%R.

(** Body of the loop of [fit]; the state is [(self._tf, self._doc_lens, df)]. *)
Definition fit_step (st : list (gmap string nat) * list nat * gmap string nat)
    (text : string) : list (gmap string nat) * list nat * gmap string nat :=
  let '(tfs, lens, df) := st in
  let tokens := _tokenize text in
  let tf := Counter tokens in
  (tfs ++ [tf], lens ++ [length tokens],
   set_fold (fun term df => <[term := default 0 (df !! term) + 1]> df) df
            (list_to_set tokens : gset string)).

Definition fit (self : t) (texts : list string) : t :=
  let '(tfs, lens, df) := foldl fit_step ([], [], ∅) texts in
  {| k1 := k1 self; b := b self;
     _doc_freqs := df;
     _doc_lens := lens;
     _avg_dl := (INR (sum_list lens) / INR (max (length texts) 1))%R;
     _tf := tfs;
     _n_docs := length texts |}.

(** Body of the inner loop of [search]: the contribution of [term] to
    the score of chunk [i]. *)
Definition score_doc (self : t) (term : string) (idf : R)
    (scores : list R) (itf : nat * gmap string nat) : Result (list R) :=
  let '(i, tf) := itf in
  match tf !! term with
  | None => Ok scores
  | Some freq =>
      dl <-! getitem (_doc_lens self) i;
      let numerator := (INR freq * (k1 self + 1))%R in
      ratio <-! float_div (b self * INR dl) (_avg_dl self);
      let denominator := (INR freq + k1 self * (1 - b self + ratio))%R in
      contrib <-! float_div (idf * numerator) denominator;
      s <-! getitem scores i;
      Ok (<[i := (s + contrib)%R]> scores)
  end.

(** Body of the outer loop of [search]. *)
Definition score_term (self : t) (scores : list R) (term : string) : Result (list R) :=
  match _doc_freqs self !! term with
  | None => Ok scores
  | Some df =>
      ratio <-! float_div (INR (_n_docs self) - INR df + 0.5) (INR df + 0.5);
      idf <-! math_log (ratio + 1.0);
      foldlM (score_doc self term idf) scores (Py.enumerate (_tf self))
  end.

Definition search (self : t) (query : string) (top_k : nat) : Result (list (nat * R)) :=
  let query_tokens := _tokenize query in
  let scores := replicate (_n_docs self) 0%R in
  scores <-! foldlM (score_term self) scores query_tokens;
  let ranked := Py.sorted (fun x y => Rleb (- x.2) (- y.2)) (Py.enumerate scores) in
  Ok (filter (fun x => (0 < x.2)%R) (take top_k ranked)).

End BM25.

(** Number of occurrences of the term [t] among the tokens of a text. *)
Definition term_count (t : string) (tokens : list string) : nat :=
  length (filter (fun u => u = t) tokens).

(** Document frequency: the number of texts in which [t] occurs. *)
Definition doc_freq (t : string) (texts : list string) : nat :=
  length (filter (fun text => t ∈ _tokenize text) texts).

(** ** The BM25 score of the design *)

(** Sum of a list of reals. *)
Definition Rsum (l : list R) : R := foldr Rplus 0%R l.

(** Average number of tokens per text, [avgdl]. *)
Definition avgdl (texts : list string) : R :=
  (INR (sum_list (map (fun text => length (_tokenize text)) texts))
   / INR (max (length texts) 1))%R.

(** [idf(t) = ln((N - df(t) + 0.5) / (df(t) + 0.5) + 1)]. *)
Definition bm25_idf (N df : nat) : R :=
  ln ((INR N - INR df + 0.5) / (INR df + 0.5) + 1).

(** [idf * tf(t,d) * (k1+1) / (tf(t,d) + k1 * (1 - b + b * |d| / avgdl))]. *)
Definition term_weight (k1 b : R) (texts : list string) (idf : R) (t d : string) : R :=
  let tf := INR (term_count t (_tokenize d)) in
  let dl := INR (length (_tokenize d)) in
  (idf * tf * (k1 + 1) / (tf + k1 * (1 - b + b * dl / avgdl texts)))%R.

(** [score(d,t)] of the design. *)
Definition bm25_term_score (k1 b : R) (texts : list string) (t d : string) : R :=
  term_weight k1 b texts (bm25_idf (length texts) (doc_freq t texts)) t d.

(** The score of the text [d] for a query: the sum over the query terms
    that are in the fitted vocabulary. *)
Definition bm25_score (k1 b : R) (texts : list string) (query d : string) : R :=
  Rsum (map (fun t => bm25_term_score k1 b texts t d)
            (filter (fun t => doc_freq t texts ≠ 0%nat) (_tokenize query))).

(** The weight of [term] in chunk [j], zero beyond the last chunk. *)
Definition doc_weight (k1 b : R) (texts : list string) (idf : R)
    (term : string) (j : nat) : R :=
  match texts !! j with
  | Some d => term_weight k1 b texts idf term d
  | None => 0%R
  end.

(** The weight that the query term [term] adds to the score of chunk [j]:
    nothing when the term is not in the fitted vocabulary. *)
Definition query_term_weight (k1 b : R) (texts : list string)
    (term : string) (j : nat) : R :=
  match doc_freq term texts with
  | O => 0%R
  | S _ => doc_weight k1 b texts (bm25_idf (length texts) (doc_freq term texts)) term j
  end.

(** ** Reciprocal Rank Fusion *)

(** [scores[doc_id] = scores.get(doc_id, 0.0) + x] on a dictionary that
    remembers insertion order. *)
Fixpoint dict_add (scores : list (nat * Q)) (doc_id : nat) (x : Q) : list (nat * Q) :=
  match scores with
  | [] => [(doc_id, (0 + x)%Q)]
  | (d, s) :: rest =>
      if (d =? doc_id)%nat
      then (d, (s + x)%Q) :: rest
      else (d, s) :: dict_add rest doc_id x
  end.

(** The rank weight [1.0 / (k + rank + 1)], an exact rational. *)
Definition rrf_weight (k rank : nat) : Q :=
  (1 / inject_Z (Z.of_nat (k + rank + 1)))%Q.

Definition rrf_step {A} (k : nat) (scores : list (nat * Q))
    (item : nat * (nat * A)) : list (nat * Q) :=
  let '(rank, (doc_id, _)) := item in
  dict_add scores doc_id (rrf_weight k rank).

Definition rrf_scores {A} (ranked_lists : list (list (nat * A))) (k : nat) : list (nat * Q) :=
  foldl (fun scores ranked => foldl (rrf_step k) scores (Py.enumerate ranked))
        [] ranked_lists.

Definition rrf_fuse {A} (ranked_lists : list (list (nat * A))) (k : nat) : list (nat * Q) :=
  Py.sorted (fun x y => Qle_bool (- x.2) (- y.2)) (rrf_scores ranked_lists k).

(** [scores.get(doc_id)] on the insertion-ordered dictionary. *)
Fixpoint dict_get (scores : list (nat * Q)) (doc_id : nat) : option Q :=
  match scores with
  | [] => None
  | (d, s) :: rest => if (d =? doc_id)%nat then Some s else dict_get rest doc_id
  end.

(** The weight that one ranked list gives to [doc_id], its items being
    ranked from [rank] on: the sum over the occurrences of [doc_id]. *)
Fixpoint list_weight {A} (k doc_id rank : nat) (ranked : list (nat * A)) : Q :=
  match ranked with
  | [] => 0
  | (d, _) :: rest =>
      ((if (d =? doc_id)%nat then rrf_weight k rank else 0)
       + list_weight k doc_id (S rank) rest)%Q
  end.

(** The fused score the design gives to [doc_id]: the sum over the lists. *)
Fixpoint fused_weight {A} (k doc_id : nat) (ranked_lists : list (list (nat * A))) : Q :=
  match ranked_lists with
  | [] => 0
  | ranked :: rest => (fused_weight k doc_id rest + list_weight k doc_id 0 ranked)%Q
  end.

(** The score a dictionary holds for [d], zero when [d] is not a key. *)
Definition score_of (scores : list (nat * Q)) (d : nat) : Q :=
  default 0%Q (dict_get scores d).

(** [enumerate(ranked, start=n)]. *)
Definition enumerate_from {A} (n : nat) (ranked : list A) : list (nat * A) :=
  imap (fun i x => (n + i, x)) ranked.

(** ** Source folder, document loading and file hashing *)

(** A file of the source folder: the SHA-256 hex digest of its bytes and
    the text the external PDF or Word parser extracts from it.  A file
    on which the parser raises has no such text: a [Folder] describes a
    folder whose files can be parsed, and what is proved of [build],
    [reindex] and the commands holds for such folders. *)
Record File : Type := {
  sha256_hexdigest : string;
  extracted_text : string
}.

(** A folder maps the names of its files to the files. *)
Abbreviation Folder := (gmap string File).

Definition load_pdf (f : File) : string := extracted_text f.
Definition load_docx (f : File) : string := extracted_text f.

(** What [open] finds at a path: the file, or nothing. *)
Definition open_file (name : string) (at_path : option File) : Result File :=
  match at_path with
  | Some f => Ok f
  | None => Raise (FileNotFoundError name)
  end.

(** [load_document(path)], the path given by its file name and by what
    lies there. *)
Definition load_document (name : string) (at_path : option File) : Result string :=
  let ext := Py.lower (Py.suffix name) in
  if String.eqb ext ".pdf" then
    f <-! open_file name at_path; Ok (load_pdf f)
  else if String.eqb ext ".docx" then
    f <-! open_file name at_path; Ok (load_docx f)
  else Raise (ValueError ("Unsupported file type: " ++ ext)).

(** [f.suffix.lower() in config.SUPPORTED_EXTENSIONS]. *)
Definition supported (name : string) : bool :=
  bool_decide (Py.lower (Py.suffix name) ∈ config.SUPPORTED_EXTENSIONS).

(** [sorted(folder.iterdir())]: the entries in the order of their names. *)
Definition iterdir_sorted (folder : Folder) : list (string * File) :=
  Py.sorted (fun x y => String.leb x.1 y.1) (map_to_list folder).

(** Body of the loop of [load_documents]. *)
Definition load_documents_step (docs : list (string * string))
    (entry : string * File) : Result (list (string * string)) :=
  let '(name, f) := entry in
  if supported name then
    text <-! load_document name (Some f);
    Ok (if Py.strip_nonempty text then docs ++ [(name, text)] else docs)
  else Ok docs.

Definition load_documents (folder : Folder) : Result (list (string * string)) :=
  foldlM load_documents_step [] (iterdir_sorted folder).

Definition _file_hash (f : File) : string := sha256_hexdigest f.

Definition compute_file_hashes (docs_dir : Folder) : gmap string string :=
  foldl (fun hashes entry =>
           let '(name, f) := entry in
           if supported name then <[name := _file_hash f]> hashes else hashes)
        ∅ (iterdir_sorted docs_dir).

(** ** HybridIndex *)

Record Chunk : Type := {
  text : string;
  filename : string;
  chunk_idx : nat
}.

Record ManifestEntry : Type := {
  hash : string;
  chunk_start : nat;
  chunk_end : nat
}.

Abbreviation Manifest := (gmap string ManifestEntry).

(** The chunk records of one file, as the [enumerate] loops of [build]
    and [reindex] append them. *)
Definition make_chunks (fname : string) (text_chunks : list string) : list Chunk :=
  imap (fun i c => {| text := c; filename := fname; chunk_idx := i |}) text_chunks.

Module HybridIndex.
Section with_embedder.

(** The embedder is an external capability: it turns each text into one
    row of the embedding matrix. *)
Context {Row : Type} (embed_text : string -> Row).

Definition embed (texts : list string) : list Row := map embed_text texts.

(** The object.  [embeddings = None] is Python's [None]. *)
Record t : Type := mk {
  chunks : list Chunk;
  embeddings : option (list Row);
  manifest : Manifest;
  bm25 : BM25.t
}.

(** [HybridIndex()]. *)
Definition new : t :=
  {| chunks := []; embeddings := None; manifest := ∅; bm25 := BM25.new |}.

(** The three artifacts of [config.INDEX_DIR]; [None] is a missing file. *)
Record IndexDir : Type := {
  manifest_json : option Manifest;
  chunks_json : option (list Chunk);
  embeddings_npy : option (list Row)
}.

(** What a method call can read and change: the object and the disk. *)
Record World : Type := {
  self : t;
  index_dir : IndexDir
}.

(** Methods: state passing with exceptions. *)
Definition M (A : Type) : Type := World -> Result (A * World).

Definition ret {A} (a : A) : M A := fun w => Ok (a, w).
Definition bind {A B} (m : M A) (k : A -> M B) : M B :=
  fun w => match m w with
           | Ok (a, w') => k a w'
           | Raise e => Raise e
           end.
Definition lift {A} (r : Result A) : M A :=
  fun w => match r with
           | Ok a => Ok (a, w)
           | Raise e => Raise e
           end.
Definition get_self : M t := fun w => Ok (self w, w).
Definition put_self (s : t) : M unit :=
  fun w => Ok (tt, {| self := s; index_dir := index_dir w |}).
Definition get_index_dir : M IndexDir := fun w => Ok (index_dir w, w).
Definition put_index_dir (d : IndexDir) : M unit :=
  fun w => Ok (tt, {| self := self w; index_dir := d |}).

Notation "x <-- m ; k" := (bind m (fun x => k))
  (at level 100, m at next level, right associativity, only parsing).

(** *** Persistence *)

Definition save : M unit :=
  s <-- get_self;
  d <-- get_index_dir;
  put_index_dir
    {| manifest_json := Some (manifest s);
       chunks_json := Some (chunks s);
       embeddings_npy :=
         match embeddings s with
         | Some rows => Some rows
         | None => embeddings_npy d
         end |}.

(** The class method [load]: it reads the disk and returns a new object. *)
Definition load (d : IndexDir) : Result t :=
  let idx := new in
  match manifest_json d with
  | None => Ok idx
  | Some m =>
      cs <-! match chunks_json d with
             | Some cs => Ok cs
             | None => Raise (FileNotFoundError "chunks.json")
             end;
      let embs :=
        match embeddings_npy d with
        | Some rows => Some rows
        | None => embeddings idx
        end in
      let model :=
        match cs with
        | [] => bm25 idx
        | _ :: _ => BM25.fit (bm25 idx) (map text cs)
        end in
      Ok {| chunks := cs; embeddings := embs; manifest := m; bm25 := model |}
  end.

(** *** Build *)

(** Body of the loop of [build]; the state is
    [(self.chunks, self.manifest)]. *)
Definition build_doc (file_hashes : gmap string string)
    (st : list Chunk * Manifest) (doc : string * string) : list Chunk * Manifest :=
  let '(chunks, manifest) := st in
  let '(fname, doc_text) := doc in
  let text_chunks := chunk_text doc_text config.CHUNK_SIZE config.CHUNK_OVERLAP in
  let start := length chunks in
  let chunks := chunks ++ make_chunks fname text_chunks in
  let end_ := length chunks in
  (chunks,
   <[fname := {| hash := default EmptyString (file_hashes !! fname);
                 chunk_start := start; chunk_end := end_ |}]> manifest).

Definition build (docs_dir : Folder) : M unit :=
  docs <-- lift (load_documents docs_dir);
  let file_hashes := compute_file_hashes docs_dir in
  s <-- get_self;
  let '(chunks, manifest) := foldl (build_doc file_hashes) ([], ∅) docs in
  let texts := map text chunks in
  _ <-- put_self {| chunks := chunks;
                    embeddings := Some (embed texts);
                    manifest := manifest;
                    bm25 := BM25.fit (bm25 s) texts |};
  save.

(** *** Change detection *)

Definition needs_reindex (docs_dir : Folder)
    : M (bool * list string * list string * list string) :=
  s <-- get_self;
  let current := compute_file_hashes docs_dir in
  let old_files : gset string := dom (manifest s) in
  let new_files : gset string := dom current in
  let added := Py.sorted_str (elements (new_files ∖ old_files)) in
  let removed := Py.sorted_str (elements (old_files ∖ new_files)) in
  let changed :=
    Py.sorted_str
      (filter (fun f => current !! f ≠ hash <$> manifest s !! f)
              (elements (old_files ∩ new_files))) in
  let needs :=
    negb (bool_decide (added = [])) || negb (bool_decide (removed = []))
    || negb (bool_decide (changed = [])) in
  ret (needs, added, changed, removed).

(** *** Incremental update *)

(** The removal block of [reindex]. *)
Definition remove_files (files_to_remove : gset string) (s : t) : Result t :=
  let keep_indices :=
    (filter (fun ic => filename ic.2 ∉ files_to_remove) (Py.enumerate (chunks s))).*1 in
  chunks' <-! select (chunks s) keep_indices;
  embeddings' <-!
    match embeddings s, keep_indices with
    | Some rows, _ :: _ => rows' <-! select rows keep_indices; Ok (Some rows')
    | _, [] => Ok None
    | None, _ :: _ => Ok None
    end;
  let manifest' :=
    set_fold (fun fname m => delete fname m) (manifest s) files_to_remove in
  Ok {| chunks := chunks'; embeddings := embeddings';
        manifest := manifest'; bm25 := bm25 s |}.

(** Body of the loop over [sorted(files_to_add)]; the state is
    [(self.chunks, self.manifest, new_chunk_texts)]. *)
Definition add_file (docs_dir : Folder) (file_hashes : gmap string string)
    (st : list Chunk * Manifest * list string) (fname : string)
    : Result (list Chunk * Manifest * list string) :=
  let '(chunks, manifest, new_chunk_texts) := st in
  doc_text <-! load_document fname (docs_dir !! fname);
  let text_chunks := chunk_text doc_text config.CHUNK_SIZE config.CHUNK_OVERLAP in
  let start := length chunks in
  let chunks := chunks ++ make_chunks fname text_chunks in
  let new_chunk_texts := new_chunk_texts ++ text_chunks in
  let end_ := length chunks in
  h <-! getkey file_hashes fname;
  Ok (chunks,
      <[fname := {| hash := h; chunk_start := start; chunk_end := end_ |}]> manifest,
      new_chunk_texts).

(** The addition block of [reindex]. *)
Definition add_files (docs_dir : Folder) (files_to_add : gset string) (s : t) : Result t :=
  let file_hashes := compute_file_hashes docs_dir in
  st <-! foldlM (add_file docs_dir file_hashes) (chunks s, manifest s, [])
                (Py.sorted_str (elements files_to_add));
  let '(chunks', manifest', new_chunk_texts) := st in
  let new_embeddings := embed new_chunk_texts in
  let embeddings' :=
    match embeddings s with
    | Some rows =>
        if (0 <? length rows)%nat then rows ++ new_embeddings else new_embeddings
    | None => new_embeddings
    end in
  Ok {| chunks := chunks'; embeddings := Some embeddings';
        manifest := manifest'; bm25 := bm25 s |}.

(** First loop of [_rebuild_manifest_ranges]. *)
Definition ranges_step (ranges : gmap string (nat * nat)) (ic : nat * Chunk)
    : gmap string (nat * nat) :=
  let '(i, c) := ic in
  let fname := filename c in
  match ranges !! fname with
  | None => <[fname := (i, i + 1)]> ranges
  | Some (start, _) => <[fname := (start, i + 1)]> ranges
  end.

(** Second loop of [_rebuild_manifest_ranges]. *)
Definition set_range (fname : string) (r : nat * nat) (m : Manifest) : Manifest :=
  match m !! fname with
  | Some e =>
      <[fname := {| hash := hash e; chunk_start := r.1; chunk_end := r.2 |}]> m
  | None => m
  end.

Definition _rebuild_manifest_ranges (s : t) : t :=
  let ranges := foldl ranges_step ∅ (Py.enumerate (chunks s)) in
  {| chunks := chunks s; embeddings := embeddings s;
     manifest := map_fold set_range (manifest s) ranges;
     bm25 := bm25 s |}.

Definition reindex (docs_dir : Folder) : M unit :=
  r <-- needs_reindex docs_dir;
  let '(needs, added, changed, removed) := r in
  if negb needs then ret tt
  else
    let files_to_remove : gset string := list_to_set removed ∪ list_to_set changed in
    let files_to_add : gset string := list_to_set added ∪ list_to_set changed in
    s <-- get_self;
    s <-- lift (if bool_decide (files_to_remove = ∅) then Ok s
                else remove_files files_to_remove s);
    s <-- lift (if bool_decide (files_to_add = ∅) then Ok s
                else add_files docs_dir files_to_add s);
    let s := {| chunks := chunks s; embeddings := embeddings s;
                manifest := manifest s;
                bm25 := BM25.fit (bm25 s) (map text (chunks s)) |} in
    let s := _rebuild_manifest_ranges s in
    _ <-- put_self s;
    save.

End with_embedder.
End HybridIndex.

(** ** Vocabulary for the index store *)

(** The chunk records [build] and [reindex] make for the file [fname]. *)
Definition doc_chunks (docs_dir : Folder) (fname : string) : list Chunk :=
  match docs_dir !! fname with
  | Some f =>
      make_chunks fname
        (chunk_text (extracted_text f) config.CHUNK_SIZE config.CHUNK_OVERLAP)
  | None => []
  end.

(** The documents [load_documents] returns for a list of folder entries. *)
Definition loaded (entries : list (string * File)) : list (string * string) :=
  (fun entry => (entry.1, extracted_text entry.2))
    <$> filter (fun entry => supported entry.1 = true ∧
                             Py.strip_nonempty (extracted_text entry.2) = true) entries.

(** Chunk [j] of [cs] belongs to the file [f]. *)
Definition named (cs : list Chunk) (j : nat) (f : string) : Prop :=
  filename <$> cs !! j = Some f.

(** Every chunk belongs to a file of the manifest. *)
Definition chunks_known (cs : list Chunk) (m : Manifest) : Prop :=
  ∀ c, c ∈ cs → is_Some (m !! filename c).

(** The range of every manifest entry is exactly the set of positions of
    the chunks of its file. *)
Definition ranges_exact (cs : list Chunk) (m : Manifest) : Prop :=
  ∀ f e, m !! f = Some e →
         ∀ j, (chunk_start e ≤ j < chunk_end e)%nat ↔ named cs j f.

(** The chunks of each file are contiguous. *)
Definition grouped (cs : list Chunk) : Prop :=
  ∀ i j k f, (i ≤ j ≤ k)%nat → named cs i f → named cs k f → named cs j f.

(** The rows of the embedding matrix, none for [None]. *)
Definition rows_of {Row} (s : @HybridIndex.t Row) : list Row :=
  default [] (HybridIndex.embeddings s).

(** The embedding matrix has one row per chunk. *)
Definition aligned {Row} (s : @HybridIndex.t Row) : Prop :=
  length (rows_of s) = length (HybridIndex.chunks s).

(** A consistent index: aligned, every chunk of a file of the manifest,
    and every manifest range exact. *)
Definition wf {Row} (s : @HybridIndex.t Row) : Prop :=
  aligned s ∧
  chunks_known (HybridIndex.chunks s) (HybridIndex.manifest s) ∧
  ranges_exact (HybridIndex.chunks s) (HybridIndex.manifest s).

(** The chunks of [f], if any, are at the head of the list. *)
Definition at_head (cs : list Chunk) (f : string) : Prop :=
  ∀ k, named cs k f → ∀ j, (j ≤ k)%nat → named cs j f.

(** What the first loop of [_rebuild_manifest_ranges] has found after the
    chunks [cs]: first and one-past-last position of every file. *)
Definition ranges_inv (cs : list Chunk) (ranges : gmap string (nat * nat)) : Prop :=
  ∀ f, match ranges !! f with
       | None => ∀ j, ¬ named cs j f
       | Some (s, e) =>
           (s < e ≤ length cs)%nat ∧ named cs s f ∧ named cs (e - 1) f ∧
           ∀ j, named cs j f → (s ≤ j < e)%nat
       end.

(** The object after the BM25 model has been fitted again. *)
Definition refit {Row} (s : @HybridIndex.t Row) : @HybridIndex.t Row :=
  {| HybridIndex.chunks := HybridIndex.chunks s;
     HybridIndex.embeddings := HybridIndex.embeddings s;
     HybridIndex.manifest := HybridIndex.manifest s;
     HybridIndex.bm25 :=
       BM25.fit (HybridIndex.bm25 s) (map text (HybridIndex.chunks s)) |}.

(** The index directory after [save]. *)
Definition saved {Row} (s : @HybridIndex.t Row) (d : @HybridIndex.IndexDir Row)
    : @HybridIndex.IndexDir Row :=
  {| HybridIndex.manifest_json := Some (HybridIndex.manifest s);
     HybridIndex.chunks_json := Some (HybridIndex.chunks s);
     HybridIndex.embeddings_npy :=
       match HybridIndex.embeddings s with
       | Some rows => Some rows
       | None => HybridIndex.embeddings_npy d
       end |}.

(** The chunks [reindex] appends for the set [A] of files to add. *)
Definition new_chunks (docs_dir : Folder) (A : gset string) : list Chunk :=
  concat (map (doc_chunks docs_dir) (Py.sorted_str (elements A))).

(** The two guarded blocks of [reindex]. *)
Definition remove_step {Row} (R : gset string) (s : @HybridIndex.t Row)
    : Result (@HybridIndex.t Row) :=
  if bool_decide (R = ∅) then Ok s else HybridIndex.remove_files R s.

Definition add_step {Row} (embed_text : string -> Row) (docs_dir : Folder)
    (A : gset string) (s : @HybridIndex.t Row) : Result (@HybridIndex.t Row) :=
  if bool_decide (A = ∅) then Ok s else HybridIndex.add_files embed_text docs_dir A s.

(** ** Example folders and states *)

(** A stand-in for the embedder: one number per text. *)
Definition example_embed (s : string) : nat := String.length s.

Definition folder_v1 : Folder :=
  {["a.pdf" := {| sha256_hexdigest := "h1"; extracted_text := "Hello world." |}]}.

(** The same folder after [a.pdf] has been edited. *)
Definition folder_v2 : Folder :=
  {["a.pdf" := {| sha256_hexdigest := "h2"; extracted_text := "Hello there." |}]}.

(** A folder whose only file has an unsupported extension. *)
Definition folder_txt : Folder :=
  {["notes.txt" := {| sha256_hexdigest := "h3"; extracted_text := "Some notes." |}]}.

(** A new object and an empty index directory. *)
Definition empty_world : @HybridIndex.World nat :=
  {| HybridIndex.self := HybridIndex.new;
     HybridIndex.index_dir :=
       {| HybridIndex.manifest_json := None;
          HybridIndex.chunks_json := None;
          HybridIndex.embeddings_npy := None |} |}.

(** The state a method call leaves, the state it was called in when it
    raises. *)
Definition state_after {Row A} (run : @HybridIndex.M Row A)
    (w : @HybridIndex.World Row) : @HybridIndex.World Row :=
  match run w with
  | Ok (_, w') => w'
  | Raise _ => w
  end.

(** After [build] over [folder_v1], and after a later [reindex] over the
    emptied folder. *)
Definition world_v1 : @HybridIndex.World nat :=
  state_after (HybridIndex.build example_embed folder_v1) empty_world.

Definition world_emptied : @HybridIndex.World nat :=
  state_after (HybridIndex.reindex example_embed ∅) world_v1.

(** ** Vocabulary for the chunker *)

(** The words of a list of chunks with the carried-over words taken out:
    every chunk loses its first [min overlap (length prev)] words, [prev]
    being the words of the chunk before it (none before the first). *)
Fixpoint unoverlap (overlap : nat) (prev : list string) (wss : list (list string))
    : list string :=
  match wss with
  | [] => []
  | ws :: rest => drop (min overlap (length prev)) ws ++ unoverlap overlap ws rest
  end.

(** Every chunk starts with the last [overlap] words of the chunk before
    it and goes on with at least one more word. *)
Fixpoint chained (overlap : nat) (prev : list string) (wss : list (list string)) : Prop :=
  match wss with
  | [] => True
  | ws :: rest =>
      take (min overlap (length prev)) ws = Py.last_n overlap prev ∧
      (min overlap (length prev) < length ws)%nat ∧
      chained overlap ws rest
  end.

(** ** Vocabulary for the ranking *)

(** A hit ranks before another: a higher score, or the same score at a
    lower position. *)
Definition ranks_before (x y : nat * R) : Prop :=
  (y.2 < x.2)%R ∨ (x.2 = y.2 ∧ (x.1 < y.1)%nat).

(** ** Vocabulary for the fusion *)

(** The entries that the inner loop of [rrf_fuse] appends for a ranking
    whose positions are new, its items being ranked from [n] on. *)
Definition rank_entries {A} (k n : nat) (ranked : list (nat * A)) : list (nat * Q) :=
  (fun item : nat * (nat * A) => (item.2.1, (0 + rrf_weight k item.1)%Q))
    <$> enumerate_from n ranked.

(** ** Vocabulary for the folder *)

(** A file that [load_documents] keeps: a supported extension and a text
    that is not blank. *)
Definition has_text (entry : string * File) : Prop :=
  supported entry.1 = true ∧ Py.strip_nonempty (extracted_text entry.2) = true.

(** The names of the files of a folder that [build] indexes, in the order
    of [sorted(folder.iterdir())]. *)
Definition indexed_names (docs_dir : Folder) : list string :=
  (loaded (iterdir_sorted docs_dir)).*1.

(** The file [f] has its first chunk at position [first] and its last
    one at position [last]. *)
Definition spans (cs : list Chunk) (f : string) (first last : nat) : Prop :=
  named cs first f ∧ named cs last f ∧ ∀ j, named cs j f → (first ≤ j ≤ last)%nat.

(** A folder with two files that get indexed, a file without text and a
    file whose extension is not supported. *)
Definition folder_mixed : Folder :=
  {["b.docx" := {| sha256_hexdigest := "h4"; extracted_text := "Second file." |};
    "a.PDF" := {| sha256_hexdigest := "h1"; extracted_text := "Hello world." |};
    "c.pdf" := {| sha256_hexdigest := "h5"; extracted_text := "   " |};
    "notes.txt" := {| sha256_hexdigest := "h3"; extracted_text := "Some notes." |}]}.

(** ** Vocabulary for the BM25 model of an index *)

(** The parameters [k1] and [b] are those of [BM25()]. *)
Definition default_params (m : BM25.t) : Prop :=
  BM25.k1 m = BM25.k1 BM25.new ∧ BM25.b m = BM25.b BM25.new.

(** The BM25 model of the index is [BM25()] fitted on the chunk texts, in
    the order of the chunk list. *)
Definition fitted {Row} (s : @HybridIndex.t Row) : Prop :=
  HybridIndex.bm25 s = BM25.fit BM25.new (map text (HybridIndex.chunks s)).

(** The three representations agree: the index is consistent and its
    BM25 model is fitted on its chunks. *)
Definition in_step {Row} (s : @HybridIndex.t Row) : Prop := wf s ∧ fitted s.

(** A supported file of the folder from which the parser gets no text. *)
Definition blank_file (docs_dir : Folder) (f : string) : Prop :=
  supported f = true ∧
  ∃ file, docs_dir !! f = Some file ∧ Py.strip_nonempty (extracted_text file) = false.

(** ** HybridIndex.search *)

(** One result of [search]: the fields of the chunk and the score. *)
Module SearchHit.
Record t : Type := mk {
  text : string;
  filename : string;
  chunk_idx : nat;
  score : Q
}.
End SearchHit.

Section hybrid_search.
Context {Row : Type} (embed_text : string → Row).

(** numpy on rows: [np.linalg.norm] of one row and the inner product of
    two rows, as real numbers. *)
Context (norm : Row → R) (dot : Row → Row → R).

(** The built-in [round(x, ndigits)].  It works on the binary double,
    which the rational scores of this model do not describe; so it is
    kept as a function of the score about which nothing is assumed. *)
Context (round : Q → nat → Q).

(** [self.embeddings @ q_emb / norms], the norms that are zero replaced
    by one. *)
Definition cosine_scores (embeddings : list Row) (q_emb : Row) : list R :=
  let norms := map (fun row => (norm row * norm q_emb)%R) embeddings in
  let norms := map (fun n => if Req_dec_T n 0 then 1%R else n) norms in
  zip_with (fun row n => (dot row q_emb / n)%R) embeddings norms.

(** Body of the result loop of [search]. *)
Definition search_step (chunks : list Chunk) (results : list SearchHit.t)
    (item : nat * Q) : Result (list SearchHit.t) :=
  let '(idx, score) := item in
  chunk <-! getitem chunks idx;
  Ok (results ++ [{| SearchHit.text := text chunk;
                     SearchHit.filename := filename chunk;
                     SearchHit.chunk_idx := chunk_idx chunk;
                     SearchHit.score := round score 4 |}]).

(** The method [HybridIndex.search]; it reads the index and changes
    nothing. *)
Definition HybridIndex_search (s : @HybridIndex.t Row) (query : string) (top_k : nat)
    : Result (list SearchHit.t) :=
  match HybridIndex.chunks s, HybridIndex.embeddings s with
  | [], _ => Ok []
  | _ :: _, None => Ok []
  | _ :: _, Some embeddings =>
      q_emb <-! getitem (HybridIndex.embed embed_text [query]) 0;
      let sem_ranked :=
        take (top_k * 2)
             (Py.sorted (fun x y => Rleb (- x.2) (- y.2))
                        (Py.enumerate (cosine_scores embeddings q_emb))) in
      bm25_ranked <-! BM25.search (HybridIndex.bm25 s) query (top_k * 2);
      let fused := rrf_fuse [sem_ranked; bm25_ranked] 60 in
      foldlM (search_step (HybridIndex.chunks s)) [] (take top_k fused)
  end.

(** The chunk positions in descending order of cosine similarity to the
    query, ties in ascending order of position. *)
Definition cosine_ranking (embeddings : list Row) (query : string) : list (nat * R) :=
  Py.sorted (fun x y => Rleb (- x.2) (- y.2))
            (Py.enumerate (cosine_scores embeddings (embed_text query))).

End hybrid_search.

(** The hit that [search] makes of the chunk at position [item.1] for the
    fused score [item.2]. *)
Definition hit_of (round : Q → nat → Q) (chunks : list Chunk) (hit : SearchHit.t)
    (item : nat * Q) : Prop :=
  ∃ chunk, chunks !! item.1 = Some chunk ∧
           hit = {| SearchHit.text := text chunk;
                    SearchHit.filename := filename chunk;
                    SearchHit.chunk_idx := chunk_idx chunk;
                    SearchHit.score := round item.2 4 |}.

(** A stand-in for numpy's norm and inner product on one-number rows,
    and one for [round]. *)
Definition example_norm (row : nat) : R := INR row.
Definition example_dot (row1 row2 : nat) : R := (INR row1 * INR row2)%R.
Definition example_round (x : Q) (ndigits : nat) : Q := x.

(** ** search.py: the [index] command *)

(** How a command ends: it returns, or it leaves through
    [sys.exit(code)]. *)
Inductive Ending : Type :=
  | Returned
  | SysExit (code : nat).

Section cli.
Context {Row : Type} (embed_text : string → Row).

(** [cmd_index(args)].  [force] is [args.force]; [docs_dir] is what lies
    at [config.DOCS_DIR], [None] when the folder does not exist.  The
    index object is local to the command, so what the command reads and
    changes is the index directory.  Messages are not modelled. *)
Definition cmd_index (force : bool) (docs_dir : option Folder)
    (d : @HybridIndex.IndexDir Row) : Result (Ending * @HybridIndex.IndexDir Row) :=
  match docs_dir with
  | None => Ok (SysExit 1, d)
  | Some docs_dir =>
      index <-! HybridIndex.load d;
      let w := {| HybridIndex.self := index; HybridIndex.index_dir := d |} in
      match HybridIndex.chunks index with
      | _ :: _ =>
          r <-! HybridIndex.needs_reindex docs_dir w;
          let '((needs, _, _, _), w) := r in
          if (needs : bool) then
            r <-! HybridIndex.reindex embed_text docs_dir w;
            Ok (Returned, HybridIndex.index_dir r.2)
          else if negb force then Ok (Returned, HybridIndex.index_dir w)
          else
            let w := {| HybridIndex.self := HybridIndex.new;
                        HybridIndex.index_dir := HybridIndex.index_dir w |} in
            r <-! HybridIndex.build embed_text docs_dir w;
            Ok (Returned, HybridIndex.index_dir r.2)
      | [] =>
          r <-! HybridIndex.build embed_text docs_dir w;
          Ok (Returned, HybridIndex.index_dir r.2)
      end
  end.

End cli.

(** An index directory that the commands can work with: empty, or
    holding a manifest and a chunk list that agree and, when there are
    chunks, a matrix with one row per chunk. *)
Definition dir_ok {Row} (d : @HybridIndex.IndexDir Row) : Prop :=
  match HybridIndex.manifest_json d with
  | None => True
  | Some m =>
      ∃ cs, HybridIndex.chunks_json d = Some cs ∧
            chunks_known cs m ∧ ranges_exact cs m ∧
            (cs ≠ [] → ∃ rows, HybridIndex.embeddings_npy d = Some rows ∧
                               length rows = length cs)
  end.

(** ** category_classifier.py *)

(** The string methods that [classify_chunks] uses on the reply. *)
Module Str.

Fixpoint lstrip (s : string) : string :=
  match s with
  | EmptyString => EmptyString
  | String c s' => if Py.is_space c then lstrip s' else s
  end.

Fixpoint rstrip (s : string) : string :=
  match s with
  | EmptyString => EmptyString
  | String c s' =>
      match rstrip s' with
      | EmptyString => if Py.is_space c then EmptyString else String c EmptyString
      | r => String c r
      end
  end.

(** [s.strip()]. *)
Definition strip (s : string) : string := rstrip (lstrip s).

(** [s.startswith(p)]. *)
Fixpoint startswith (s p : string) {struct p} : bool :=
  match p with
  | EmptyString => true
  | String b p' =>
      match s with
      | EmptyString => false
      | String a s' => Ascii.eqb a b && startswith s' p'
      end
  end.

(** [s.split(sep, 1)[1]] for a separator of one character: what follows
    the first separator.  Without a separator the list has one element
    and the subscript fails. *)
Fixpoint after_first (sep : ascii) (s : string) : Result string :=
  match s with
  | EmptyString => Raise IndexError
  | String c s' => if Ascii.eqb c sep then Ok s' else after_first sep s'
  end.

(** What precedes the last occurrence of [sep] in [s], for a separator
    that is not empty. *)
Fixpoint before_last (sep : string) (s : string) : option string :=
  match s with
  | EmptyString => None
  | String c s' =>
      match before_last sep s' with
      | Some r => Some (String c r)
      | None => if startswith s sep then Some EmptyString else None
      end
  end.

(** [s.rsplit(sep, 1)[0]]: all of [s] when [sep] does not occur. *)
Definition rsplit_head (sep : string) (s : string) : string :=
  default s (before_last sep s).

End Str.

(** The mark of a Markdown code block. *)
Definition fence : string := "```".

(** The lines of [classify_chunks] that take the JSON text out of the
    reply: white space around it is dropped, and so are the first line
    and everything from the last fence on when the reply opens with a
    fence. *)
Definition json_text (response_text : string) : Result string :=
  let text := Str.strip response_text in
  if Str.startswith text fence then
    text <-! Str.after_first "010"%char text;
    Ok (Str.rsplit_head fence text)
  else Ok text.

(** One object of the list that [json.loads] makes of the reply: the
    values under the keys [index], [score] and [motivering], [None] for
    a key that is absent.  An index is an integer and a score a
    number. *)
Module ScoreItem.
Record t : Type := mk {
  index : option Z;
  score : option Q;
  motivering : option string
}.
End ScoreItem.

(** A classified passage: the search hit with the two keys that
    [classify_chunks] adds. *)
Module Classified.
Record t : Type := mk {
  hit : SearchHit.t;
  relevance : Q;
  motivering : string
}.
End Classified.

(** One step of [{item["index"]: item for item in scores}]. *)
Definition score_map_step (score_map : gmap Z ScoreItem.t) (item : ScoreItem.t)
    : Result (gmap Z ScoreItem.t) :=
  match ScoreItem.index item with
  | Some i => Ok (<[i := item]> score_map)
  | None => Raise (KeyError "index")
  end.

(** Body of the loop of [classify_chunks] that merges the scores into
    the passages. *)
Definition merge_step (score_map : gmap Z ScoreItem.t) (results : list Classified.t)
    (ic : nat * SearchHit.t) : Result (list Classified.t) :=
  let '(i, chunk) := ic in
  match score_map !! Z.of_nat i with
  | Some entry =>
      match ScoreItem.score entry with
      | Some sc =>
          Ok (results ++ [{| Classified.hit := chunk;
                             Classified.relevance := sc;
                             Classified.motivering :=
                               default EmptyString (ScoreItem.motivering entry) |}])
      | None => Raise (KeyError "score")
      end
  | None => Ok results
  end.

Section classifier.

(** The language model and the JSON decoder are outside the program:
    [create chunks category] is the text of the first content block of
    the reply to the request that [classify_chunks] makes for these
    passages and this category, and [json_loads] is [json.loads] on a
    reply that is a list of objects; either may raise. *)
Context (create : list SearchHit.t → string → Result string).
Context (json_loads : string → Result (list ScoreItem.t)).

Definition classify_chunks (chunks : list SearchHit.t) (category : string)
    : Result (list Classified.t) :=
  match chunks with
  | [] => Ok []
  | _ :: _ =>
      response_text <-! create chunks category;
      text <-! json_text response_text;
      scores <-! json_loads text;
      score_map <-! foldlM score_map_step ∅ scores;
      foldlM (merge_step score_map) [] (Py.enumerate chunks)
  end.

Context {Row : Type} (embed_text : string → Row).
Context (norm : Row → R) (dot : Row → Row → R) (round : Q → nat → Q).

Definition search_by_category (category : string) (index : @HybridIndex.t Row)
    : Result (list Classified.t) :=
  candidates <-! HybridIndex_search embed_text norm dot round index category 20;
  match candidates with
  | [] => Ok []
  | _ :: _ =>
      classified <-! classify_chunks candidates category;
      let relevant :=
        List.filter (fun c => Qle_bool 5 (Classified.relevance c)) classified in
      Ok (Py.sorted (fun x y => Qle_bool (- Classified.relevance x)
                                         (- Classified.relevance y)) relevant)
  end.

End classifier.

(** The object of the reply that counts for the passage at position
    [i]: the last one whose index is [i]. *)
Definition scored (scores : list ScoreItem.t) (i : nat) : option ScoreItem.t :=
  last (filter (fun item => ScoreItem.index item = Some (Z.of_nat i)) scores).

(** What the merge makes of the passage [ic.2] at position [ic.1]:
    nothing when no object of the reply counts for it. *)
Definition merged (scores : list ScoreItem.t) (ic : nat * SearchHit.t)
    : option Classified.t :=
  entry ← scored scores ic.1;
  sc ← ScoreItem.score entry;
  Some {| Classified.hit := ic.2;
          Classified.relevance := sc;
          Classified.motivering := default EmptyString (ScoreItem.motivering entry) |}.

(** An example reply and its decoding, for one passage. *)
Definition example_create (chunks : list SearchHit.t) (category : string)
    : Result string :=
  Ok " ```json
[{index: 5, score: 9}, {index: 0, score: 2}, {index: 0, score: 7, motivering: ok}]
``` ".

Definition example_json_loads (text : string) : Result (list ScoreItem.t) :=
  Ok [{| ScoreItem.index := Some 5%Z; ScoreItem.score := Some 9%Q;
         ScoreItem.motivering := None |};
      {| ScoreItem.index := Some 0%Z; ScoreItem.score := Some 2%Q;
         ScoreItem.motivering := None |};
      {| ScoreItem.index := Some 0%Z; ScoreItem.score := Some 7%Q;
         ScoreItem.motivering := Some "ok" |}].

Definition example_hit : SearchHit.t :=
  {| SearchHit.text := "Hello world."; SearchHit.filename := "a.pdf";
     SearchHit.chunk_idx := 0; SearchHit.score := 0 |}.

(** * Properties *)

(** ** [sorted] *)

Section sorted_facts.
Context {A : Type} (le : A -> A -> bool).

Lemma insert_sorted_Permutation x l : Py.insert_sorted le x l ≡ₚ x :: l.
Proof.
  induction l as [|y l IH]; simpl; [done|].
  destruct (le x y); [done|].
  rewrite IH. apply perm_swap.
Qed.

Lemma sorted_Permutation l : Py.sorted le l ≡ₚ l.
Proof.
  induction l as [|x l IH]; simpl; [done|].
  rewrite insert_sorted_Permutation. by f_equiv.
Qed.

Lemma elem_of_sorted x l : x ∈ Py.sorted le l ↔ x ∈ l.
Proof. by rewrite sorted_Permutation. Qed.

Lemma sorted_nil_inv l : Py.sorted le l = [] → l = [].
Proof.
  intros H. apply Permutation_nil_r. rewrite <- H.
  symmetry. apply sorted_Permutation.
Qed.

Lemma sorted_length l : length (Py.sorted le l) = length l.
Proof. by rewrite sorted_Permutation. Qed.

(** With a total and transitive comparison the result is ordered. *)
Hypothesis le_total : ∀ x y, le x y = false → le y x = true.
Hypothesis le_trans : ∀ x y z, le x y = true → le y z = true → le x z = true.

Lemma insert_sorted_StronglySorted x l :
  StronglySorted (fun a c => le a c = true) l →
  StronglySorted (fun a c => le a c = true) (Py.insert_sorted le x l).
Proof.
  induction 1 as [|y l Hl IH Hy]; simpl.
  - repeat constructor.
  - destruct (le x y) eqn:Hxy.
    + constructor; [by constructor|].
      constructor; [done|].
      eapply Forall_impl; [exact Hy|]. intros z Hz. by eapply le_trans.
    + constructor; [done|].
      rewrite insert_sorted_Permutation. constructor; [|done].
      by apply le_total.
Qed.

Lemma sorted_StronglySorted l :
  StronglySorted (fun a c => le a c = true) (Py.sorted le l).
Proof.
  induction l as [|x l IH]; simpl; [constructor|].
  by apply insert_sorted_StronglySorted.
Qed.
End sorted_facts.

Lemma elem_of_sorted_str x l : x ∈ Py.sorted_str l ↔ x ∈ l.
Proof. apply elem_of_sorted. Qed.

Lemma NoDup_sorted_str l : NoDup l → NoDup (Py.sorted_str l).
Proof. intros H. unfold Py.sorted_str. by rewrite sorted_Permutation. Qed.

(** ** Strings and words *)

Lemma str_app_cons c s t : String c s +:+ t = String c (s +:+ t).
Proof. reflexivity. Qed.

Lemma str_app_nil_r s : s +:+ EmptyString = s.
Proof. induction s as [|c s IH]; [done|]. by rewrite str_app_cons, IH. Qed.

Lemma str_app_assoc s t u : (s +:+ t) +:+ u = s +:+ (t +:+ u).
Proof. induction s as [|c s IH]; [done|]. by rewrite !str_app_cons, IH. Qed.

Lemma str_app_eq_nil s t : s +:+ t = EmptyString → s = EmptyString ∧ t = EmptyString.
Proof. destruct s; [done|]. by rewrite str_app_cons. Qed.

Section runs_facts.
Context (keep : ascii → bool).

Lemma all_chars_app s t :
  all_chars keep (s +:+ t) = all_chars keep s && all_chars keep t.
Proof.
  induction s as [|c s IH]; [done|].
  rewrite str_app_cons. simpl. rewrite IH. by rewrite andb_assoc.
Qed.

(** Reading a run of kept characters only extends the pending run. *)
Lemma runs_go_app_run w acc rest :
  all_chars keep w = true →
  Py.runs_go keep acc (w +:+ rest) = Py.runs_go keep (acc +:+ w) rest.
Proof.
  revert acc. induction w as [|c w IH]; intros acc Hw.
  - by rewrite str_app_nil_r.
  - simpl in Hw. apply andb_prop in Hw as [Hc Hw].
    rewrite str_app_cons. simpl. rewrite Hc.
    rewrite IH by done. by rewrite str_app_assoc.
Qed.

Lemma runs_go_sep acc c rest :
  keep c = false → acc ≠ EmptyString →
  Py.runs_go keep acc (String c rest) = acc :: Py.runs_go keep EmptyString rest.
Proof. intros Hc Hacc. simpl. rewrite Hc. by destruct acc. Qed.

Lemma runs_go_end acc :
  acc ≠ EmptyString → Py.runs_go keep acc EmptyString = [acc].
Proof. by destruct acc. Qed.

(** Every run that is returned is non-empty and made of kept characters. *)
Lemma runs_go_all acc s :
  all_chars keep acc = true →
  Forall (is_run keep) (Py.runs_go keep acc s).
Proof.
  revert acc. induction s as [|c s IH]; intros acc Hacc; simpl.
  - destruct acc; [constructor|]. by repeat constructor.
  - destruct (keep c) eqn:Hc.
    + apply IH. rewrite all_chars_app, Hacc. simpl. by rewrite Hc.
    + destruct acc; [by apply IH|].
      constructor; [by split|]. by apply IH.
Qed.

Lemma runs_all s : Forall (is_run keep) (Py.runs keep s).
Proof. by apply runs_go_all. Qed.

(** Joining runs with a separator that is not kept and scanning again
    gives the runs back. *)
Lemma runs_join sep ws :
  keep sep = false →
  Forall (is_run keep) ws →
  Py.runs keep (Py.join (String sep EmptyString) ws) = ws.
Proof.
  intros Hsep. induction 1 as [|w ws [Hne Hw] Hws IH]; [done|].
  unfold Py.runs, Py.join in *. simpl.
  destruct ws as [|w' ws].
  - rewrite <- (str_app_nil_r w) at 1. rewrite runs_go_app_run by done.
    change (EmptyString +:+ w) with w. by apply runs_go_end.
  - rewrite runs_go_app_run by done. rewrite str_app_cons.
    change (EmptyString +:+ w) with w.
    change (EmptyString +:+ String.concat (String sep EmptyString) (w' :: ws))
      with (String.concat (String sep EmptyString) (w' :: ws)).
    rewrite runs_go_sep by done. by rewrite IH.
Qed.
End runs_facts.

Lemma split_join ws :
  Forall (is_run (fun c => negb (Py.is_space c))) ws →
  Py.split (Py.join " " ws) = ws.
Proof. intros H. by apply (runs_join (fun c => negb (Py.is_space c)) " "%char). Qed.

(** ** The chunker *)

Section chunker.
Context (chunk_size overlap : nat) (sentences : list string).

Lemma split_words s : Forall is_word_str (Py.split s).
Proof. apply runs_all. Qed.

Lemma last_n_length {A} n (l : list A) : (length (Py.last_n n l) ≤ n)%nat.
Proof. unfold Py.last_n. rewrite length_drop. lia. Qed.

Lemma chunk_step_inv st sent :
  sent ∈ sentences →
  chunk_inv chunk_size overlap sentences st →
  chunk_inv chunk_size overlap sentences (chunk_step chunk_size overlap st sent).
Proof.
  destruct st as [chunks cur]. intros Hin (Hcur & Hshape & Hchunks).
  unfold chunk_step. pose proof (split_words sent) as Hws.
  destruct (Py.split sent) as [|w ws] eqn:Hsplit; [done|].
  destruct ((chunk_size <? length cur + length (w :: ws))%nat
            && negb (bool_decide (cur = []))) eqn:Hflush.
  - (* the pending words are emitted and the seed is kept *)
    set (seed := match overlap with O => [] | S _ => Py.last_n overlap cur end).
    assert (length seed ≤ overlap)%nat as Hlen.
    { unfold seed. destruct overlap; [simpl; lia|]. apply last_n_length. }
    assert (Forall is_word_str seed) as Hseed.
    { unfold seed. destruct overlap; [constructor|].
      unfold Py.last_n. by apply Forall_drop. }
    split; [|split]; simpl.
    + by apply Forall_app.
    + right. exists seed, sent. by rewrite Hsplit.
    + apply Forall_app. split; [done|].
      constructor; [|constructor]. by exists cur.
  - (* the sentence is appended to the pending words *)
    split; [|split]; simpl; [by apply Forall_app| |done].
    apply andb_false_iff in Hflush as [Hfit|Hempty].
    + left. apply Nat.ltb_ge in Hfit. rewrite length_app. lia.
    + apply negb_false_iff, bool_decide_eq_true in Hempty. subst cur.
      right. exists [], sent. rewrite Hsplit. simpl. split; [done|]. split; [lia|done].
Qed.

Lemma chunk_loop_inv l st :
  (∀ sent, sent ∈ l → sent ∈ sentences) →
  chunk_inv chunk_size overlap sentences st →
  chunk_inv chunk_size overlap sentences (foldl (chunk_step chunk_size overlap) st l).
Proof.
  revert st. induction l as [|sent l IH]; intros st Hl Hst; [done|].
  simpl. apply IH.
  - intros s Hs. apply Hl. by right.
  - apply chunk_step_inv; [|done]. apply Hl. by left.
Qed.
End chunker.

(** Every chunk is the join of a list of words of the stated shape. *)
Lemma chunk_text_shape text chunk_size overlap c :
  c ∈ chunk_text text chunk_size overlap →
  ∃ ws, c = Py.join " " ws ∧ Forall is_word_str ws ∧
        chunk_shape chunk_size overlap (sentence_split text) ws.
Proof.
  unfold chunk_text.
  pose proof (chunk_loop_inv chunk_size overlap (sentence_split text)
                (sentence_split text) ([], [])) as Hinv.
  destruct (foldl _ _ _) as [chunks cur].
  destruct Hinv as (Hcur & Hshape & Hchunks).
  { done. }
  { split; [constructor|]. split; [|constructor]. left. simpl. lia. }
  simpl in *. rewrite Forall_forall in Hchunks.
  destruct cur as [|w cur]; intros Hc.
  - by apply Hchunks.
  - apply elem_of_app in Hc as [Hc|Hc]; [by apply Hchunks|].
    apply list_elem_of_singleton in Hc. subst c. by eexists.
Qed.

(** C2, as amended.  Every chunk produced by [chunk_text] has at most
    [chunk_size] words, or it consists of at most [overlap] carried-over
    words followed by all the words of one sentence.  Hence, when no
    sentence has more than [chunk_size] words, every chunk has at most
    [chunk_size + overlap] words. *)
Theorem chunk_text_size_bound text chunk_size overlap c :
  c ∈ chunk_text text chunk_size overlap →
  ((word_count c ≤ chunk_size)%nat ∨
   ∃ seed sent, sent ∈ sentence_split text ∧ (length seed ≤ overlap)%nat ∧
                Py.split c = seed ++ Py.split sent)
  ∧ ((∀ sent, sent ∈ sentence_split text → (word_count sent ≤ chunk_size)%nat) →
     (word_count c ≤ chunk_size + overlap)%nat).
Proof.
  intros Hc. apply chunk_text_shape in Hc as (ws & -> & Hws & Hshape).
  unfold word_count. rewrite split_join by done.
  split; [exact Hshape|].
  intros Hsent. destruct Hshape as [Hle|(seed & sent & Hin & Hseed & ->)]; [lia|].
  specialize (Hsent sent Hin). unfold word_count in Hsent.
  rewrite length_app. lia.
Qed.

Lemma chunk_text_size_bound_witness :
  "b. c d." ∈ chunk_text "a b. c d." 2 1 ∧
  ((word_count "b. c d." ≤ 2)%nat ∨
   ∃ seed sent, sent ∈ sentence_split "a b. c d." ∧ (length seed ≤ 1)%nat ∧
                Py.split "b. c d." = seed ++ Py.split sent).
Proof.
  assert ("b. c d." ∈ chunk_text "a b. c d." 2 1) as Hin.
  { vm_compute. right. left. }
  split; [exact Hin|].
  exact (proj1 (chunk_text_size_bound "a b. c d." 2 1 "b. c d." Hin)).
Defined.

(** C2, as stated, fails: with [chunk_size = 2] and [overlap = 1] the two
    two-word sentences of ["a b. c d."] give the three-word chunk
    ["b. c d."], although no sentence exceeds the chunk size. *)
Lemma chunk_text_exceeds_chunk_size :
  ¬ (∀ text chunk_size overlap,
       (0 < chunk_size)%nat → (overlap < chunk_size)%nat →
       ∀ c, c ∈ chunk_text text chunk_size overlap →
            (word_count c ≤ chunk_size)%nat ∨
            ∃ sent, sent ∈ sentence_split text ∧ (chunk_size < word_count sent)%nat).
Proof.
  intros H.
  destruct (H "a b. c d." 2 1 ltac:(lia) ltac:(lia) "b. c d.") as [Hle|(sent & Hin & Hlt)].
  - vm_compute. right. left.
  - vm_compute in Hle. lia.
  - change (sentence_split "a b. c d.") with ["a b."; "c d."] in Hin.
    apply elem_of_cons in Hin as [->|Hin]; [vm_compute in Hlt; lia|].
    apply list_elem_of_singleton in Hin as ->. vm_compute in Hlt. lia.
Qed.

(** ** The source folder *)

Lemma iterdir_sorted_Permutation (d : Folder) : iterdir_sorted d ≡ₚ map_to_list d.
Proof. apply sorted_Permutation. Qed.

Lemma iterdir_sorted_NoDup (d : Folder) : NoDup (iterdir_sorted d).*1.
Proof. rewrite iterdir_sorted_Permutation. apply NoDup_fst_map_to_list. Qed.

Lemma iterdir_sorted_to_map (d : Folder) : list_to_map (iterdir_sorted d) = d.
Proof.
  rewrite (list_to_map_proper _ (map_to_list d)).
  - apply list_to_map_to_list.
  - apply iterdir_sorted_NoDup.
  - apply iterdir_sorted_Permutation.
Qed.

Lemma elem_of_iterdir_sorted (d : Folder) name f :
  (name, f) ∈ iterdir_sorted d ↔ d !! name = Some f.
Proof. rewrite iterdir_sorted_Permutation. apply elem_of_map_to_list. Qed.

Lemma hashes_foldl_lookup (l : list (string * File)) (acc : gmap string string) name :
  NoDup l.*1 →
  foldl (fun hashes entry =>
           let '(name, f) := entry in
           if supported name then <[name := _file_hash f]> hashes else hashes)
        acc l !! name
  = match (list_to_map l : Folder) !! name with
    | Some f => if supported name then Some (sha256_hexdigest f) else acc !! name
    | None => acc !! name
    end.
Proof.
  revert acc. induction l as [|[n f] l IH]; intros acc Hnd; [done|].
  rewrite fmap_cons in Hnd. apply NoDup_cons in Hnd as [Hn Hnd].
  cbn [foldl]. rewrite IH by done. rewrite list_to_map_cons.
  destruct (decide (n = name)) as [->|Hne].
  - rewrite lookup_insert_eq.
    rewrite (not_elem_of_list_to_map_1 _ name) by done.
    destruct (supported name); [apply lookup_insert_eq|done].
  - rewrite lookup_insert_ne by done.
    destruct (list_to_map l !! name), (supported name), (supported n);
      rewrite ?lookup_insert_ne by done; done.
Qed.

(** The hash table has exactly the supported files of the folder. *)
Lemma compute_file_hashes_lookup (d : Folder) name :
  compute_file_hashes d !! name
  = if supported name then sha256_hexdigest <$> d !! name else None.
Proof.
  unfold compute_file_hashes.
  rewrite hashes_foldl_lookup by apply iterdir_sorted_NoDup.
  rewrite iterdir_sorted_to_map, lookup_empty.
  destruct (d !! name), (supported name); done.
Qed.

(** ** Change detection *)

Section change_detection.
Context {Row : Type}.
Implicit Types (w : @HybridIndex.World Row) (docs_dir : Folder).

(** What [needs_reindex] returns, and in which state. *)
Lemma needs_reindex_run docs_dir w :
  ∃ needs added changed removed,
    HybridIndex.needs_reindex docs_dir w = Ok ((needs, added, changed, removed), w) ∧
    (∀ f, f ∈ added ↔
          is_Some (compute_file_hashes docs_dir !! f) ∧
          HybridIndex.manifest (HybridIndex.self w) !! f = None) ∧
    (∀ f, f ∈ removed ↔
          is_Some (HybridIndex.manifest (HybridIndex.self w) !! f) ∧
          compute_file_hashes docs_dir !! f = None) ∧
    (∀ f, f ∈ changed ↔
          ∃ h e, compute_file_hashes docs_dir !! f = Some h ∧
                 HybridIndex.manifest (HybridIndex.self w) !! f = Some e ∧
                 h ≠ hash e) ∧
    (needs = false ↔ added = [] ∧ changed = [] ∧ removed = []) ∧
    NoDup added ∧ NoDup changed ∧ NoDup removed.
Proof.
  cbv beta iota zeta delta
    [HybridIndex.needs_reindex HybridIndex.bind HybridIndex.get_self HybridIndex.ret].
  do 4 eexists. split; [reflexivity|].
  set (current := compute_file_hashes docs_dir).
  set (m := HybridIndex.manifest (HybridIndex.self w)).
  split_and!.
  - intros f. rewrite elem_of_sorted_str, elem_of_elements, elem_of_difference.
    rewrite elem_of_dom, not_elem_of_dom. tauto.
  - intros f. rewrite elem_of_sorted_str, elem_of_elements, elem_of_difference.
    rewrite elem_of_dom, not_elem_of_dom. tauto.
  - intros f. rewrite elem_of_sorted_str, list_elem_of_filter, elem_of_elements.
    rewrite elem_of_intersection, !elem_of_dom. split.
    + intros (Hne & [e He] & [h Hh]). exists h, e.
      rewrite Hh, He in Hne. simpl in Hne. naive_solver.
    + intros (h & e & Hh & He & Hne). rewrite Hh, He. simpl. naive_solver.
  - rewrite !orb_false_iff, !negb_false_iff, !bool_decide_eq_true. tauto.
  - apply NoDup_sorted_str, NoDup_elements.
  - apply NoDup_sorted_str, NoDup_filter, NoDup_elements.
  - apply NoDup_sorted_str, NoDup_elements.
Qed.
End change_detection.

(** C8.  [needs_reindex] sorts every file name into three disjoint groups:
    added (hashed now, not in the manifest), removed (in the manifest, not
    hashed now) and changed (in both, with a different hash).  A file in
    both whose hash differs is changed, and neither added nor removed; a
    file in both with the same hash is in no group. *)
Theorem needs_reindex_classification {Row : Type}
    (docs_dir : Folder) (w : @HybridIndex.World Row) :
  ∃ needs added changed removed,
    HybridIndex.needs_reindex docs_dir w = Ok ((needs, added, changed, removed), w) ∧
    let current := compute_file_hashes docs_dir in
    let m := HybridIndex.manifest (HybridIndex.self w) in
    (∀ f, f ∈ added ↔ is_Some (current !! f) ∧ m !! f = None) ∧
    (∀ f, f ∈ removed ↔ is_Some (m !! f) ∧ current !! f = None) ∧
    (∀ f, f ∈ changed ↔
          ∃ h e, current !! f = Some h ∧ m !! f = Some e ∧ h ≠ hash e) ∧
    (∀ f, (¬ (f ∈ added ∧ f ∈ removed)) ∧ (¬ (f ∈ added ∧ f ∈ changed)) ∧
          (¬ (f ∈ removed ∧ f ∈ changed))) ∧
    (∀ f h e, current !! f = Some h → m !! f = Some e → h ≠ hash e →
              f ∈ changed ∧ (f ∉ added) ∧ (f ∉ removed)) ∧
    (∀ f h e, current !! f = Some h → m !! f = Some e → h = hash e →
              (f ∉ added) ∧ (f ∉ changed) ∧ (f ∉ removed)).
Proof.
  destruct (needs_reindex_run docs_dir w)
    as (needs & added & changed & removed & Hrun & Ha & Hr & Hc & _).
  exists needs, added, changed, removed. split; [exact Hrun|].
  cbv zeta. split_and!; [exact Ha|exact Hr|exact Hc| | |].
  - intros f. rewrite Ha, Hr, (Hc f). split_and!.
    + intros [[_ Hm] [[e He] _]]. congruence.
    + intros [[_ Hm] (h & e & _ & He & _)]. congruence.
    + intros [[_ Hcur] (h & e & Hh & _)]. congruence.
  - intros f h e Hh He Hne. rewrite Ha, Hr, (Hc f). split_and!.
    + by exists h, e.
    + intros [_ Hm]. congruence.
    + intros [_ Hcur]. congruence.
  - intros f h e Hh He Heq. rewrite Ha, Hr, (Hc f). split_and!.
    + intros [_ Hm]. congruence.
    + intros (h' & e' & Hh' & He' & Hne). congruence.
    + intros [_ Hcur]. congruence.
Qed.

(** C9.  [needs_reindex] is a pure query: it returns its answer in the
    state it was called in, so the chunk list, the embedding matrix, the
    manifest, the BM25 model and the index directory are unchanged. *)
Theorem needs_reindex_is_pure {Row : Type}
    (docs_dir : Folder) (w : @HybridIndex.World Row) :
  ∃ r w',
    HybridIndex.needs_reindex docs_dir w = Ok (r, w') ∧
    HybridIndex.chunks (HybridIndex.self w') = HybridIndex.chunks (HybridIndex.self w) ∧
    HybridIndex.embeddings (HybridIndex.self w')
      = HybridIndex.embeddings (HybridIndex.self w) ∧
    HybridIndex.manifest (HybridIndex.self w')
      = HybridIndex.manifest (HybridIndex.self w) ∧
    HybridIndex.bm25 (HybridIndex.self w') = HybridIndex.bm25 (HybridIndex.self w) ∧
    w' = w.
Proof.
  destruct (needs_reindex_run docs_dir w)
    as (needs & added & changed & removed & Hrun & _).
  by exists (needs, added, changed, removed), w.
Qed.

(** ** Reciprocal rank fusion *)

Lemma inject_nat_pos n : (0 < n)%nat → (0 < inject_Z (Z.of_nat n))%Q.
Proof. intros H. change 0%Q with (inject_Z 0). rewrite <- Zlt_Qlt. lia. Qed.

Lemma rrf_weight_pos k r : (0 < rrf_weight k r)%Q.
Proof.
  unfold rrf_weight. apply Qlt_shift_div_l.
  - apply inject_nat_pos. lia.
  - rewrite Qmult_0_l. done.
Qed.

Lemma rrf_weight_succ k r : (rrf_weight k (S r) < rrf_weight k r)%Q.
Proof.
  unfold rrf_weight, Qlt, Qdiv, Qmult, Qinv, inject_Z. cbn.
  destruct (Z.of_nat (k + r + 1)) eqn:E1; destruct (Z.of_nat (k + S r + 1)) eqn:E2;
    try lia.
  cbn. lia.
Qed.

Lemma dict_get_add scores d x d' :
  dict_get (dict_add scores d x) d'
  = if (d =? d')%nat then Some (score_of scores d + x)%Q else dict_get scores d'.
Proof.
  unfold score_of. induction scores as [|[a s] rest IH]; simpl.
  - by destruct (d =? d')%nat.
  - destruct (a =? d)%nat eqn:Had; simpl.
    + apply Nat.eqb_eq in Had as ->. by destruct (d =? d')%nat.
    + rewrite IH. destruct (a =? d')%nat eqn:Had'; [|done].
      apply Nat.eqb_eq in Had' as ->. by rewrite Nat.eqb_sym, Had.
Qed.

Lemma score_of_add scores d x d' :
  score_of (dict_add scores d x) d'
  = if (d =? d')%nat then (score_of scores d + x)%Q else score_of scores d'.
Proof. unfold score_of at 1. rewrite dict_get_add. by destruct (d =? d')%nat. Qed.

Lemma elem_of_dict_add_keys scores d x a :
  a ∈ (dict_add scores d x).*1 ↔ a = d ∨ a ∈ scores.*1.
Proof.
  induction scores as [|[b s] rest IH]; simpl.
  - rewrite list_elem_of_singleton. set_solver.
  - destruct (b =? d)%nat eqn:Hbd; simpl.
    + apply Nat.eqb_eq in Hbd as ->. set_solver.
    + rewrite !elem_of_cons, IH. tauto.
Qed.

Lemma NoDup_dict_add scores d x : NoDup scores.*1 → NoDup (dict_add scores d x).*1.
Proof.
  induction scores as [|[b s] rest IH]; simpl; intros Hnd.
  - apply NoDup_singleton.
  - apply NoDup_cons in Hnd as [Hb Hnd].
    destruct (b =? d)%nat eqn:Hbd; simpl.
    + by apply NoDup_cons.
    + apply NoDup_cons. split; [|by apply IH].
      rewrite elem_of_dict_add_keys. apply Nat.eqb_neq in Hbd. naive_solver.
Qed.

Lemma dict_get_elem_of scores d s :
  NoDup scores.*1 → (d, s) ∈ scores → dict_get scores d = Some s.
Proof.
  induction scores as [|[b t] rest IH]; simpl; intros Hnd Hin.
  - by apply elem_of_nil in Hin.
  - apply NoDup_cons in Hnd as [Hb Hnd].
    apply elem_of_cons in Hin as [[= <- <-]|Hin].
    + by rewrite Nat.eqb_refl.
    + destruct (b =? d)%nat eqn:Hbd; [|by apply IH].
      apply Nat.eqb_eq in Hbd as ->. destruct Hb.
      apply list_elem_of_fmap. by exists (d, s).
Qed.



Lemma enumerate_from_cons {B} n (x : B) (l : list B) :
  enumerate_from n (x :: l) = (n, x) :: enumerate_from (S n) l.
Proof.
  unfold enumerate_from. rewrite imap_cons. f_equal; [f_equal; lia|].
  apply imap_ext. intros i y _. simpl. f_equal. lia.
Qed.

Lemma enumerate_from_0 {B} (l : list B) : Py.enumerate l = enumerate_from 0 l.
Proof. done. Qed.

Section rrf.
Context {A : Type} (k : nat).
Implicit Types (ranked : list (nat * A)) (scores : list (nat * Q)).

(** One ranked list adds its weight for [d] to the accumulator. *)
Lemma rrf_inner_score scores n ranked d :
  (score_of (foldl (rrf_step k) scores (enumerate_from n ranked)) d
   == score_of scores d + list_weight k d n ranked)%Q.
Proof.
  revert scores n. induction ranked as [|[d' a] rest IH]; intros scores n.
  - simpl. ring.
  - rewrite enumerate_from_cons. cbn [foldl list_weight rrf_step].
    rewrite IH, score_of_add.
    destruct (d' =? d)%nat eqn:Hd; [|ring].
    apply Nat.eqb_eq in Hd as ->. ring.
Qed.

Lemma rrf_outer_score scores (ranked_lists : list (list (nat * A))) d :
  (score_of (foldl (fun scores ranked => foldl (rrf_step k) scores (Py.enumerate ranked))
              scores ranked_lists) d
   == score_of scores d + fused_weight k d ranked_lists)%Q.
Proof.
  revert scores. induction ranked_lists as [|ranked rest IH]; intros scores.
  - simpl. ring.
  - cbn [foldl fused_weight]. rewrite IH, enumerate_from_0, rrf_inner_score. ring.
Qed.

Lemma rrf_inner_keys scores n ranked d :
  d ∈ (foldl (rrf_step k) scores (enumerate_from n ranked)).*1
  ↔ d ∈ scores.*1 ∨ d ∈ ranked.*1.
Proof.
  revert scores n. induction ranked as [|[d' a] rest IH]; intros scores n.
  - simpl. rewrite elem_of_nil. tauto.
  - rewrite enumerate_from_cons. cbn [foldl rrf_step].
    rewrite IH, elem_of_dict_add_keys, fmap_cons, elem_of_cons. simpl. tauto.
Qed.

Lemma rrf_inner_NoDup scores n ranked :
  NoDup scores.*1 → NoDup (foldl (rrf_step k) scores (enumerate_from n ranked)).*1.
Proof.
  revert scores n. induction ranked as [|[d' a] rest IH]; intros scores n Hnd; [done|].
  rewrite enumerate_from_cons. cbn [foldl rrf_step]. by apply IH, NoDup_dict_add.
Qed.

Lemma rrf_scores_keys (ranked_lists : list (list (nat * A))) d :
  d ∈ (rrf_scores ranked_lists k).*1 ↔ ∃ ranked, ranked ∈ ranked_lists ∧ d ∈ ranked.*1.
Proof.
  unfold rrf_scores.
  assert (∀ scores,
    d ∈ (foldl (fun scores ranked => foldl (rrf_step k) scores (Py.enumerate ranked))
           scores ranked_lists).*1
    ↔ d ∈ scores.*1 ∨ ∃ ranked, ranked ∈ ranked_lists ∧ d ∈ ranked.*1) as H.
  { induction ranked_lists as [|ranked rest IH]; intros scores.
    - simpl. split; [by left|]. intros [?|(? & ?%elem_of_nil & _)]; done.
    - cbn [foldl]. rewrite IH, enumerate_from_0, rrf_inner_keys.
      split.
      + intros [[?|?]|(r & ? & ?)]; [by left| |].
        * right. exists ranked. split; [by left|done].
        * right. exists r. split; [by right|done].
      + intros [?|(r & [->|?]%elem_of_cons & ?)]; [by left; left|by left; right|].
        right. by exists r. }
  rewrite H. simpl. rewrite elem_of_nil. tauto.
Qed.

Lemma rrf_scores_NoDup (ranked_lists : list (list (nat * A))) :
  NoDup (rrf_scores ranked_lists k).*1.
Proof.
  unfold rrf_scores.
  assert (∀ scores, NoDup scores.*1 →
    NoDup (foldl (fun scores ranked => foldl (rrf_step k) scores (Py.enumerate ranked))
             scores ranked_lists).*1) as H.
  { induction ranked_lists as [|ranked rest IH]; intros scores Hnd; [done|].
    cbn [foldl]. apply IH. rewrite enumerate_from_0. by apply rrf_inner_NoDup. }
  apply H. constructor.
Qed.

Lemma rrf_scores_score (ranked_lists : list (list (nat * A))) d :
  (score_of (rrf_scores ranked_lists k) d == fused_weight k d ranked_lists)%Q.
Proof. unfold rrf_scores. rewrite rrf_outer_score. unfold score_of. simpl. ring. Qed.


End rrf.


Section rrf_first.
Context {A : Type} (k d : nat).
Implicit Types (ranked : list (nat * A)).




Context (ranked_lists : list (list (nat * A))).
Hypothesis rankings : ∀ ranked, ranked ∈ ranked_lists → NoDup ranked.*1.
Hypothesis first : ∀ ranked, ranked ∈ ranked_lists → ranked.*1 !! 0 = Some d.


End rrf_first.



(** ** BM25: what [fit] computes *)

Lemma Counter_foldl_lookup tokens (acc : gmap string nat) t :
  foldl (fun tf u => <[u := S (default 0 (tf !! u))]> tf) acc tokens !! t
  = match term_count t tokens with
    | O => acc !! t
    | S _ => Some (default 0 (acc !! t) + term_count t tokens)
    end.
Proof.
  unfold term_count. revert acc. induction tokens as [|u tokens IH]; intros acc; [done|].
  cbn [foldl]. rewrite IH, filter_cons. destruct (decide (u = t)) as [->|Hne].
  - rewrite lookup_insert_eq. simpl.
    destruct (length (filter _ tokens)); f_equal; lia.
  - by rewrite lookup_insert_ne.
Qed.

Lemma Counter_lookup tokens t :
  Counter tokens !! t
  = match term_count t tokens with O => None | S _ => Some (term_count t tokens) end.
Proof.
  unfold Counter. rewrite Counter_foldl_lookup, lookup_empty.
  by destruct (term_count t tokens).
Qed.

Lemma term_count_pos t tokens : (0 < term_count t tokens)%nat ↔ t ∈ tokens.
Proof.
  unfold term_count. induction tokens as [|u tokens IH]; simpl.
  - rewrite elem_of_nil. lia.
  - rewrite filter_cons, elem_of_cons. destruct (decide (u = t)) as [->|Hne]; simpl.
    + split; [by left|lia].
    + rewrite IH. naive_solver.
Qed.

Lemma df_update_lookup (df : gmap string nat) (X : gset string) t :
  set_fold (fun term df => <[term := default 0 (df !! term) + 1]> df) df X !! t
  = if decide (t ∈ X) then Some (default 0 (df !! t) + 1) else df !! t.
Proof.
  revert t.
  pose (P := fun (r : gmap string nat) (Y : gset string) => ∀ t, r !! t
           = if decide (t ∈ Y) then Some (default 0 (df !! t) + 1) else df !! t).
  apply (set_fold_ind_L P); unfold P; clear P.
  - intros t. by rewrite decide_False by set_solver.
  - intros x Y r Hx IH t. destruct (decide (x = t)) as [->|Hne].
    + rewrite lookup_insert_eq, IH. rewrite decide_False by done.
      by rewrite decide_True by set_solver.
    + rewrite lookup_insert_ne, IH by done.
      destruct (decide (t ∈ Y)).
      * by rewrite decide_True by set_solver.
      * by rewrite decide_False by set_solver.
Qed.

Lemma doc_freq_cons t text texts :
  doc_freq t (text :: texts)
  = ((if decide (t ∈ _tokenize text) then 1 else 0) + doc_freq t texts)%nat.
Proof. unfold doc_freq. rewrite filter_cons. by destruct (decide _). Qed.

Lemma doc_freq_le t texts : (doc_freq t texts ≤ length texts)%nat.
Proof. apply length_filter. Qed.

Lemma fit_loop texts tfs lens (df : gmap string nat) :
  ∃ df',
    foldl BM25.fit_step (tfs, lens, df) texts
    = (tfs ++ map (fun text => Counter (_tokenize text)) texts,
       lens ++ map (fun text => length (_tokenize text)) texts, df') ∧
    ∀ t, df' !! t = match doc_freq t texts with
                    | O => df !! t
                    | S _ => Some (default 0 (df !! t) + doc_freq t texts)%nat
                    end.
Proof.
  revert tfs lens df. induction texts as [|text texts IH]; intros tfs lens df.
  - exists df. simpl. by rewrite !app_nil_r.
  - cbn [foldl BM25.fit_step].
    destruct (IH (tfs ++ [Counter (_tokenize text)])
                 (lens ++ [length (_tokenize text)])
                 (set_fold (fun term df => <[term := (default 0 (df !! term) + 1)%nat]> df) df
                    (list_to_set (_tokenize text) : gset string)))
      as (df' & -> & Hdf').
    exists df'. split.
    + by rewrite <- !app_assoc.
    + intros t. rewrite Hdf', df_update_lookup, doc_freq_cons.
      destruct (decide (t ∈ (list_to_set (_tokenize text) : gset string))) as [Hin|Hin];
        rewrite elem_of_list_to_set in Hin.
      * rewrite decide_True by done. simpl.
        destruct (doc_freq t texts); f_equal; lia.
      * rewrite decide_False by done. done.
Qed.

Section fitted.
Context (self0 : BM25.t) (texts : list string).
Let self := BM25.fit self0 texts.

Lemma fit_tf : BM25._tf self = map (fun text => Counter (_tokenize text)) texts.
Proof.
  unfold self, BM25.fit. destruct (fit_loop texts [] [] ∅) as (df' & -> & _). done.
Qed.

Lemma fit_doc_lens :
  BM25._doc_lens self = map (fun text => length (_tokenize text)) texts.
Proof.
  unfold self, BM25.fit. destruct (fit_loop texts [] [] ∅) as (df' & -> & _). done.
Qed.

Lemma fit_n_docs : BM25._n_docs self = length texts.
Proof. unfold self, BM25.fit. by destruct (foldl _ _ _) as [[? ?] ?]. Qed.

Lemma fit_k1 : BM25.k1 self = BM25.k1 self0.
Proof. unfold self, BM25.fit. by destruct (foldl _ _ _) as [[? ?] ?]. Qed.

Lemma fit_b : BM25.b self = BM25.b self0.
Proof. unfold self, BM25.fit. by destruct (foldl _ _ _) as [[? ?] ?]. Qed.

Lemma fit_avg_dl :
  BM25._avg_dl self
  = (INR (sum_list (map (fun text => length (_tokenize text)) texts))
     / INR (max (length texts) 1))%R.
Proof.
  unfold self, BM25.fit. destruct (fit_loop texts [] [] ∅) as (df' & -> & _). done.
Qed.

Lemma fit_doc_freqs t :
  BM25._doc_freqs self !! t
  = match doc_freq t texts with O => None | S _ => Some (doc_freq t texts) end.
Proof.
  unfold self, BM25.fit. destruct (fit_loop texts [] [] ∅) as (df' & -> & Hdf).
  simpl. rewrite Hdf, lookup_empty. by destruct (doc_freq t texts).
Qed.

(** A term of the vocabulary occurs in some text, so the texts are not
    all empty. *)
Lemma doc_freq_pos_sum t :
  (0 < doc_freq t texts)%nat →
  (0 < sum_list (map (fun text => length (_tokenize text)) texts))%nat.
Proof.
  clear self. induction texts as [|text rest IH]; [by cbv; lia|].
  rewrite doc_freq_cons. simpl. destruct (decide _) as [Hin|Hin].
  - intros _. destruct (_tokenize text); [by apply elem_of_nil in Hin|simpl; lia].
  - intros H. specialize (IH H). lia.
Qed.

Lemma fit_avg_dl_pos t :
  is_Some (BM25._doc_freqs self !! t) → (0 < BM25._avg_dl self)%R.
Proof.
  rewrite fit_doc_freqs, fit_avg_dl. intros Hsome.
  assert (0 < doc_freq t texts)%nat as Hpos.
  { destruct (doc_freq t texts); [by destruct Hsome|lia]. }
  apply doc_freq_pos_sum in Hpos.
  apply Rdiv_lt_0_compat; apply lt_0_INR; lia.
Qed.
End fitted.

(** ** BM25: what [search] computes *)

Lemma float_div_ok x y : y ≠ 0%R → float_div x y = Ok (x / y)%R.
Proof. intros H. unfold float_div. by destruct (Req_dec_T y 0). Qed.

Lemma math_log_ok x : (0 < x)%R → math_log x = Ok (ln x).
Proof. intros H. unfold math_log. by destruct (Rlt_dec 0 x). Qed.

Lemma getitem_ok {A} (l : list A) i x : l !! i = Some x → getitem l i = Ok x.
Proof. intros H. unfold getitem. by rewrite H. Qed.

Section search.
Context (self0 : BM25.t) (texts : list string).
Hypothesis k1_nonneg : (0 <= BM25.k1 self0)%R.
Hypothesis b_range : (0 <= BM25.b self0 <= 1)%R.
Let self := BM25.fit self0 texts.
Let k1 := BM25.k1 self0.
Let b := BM25.b self0.

Lemma fit_avgdl : BM25._avg_dl self = avgdl texts.
Proof. apply fit_avg_dl. Qed.

(** One step of the inner loop adds the weight of [term] in chunk [i]
    to [scores[i]] and does not fail. *)
Lemma score_doc_run term idf scores i d s :
  (0 < doc_freq term texts)%nat →
  texts !! i = Some d →
  scores !! i = Some s →
  BM25.score_doc self term idf scores (i, Counter (_tokenize d))
  = Ok (<[i := (s + term_weight k1 b texts idf term d)%R]> scores).
Proof.
  intros Hdf Hd Hs. unfold BM25.score_doc.
  assert (0 < avgdl texts)%R as Havg.
  { rewrite <- fit_avgdl. apply (fit_avg_dl_pos self0 texts term).
    rewrite fit_doc_freqs. destruct (doc_freq term texts); [lia|by eexists]. }
  rewrite Counter_lookup. unfold term_weight.
  destruct (term_count term (_tokenize d)) as [|c] eqn:Hc.
  - simpl. f_equal. symmetry.
    replace (s + _)%R with s; [by apply list_insert_id|].
    unfold Rdiv. ring.
  - set (freq := S c).
    rewrite (getitem_ok _ _ (length (_tokenize d))).
    2:{ unfold self. rewrite fit_doc_lens, list_lookup_fmap, Hd. done. }
    cbn [rbind]. rewrite fit_avgdl. unfold self.
    rewrite (fit_k1 self0 texts), (fit_b self0 texts).
    fold k1 b.
    rewrite float_div_ok by lra. cbn [rbind].
    assert (0 < INR freq)%R as Hfreq by (apply lt_0_INR; unfold freq; lia).
    assert (0 <= INR (length (_tokenize d)))%R as Hdl by apply pos_INR.
    assert (0 <= b * INR (length (_tokenize d)) / avgdl texts)%R as Hq.
    { unfold Rdiv. apply Rmult_le_pos.
      - apply Rmult_le_pos; [apply b_range|done].
      - apply Rlt_le, Rinv_0_lt_compat, Havg. }
    assert (0 < INR freq + k1 * (1 - b + b * INR (length (_tokenize d)) / avgdl texts))%R
      as Hden.
    { apply Rplus_lt_le_0_compat; [done|].
      apply Rmult_le_pos; [done|].
      pose proof b_range as [Hb0 Hb1]. fold b in Hb0, Hb1. lra. }
    rewrite float_div_ok by lra. cbn [rbind].
    rewrite (getitem_ok _ _ s) by done. cbn [rbind].
    do 3 f_equal. unfold Rdiv. ring.
Qed.

(** The whole inner loop, from chunk [n] on. *)
Lemma score_docs_run term idf l : ∀ n scores,
  (0 < doc_freq term texts)%nat →
  (∀ i d, l !! i = Some d → texts !! (n + i)%nat = Some d) →
  (n + length l = length texts)%nat →
  (length texts ≤ length scores)%nat →
  ∃ scores',
    foldlM (BM25.score_doc self term idf) scores
           (enumerate_from n (map (fun d => Counter (_tokenize d)) l)) = Ok scores' ∧
    length scores' = length scores ∧
    ∀ j, scores' !! j
         = (fun s => if decide (n ≤ j)%nat then (s + doc_weight k1 b texts idf term j)%R else s)
             <$> scores !! j.
Proof.
  induction l as [|d l IH]; intros n scores Hdf Hl Hn Hlen.
  - exists scores. split; [done|]. split; [done|]. intros j.
    destruct (scores !! j) as [s|] eqn:Hs; [|done]. simpl. f_equal.
    destruct (decide _); [|done]. unfold doc_weight.
    rewrite (proj2 (lookup_ge_None texts j)); [ring|]. simpl in Hn. lia.
  - cbn [map]. rewrite enumerate_from_cons. cbn [foldlM].
    destruct (lookup_lt_is_Some_2 scores n) as [s Hs]; [simpl in Hn; lia|].
    rewrite (score_doc_run term idf scores n d s); [|done| |done].
    2:{ specialize (Hl 0%nat d eq_refl). by rewrite Nat.add_0_r in Hl. }
    cbn [rbind].
    destruct (IH (S n) (<[n := (s + term_weight k1 b texts idf term d)%R]> scores))
      as (scores' & Hrun & Hlen' & Hlook).
    + done.
    + intros i d' Hi. specialize (Hl (S i) d' Hi).
      by replace (S n + i)%nat with (n + S i)%nat by lia.
    + simpl in Hn. lia.
    + by rewrite length_insert.
    + exists scores'. split; [exact Hrun|]. split; [by rewrite Hlen', length_insert|].
      intros j. rewrite Hlook. destruct (decide (j = n)) as [->|Hne].
      * rewrite list_lookup_insert_eq by (simpl in Hn; lia). rewrite Hs. simpl.
        rewrite decide_False by lia. rewrite decide_True by lia.
        unfold doc_weight. specialize (Hl 0%nat d eq_refl).
        rewrite Nat.add_0_r in Hl. by rewrite Hl.
      * rewrite list_lookup_insert_ne by done.
        destruct (scores !! j) as [sj|]; [|done]. simpl. f_equal.
        destruct (decide (S n ≤ j)%nat), (decide (n ≤ j)%nat); try done; lia.
Qed.

(** One step of the outer loop. *)
Lemma score_term_run scores term :
  (length texts ≤ length scores)%nat →
  ∃ scores',
    BM25.score_term self scores term = Ok scores' ∧
    length scores' = length scores ∧
    ∀ j, scores' !! j = (fun s => (s + query_term_weight k1 b texts term j)%R) <$> scores !! j.
Proof.
  intros Hlen. unfold BM25.score_term, query_term_weight.
  unfold self at 1. rewrite fit_doc_freqs.
  pose proof (doc_freq_le term texts) as Hle.
  destruct (doc_freq term texts) as [|c] eqn:Hdf.
  - exists scores. split; [done|]. split; [done|]. intros j.
    destruct (scores !! j); [|done]. simpl. f_equal. ring.
  - set (df := S c) in *.
    assert (0 < INR df)%R as Hdfpos by (apply lt_0_INR; unfold df; lia).
    assert (INR df <= INR (length texts))%R as Hdfle by (by apply le_INR).
    unfold self at 1. rewrite fit_n_docs.
    rewrite float_div_ok by lra. cbn [rbind].
    assert (0 < (INR (length texts) - INR df + 0.5) / (INR df + 0.5))%R as Hratio.
    { apply Rdiv_lt_0_compat; lra. }
    rewrite math_log_ok by lra. cbn [rbind].
    unfold self at 2. rewrite fit_tf, enumerate_from_0.
    destruct (score_docs_run term
                (ln ((INR (length texts) - INR df + 0.5) / (INR df + 0.5) + 1.0))
                texts 0%nat scores)
      as (scores' & Hrun & Hlen' & Hlook); [lia|done|done|done|].
    exists scores'. split; [exact Hrun|]. split; [done|].
    intros j. rewrite Hlook. destruct (scores !! j); [|done].
    cbv beta iota delta [fmap option_fmap option_map].
    rewrite decide_True by lia. unfold bm25_idf. do 4 f_equal. lra.
Qed.
(** The outer loop over the query tokens. *)
Lemma score_terms_run tokens : ∀ scores,
  (length texts ≤ length scores)%nat →
  ∃ scores',
    foldlM (BM25.score_term self) scores tokens = Ok scores' ∧
    length scores' = length scores ∧
    ∀ j, scores' !! j
         = (fun s => (s + Rsum (map (fun t => query_term_weight k1 b texts t j) tokens))%R)
             <$> scores !! j.
Proof.
  induction tokens as [|t tokens IH]; intros scores Hlen.
  - exists scores. split; [done|]. split; [done|]. intros j.
    destruct (scores !! j); [|done]. simpl. f_equal. ring.
  - cbn [foldlM].
    destruct (score_term_run scores t Hlen) as (scores1 & -> & Hlen1 & Hlook1).
    cbn [rbind].
    destruct (IH scores1) as (scores' & Hrun & Hlen' & Hlook); [lia|].
    exists scores'. split; [exact Hrun|]. split; [lia|].
    intros j. rewrite Hlook, Hlook1. destruct (scores !! j); [|done].
    simpl. f_equal. ring.
Qed.

(** The accumulated sum is the score of the design: the sum over the
    query terms of the fitted vocabulary. *)
Lemma query_sum_spec tokens j d :
  texts !! j = Some d →
  Rsum (map (fun t => query_term_weight k1 b texts t j) tokens)
  = Rsum (map (fun t => bm25_term_score k1 b texts t d)
              (filter (fun t => doc_freq t texts ≠ 0%nat) tokens)).
Proof.
  intros Hd. induction tokens as [|t tokens IH]; [done|].
  rewrite filter_cons. cbn [map Rsum foldr]. fold (Rsum (map (fun t => query_term_weight k1 b texts t j) tokens)).
  rewrite IH. unfold query_term_weight at 1, doc_weight. rewrite Hd.
  destruct (decide (doc_freq t texts ≠ 0%nat)) as [Hne|Heq].
  - cbn [map Rsum foldr]. unfold bm25_term_score at 2.
    by destruct (doc_freq t texts).
  - destruct (doc_freq t texts); [|by destruct Heq]. apply Rplus_0_l.
Qed.

(** [search] returns; its result is cut out of the sorted score table. *)
Lemma search_run query top_k :
  ∃ scores,
    BM25.search self query top_k
    = Ok (filter (fun x => (0 < x.2)%R)
            (take top_k (Py.sorted (fun x y => Rleb (- x.2) (- y.2))
                           (Py.enumerate scores)))) ∧
    length scores = length texts ∧
    ∀ j d, texts !! j = Some d →
           scores !! j = Some (bm25_score k1 b texts query d).
Proof.
  unfold BM25.search. unfold self at 1 2. rewrite fit_n_docs.
  destruct (score_terms_run (_tokenize query) (replicate (length texts) 0%R))
    as (scores & Hrun & Hlen & Hlook); [by rewrite length_replicate|].
  fold self. rewrite Hrun. cbn [rbind].
  exists scores. split; [done|]. rewrite length_replicate in Hlen. split; [done|].
  intros j d Hd. rewrite Hlook, lookup_replicate_2 by (by eapply lookup_lt_Some).
  simpl. f_equal. rewrite (query_sum_spec _ j d Hd). unfold bm25_score. ring.
Qed.
End search.

Lemma StronglySorted_sublist {A} (R : relation A) l1 l2 :
  l1 `sublist_of` l2 → StronglySorted R l2 → StronglySorted R l1.
Proof.
  induction 1 as [|x l1 l2 Hsub IH|x l1 l2 Hsub IH]; intros Hs; [done| |].
  - apply StronglySorted_inv in Hs as [Hs Hx]. constructor; [by apply IH|].
    rewrite Forall_forall in Hx |- *. intros y Hy. apply Hx.
    by eapply elem_of_sublist.
  - apply StronglySorted_inv in Hs as [Hs _]. by apply IH.
Qed.

Lemma StronglySorted_impl {A} (R R' : relation A) l :
  (∀ x y, R x y → R' x y) → StronglySorted R l → StronglySorted R' l.
Proof.
  intros HR. induction 1 as [|x l Hl IH Hx]; constructor; [done|].
  eapply Forall_impl; [exact Hx|]. intros y. apply HR.
Qed.

Lemma Rleb_true x y : Rleb x y = true ↔ (x <= y)%R.
Proof. unfold Rleb. destruct (Rle_dec x y); naive_solver. Qed.

(** The ranking step of [search]: descending scores. *)
Lemma ranked_descending (scores : list R) :
  StronglySorted (fun x y : nat * R => (y.2 <= x.2)%R)
    (Py.sorted (fun x y => Rleb (- x.2) (- y.2)) (Py.enumerate scores)).
Proof.
  eapply StronglySorted_impl; [|apply sorted_StronglySorted].
  - intros x y H. apply Rleb_true in H. lra.
  - intros x y H. apply Rleb_true. destruct (Rleb (- x.2) (- y.2)) eqn:E; [done|].
    assert (¬ (- x.2 <= - y.2)%R) by (by rewrite <- Rleb_true, E). lra.
  - intros x y z H1 H2. apply Rleb_true in H1, H2. apply Rleb_true. lra.
Qed.

Lemma doc_freq_pos_elem t texts :
  (0 < doc_freq t texts)%nat → ∃ text, text ∈ texts ∧ t ∈ _tokenize text.
Proof.
  unfold doc_freq. intros H.
  destruct (filter (fun text => t ∈ _tokenize text) texts) as [|text l] eqn:Hf;
    [simpl in H; lia|].
  assert (text ∈ filter (fun text => t ∈ _tokenize text) texts) as Hin
    by (rewrite Hf; by left).
  apply list_elem_of_filter in Hin as [? ?]. by exists text.
Qed.

Lemma enumerate_from_fst {A} (l : list A) : ∀ n,
  (enumerate_from n l).*1 = seq n (length l).
Proof.
  induction l as [|x l IH]; intros n; [done|].
  rewrite enumerate_from_cons. simpl. by rewrite IH.
Qed.

Lemma enumerate_fst {A} (l : list A) : (Py.enumerate l).*1 = seq 0 (length l).
Proof. rewrite enumerate_from_0. apply enumerate_from_fst. Qed.

(** In a sorted list, what stands in front precedes what stands behind. *)
Lemma StronglySorted_app_cross {A} (R : relation A) l1 l2 :
  StronglySorted R (l1 ++ l2) → ∀ x y, x ∈ l1 → y ∈ l2 → R x y.
Proof.
  induction l1 as [|a l1 IH]; intros Hs x y Hx Hy; [by apply elem_of_nil in Hx|].
  simpl in Hs. apply StronglySorted_inv in Hs as [Hs Ha].
  apply elem_of_cons in Hx as [->|Hx]; [|by apply IH].
  rewrite Forall_forall in Ha. apply Ha. apply elem_of_app. by right.
Qed.

Lemma filter_Forall {A} (P : A → Prop) `{∀ x, Decision (P x)} (l : list A) :
  Forall P l → filter P l = l.
Proof.
  induction 1 as [|x l Hx Hl IH]; [done|].
  by rewrite filter_cons_True, IH.
Qed.

(** C5.  On a model fitted with the default parameters, [search] returns,
    without error, at most [top_k] pairs of a chunk position and a score,
    in descending order of score and no position twice; every score is
    strictly positive and is the sum, over the query terms of the fitted
    vocabulary, of
    idf(t) * tf(t,d) * (k1 + 1) / (tf(t,d) + k1 * (1 - b + b * |d| / avgdl))
    with idf(t) = ln((N - df(t) + 0.5) / (df(t) + 0.5) + 1), k1 = 1.5 and
    b = 0.75.  The pairs returned are the best ones: a chunk whose score
    is positive is left out only when [top_k] chunks are returned, each
    with a score at least as high.  Floats are read as real numbers. *)
Theorem bm25_search_contract (texts : list string) (query : string) (top_k : nat) :
  ∃ result,
    BM25.search (BM25.fit BM25.new texts) query top_k = Ok result ∧
    (length result ≤ top_k)%nat ∧
    StronglySorted (fun x y : nat * R => (y.2 <= x.2)%R) result ∧
    NoDup result.*1 ∧
    (∀ i s, (i, s) ∈ result →
            (0 < s)%R ∧
            ∃ d, texts !! i = Some d ∧ s = bm25_score 1.5 0.75 texts query d) ∧
    (∀ j d, texts !! j = Some d →
            (0 < bm25_score 1.5 0.75 texts query d)%R →
            j ∉ result.*1 →
            length result = top_k ∧
            ∀ i s, (i, s) ∈ result → (bm25_score 1.5 0.75 texts query d <= s)%R).
Proof.
  destruct (search_run BM25.new texts) with (query := query) (top_k := top_k)
    as (scores & Hrun & Hlen & Hscores).
  { simpl. lra. }
  { simpl. lra. }
  simpl in Hscores.
  set (ranked := Py.sorted (fun x y : nat * R => Rleb (- x.2) (- y.2))
                   (Py.enumerate scores)) in *.
  eexists. split; [exact Hrun|]. split_and!.
  - etrans; [apply length_filter|]. rewrite length_take. lia.
  - eapply StronglySorted_sublist; [|apply ranked_descending].
    etrans; [apply sublist_filter|apply sublist_take].
  - eapply sublist_NoDup;
      [|apply fmap_sublist; etrans; [apply sublist_filter|apply sublist_take]].
    unfold ranked. rewrite (sorted_Permutation _ _), enumerate_fst. apply NoDup_seq.
  - intros i s Hin. apply list_elem_of_filter in Hin as [Hpos Hin].
    split; [exact Hpos|].
    apply elem_of_take in Hin as (n & Hin & _).
    apply list_elem_of_lookup_2 in Hin.
    apply elem_of_sorted in Hin.
    apply elem_of_lookup_imap_1 in Hin as (j & x & [= -> ->] & Hx).
    destruct (lookup_lt_is_Some_2 texts j) as [d Hd].
    { rewrite <- Hlen. by eapply lookup_lt_Some. }
    exists d. split; [done|]. specialize (Hscores j d Hd). congruence.
  - intros j d Hd Hpos Hout.
    set (sj := bm25_score 1.5 0.75 texts query d) in *.
    assert ((j, sj) ∈ ranked) as Hin.
    { apply elem_of_sorted, elem_of_lookup_imap. exists j, sj.
      split; [done|]. by apply Hscores. }
    rewrite <- (take_drop top_k ranked) in Hin.
    apply elem_of_app in Hin as [Hin|Hin].
    { destruct Hout. apply list_elem_of_fmap. exists (j, sj). split; [done|].
      by apply list_elem_of_filter. }
    assert (∀ x, x ∈ take top_k ranked → (sj <= x.2)%R) as Hbest.
    { intros x Hx.
      apply (StronglySorted_app_cross (fun x y : nat * R => (y.2 <= x.2)%R)
               (take top_k ranked) (drop top_k ranked)) with (x := x) (y := (j, sj));
        [|done..].
      rewrite take_drop. apply ranked_descending. }
    rewrite filter_Forall.
    2:{ apply Forall_forall. intros x Hx. specialize (Hbest x Hx). simpl. lra. }
    split.
    + rewrite length_take. apply Nat.min_l.
      destruct (decide (top_k ≤ length ranked)%nat) as [?|Hgt]; [done|].
      rewrite drop_ge in Hin by lia. by apply elem_of_nil in Hin.
    + intros i s His. by apply (Hbest (i, s)).
Qed.

(** C10.  [search] never divides by zero and never fails on a fitted
    model, whatever the texts (none, or all empty) and the query: a term
    of the fitted document-frequency table occurs in some text, so that
    text has tokens, the average length is strictly positive and so is
    every scoring denominator. *)
Theorem bm25_search_total (texts : list string) (query : string) (top_k : nat) :
  (∃ result, BM25.search (BM25.fit BM25.new texts) query top_k = Ok result) ∧
  ∀ term, is_Some (BM25._doc_freqs (BM25.fit BM25.new texts) !! term) →
    (∃ text, text ∈ texts ∧ (0 < length (_tokenize text))%nat) ∧
    (0 < BM25._avg_dl (BM25.fit BM25.new texts))%R ∧
    ∀ freq dl : nat,
      (0 < INR freq + BM25.k1 (BM25.fit BM25.new texts)
                      * (1 - BM25.b (BM25.fit BM25.new texts)
                         + BM25.b (BM25.fit BM25.new texts) * INR dl
                           / BM25._avg_dl (BM25.fit BM25.new texts)))%R.
Proof.
  split.
  - destruct (search_run BM25.new texts) with (query := query) (top_k := top_k)
      as (scores & Hrun & _); [simpl; lra|simpl; lra|].
    by eexists.
  - intros term Hterm.
    pose proof (fit_avg_dl_pos BM25.new texts term Hterm) as Havg.
    split_and!; [|exact Havg|].
    + rewrite fit_doc_freqs in Hterm.
      destruct (doc_freq_pos_elem term texts) as (text & Hin & Htok).
      { destruct (doc_freq term texts); [by destruct Hterm|lia]. }
      exists text. split; [done|].
      destruct (_tokenize text); [by apply elem_of_nil in Htok|simpl; lia].
    + intros freq dl. rewrite fit_k1, fit_b. simpl.
      pose proof (pos_INR freq) as Hf. pose proof (pos_INR dl) as Hd.
      assert (0 <= 0.75 * INR dl / BM25._avg_dl (BM25.fit BM25.new texts))%R.
      { unfold Rdiv. apply Rmult_le_pos; [lra|].
        apply Rlt_le, Rinv_0_lt_compat, Havg. }
      lra.
Qed.

(** ** Loading documents and building *)

Lemma supported_spec name :
  supported name = true ↔
  Py.lower (Py.suffix name) = ".pdf" ∨ Py.lower (Py.suffix name) = ".docx".
Proof.
  unfold supported, config.SUPPORTED_EXTENSIONS.
  rewrite bool_decide_eq_true, !elem_of_cons, elem_of_nil. tauto.
Qed.

Lemma load_document_supported name f :
  supported name = true → load_document name (Some f) = Ok (extracted_text f).
Proof.
  intros H%supported_spec. unfold load_document.
  destruct H as [-> | ->]; done.
Qed.

Lemma load_document_unsupported name at_path :
  supported name = false →
  load_document name at_path
  = Raise (ValueError ("Unsupported file type: " +:+ Py.lower (Py.suffix name))).
Proof.
  intros H. unfold load_document.
  destruct (String.eqb _ ".pdf") eqn:E1.
  { apply String.eqb_eq in E1. assert (supported name = true) by (apply supported_spec; tauto). congruence. }
  destruct (String.eqb _ ".docx") eqn:E2.
  { apply String.eqb_eq in E2. assert (supported name = true) by (apply supported_spec; tauto). congruence. }
  done.
Qed.

Lemma load_documents_loop entries : ∀ docs,
  foldlM load_documents_step docs entries = Ok (docs ++ loaded entries).
Proof.
  unfold loaded. induction entries as [|[name f] entries IH]; intros docs.
  - simpl. by rewrite app_nil_r.
  - cbn [foldlM load_documents_step]. rewrite filter_cons. cbn [fst snd].
    destruct (supported name) eqn:Hs.
    + rewrite load_document_supported by done. cbn [rbind].
      destruct (Py.strip_nonempty (extracted_text f)) eqn:Ht.
      * rewrite decide_True by done. rewrite IH, fmap_cons, <- app_assoc. done.
      * rewrite decide_False by (intros [? ?]; done). apply IH.
    + cbn [rbind]. rewrite decide_False by (intros [? ?]; done). apply IH.
Qed.

Lemma load_documents_run (folder : Folder) :
  load_documents folder = Ok (loaded (iterdir_sorted folder)).
Proof. unfold load_documents. by rewrite load_documents_loop. Qed.

Lemma named_lt cs j f : named cs j f → (j < length cs)%nat.
Proof.
  unfold named. intros H. apply lookup_lt_is_Some.
  destruct (cs !! j); [by eexists|done].
Qed.

Lemma named_elem cs j f : named cs j f → ∃ c, c ∈ cs ∧ filename c = f.
Proof.
  unfold named. destruct (cs !! j) as [c|] eqn:Hc; [|done].
  intros [= <-]. exists c. split; [|done]. by eapply list_elem_of_lookup_2.
Qed.

Lemma elem_named cs c : c ∈ cs → ∃ j, named cs j (filename c).
Proof.
  intros [j Hj]%list_elem_of_lookup_1. exists j. unfold named. by rewrite Hj.
Qed.

Lemma named_app_l cs g j f : (j < length cs)%nat → named (cs ++ g) j f ↔ named cs j f.
Proof. intros H. unfold named. by rewrite lookup_app_l. Qed.

Lemma named_app_r cs g j f :
  (length cs ≤ j)%nat → named (cs ++ g) j f ↔ named g (j - length cs) f.
Proof. intros H. unfold named. by rewrite lookup_app_r. Qed.

Lemma ranges_exact_grouped cs m : chunks_known cs m → ranges_exact cs m → grouped cs.
Proof.
  intros Hk Hr i j k f Hijk Hi Hkf.
  destruct (named_elem _ _ _ Hi) as (c & Hc & <-).
  destruct (Hk c Hc) as [e He].
  apply (Hr _ _ He). apply (Hr _ _ He) in Hi, Hkf. lia.
Qed.

Lemma make_chunks_filename fname tcs c : c ∈ make_chunks fname tcs → filename c = fname.
Proof.
  unfold make_chunks. intros (i & t & -> & _)%elem_of_lookup_imap_1. done.
Qed.

Lemma make_chunks_text fname tcs : map text (make_chunks fname tcs) = tcs.
Proof.
  unfold make_chunks. apply list_eq. intros i.
  change (map text ?l) with (text <$> l).
  rewrite list_lookup_fmap, list_lookup_imap. by destruct (tcs !! i).
Qed.

Lemma make_chunks_length fname tcs : length (make_chunks fname tcs) = length tcs.
Proof. unfold make_chunks. apply length_imap. Qed.

(** Appending the chunks of a file that has no chunk yet, and recording
    the range they occupy, keeps the ranges exact. *)
Lemma ranges_exact_append cs m fname g h :
  ranges_exact cs m →
  (∀ c, c ∈ cs → filename c ≠ fname) →
  (∀ c, c ∈ g → filename c = fname) →
  ranges_exact (cs ++ g)
    (<[fname := {| hash := h; chunk_start := length cs;
                   chunk_end := length (cs ++ g) |}]> m).
Proof.
  intros Hr Hfresh Hg f e He j. destruct (decide (f = fname)) as [->|Hne].
  - rewrite lookup_insert_eq in He. injection He as <-. simpl.
    rewrite length_app. split.
    + intros Hj. rewrite named_app_r by lia.
      destruct (lookup_lt_is_Some_2 g (j - length cs)) as [c Hc]; [lia|].
      unfold named. rewrite Hc. simpl. f_equal. apply Hg.
      by eapply list_elem_of_lookup_2.
    + intros Hj. pose proof (named_lt _ _ _ Hj) as Hlt. rewrite length_app in Hlt.
      split; [|done]. destruct (decide (length cs ≤ j)%nat); [done|].
      rewrite named_app_l in Hj by lia.
      destruct (named_elem _ _ _ Hj) as (c & Hc & Hcf). by destruct (Hfresh c Hc).
  - rewrite lookup_insert_ne in He by done. rewrite (Hr f e He j). split.
    + intros Hj. pose proof (named_lt _ _ _ Hj). by rewrite named_app_l.
    + intros Hj. destruct (decide (j < length cs)%nat); [by rewrite named_app_l in Hj|].
      rewrite named_app_r in Hj by lia.
      destruct (named_elem _ _ _ Hj) as (c & Hc & Hcf).
      rewrite (Hg c Hc) in Hcf. congruence.
Qed.

Lemma chunks_known_append cs (m : Manifest) fname g e :
  chunks_known cs m →
  (∀ c, c ∈ g → filename c = fname) →
  chunks_known (cs ++ g) (<[fname := e]> m).
Proof.
  intros Hk Hg c [Hc|Hc]%elem_of_app.
  - destruct (decide (fname = filename c)) as [->|Hne].
    + rewrite lookup_insert_eq. by eexists.
    + rewrite lookup_insert_ne by done. by apply Hk.
  - rewrite (Hg c Hc), lookup_insert_eq. by eexists.
Qed.

Lemma loaded_names entries :
  (loaded entries).*1
  = (filter (fun entry => supported entry.1 = true ∧
                          Py.strip_nonempty (extracted_text entry.2) = true) entries).*1.
Proof. unfold loaded. rewrite <- list_fmap_compose. by apply list_fmap_ext. Qed.

Lemma loaded_NoDup entries : NoDup entries.*1 → NoDup (loaded entries).*1.
Proof.
  intros H. rewrite loaded_names.
  eapply sublist_NoDup; [exact H|apply fmap_sublist, sublist_filter].
Qed.

Lemma elem_of_loaded_names entries name :
  name ∈ (loaded entries).*1 →
  supported name = true ∧ ∃ f, (name, f) ∈ entries.
Proof.
  rewrite loaded_names. intros ([n f] & -> & Hin)%list_elem_of_fmap.
  apply list_elem_of_filter in Hin as [[Hs _] Hin]. split; [done|]. by exists f.
Qed.

Section build.
Context (file_hashes : gmap string string).

Lemma build_loop docs : ∀ cs (m : Manifest),
  NoDup docs.*1 →
  (∀ c, c ∈ cs → filename c ∉ docs.*1) →
  chunks_known cs m → ranges_exact cs m →
  ∃ cs' (m' : Manifest),
    foldl (HybridIndex.build_doc file_hashes) (cs, m) docs = (cs', m') ∧
    chunks_known cs' m' ∧ ranges_exact cs' m' ∧
    (∀ c, c ∈ cs' → c ∈ cs ∨ filename c ∈ docs.*1) ∧
    (∀ f, is_Some (m' !! f) ↔ is_Some (m !! f) ∨ f ∈ docs.*1) ∧
    (∀ f, f ∉ docs.*1 → m' !! f = m !! f) ∧
    (∀ f e, m' !! f = Some e → f ∈ docs.*1 →
            hash e = default EmptyString (file_hashes !! f)).
Proof.
  induction docs as [|[fname doc_text] docs IH]; intros cs m Hnd Hfresh Hk Hr.
  - exists cs, m. split; [done|]. split_and!; try done.
    + intros c Hc. by left.
    + intros f. rewrite elem_of_nil. tauto.
    + intros f e _ Hf. by apply elem_of_nil in Hf.
  - rewrite fmap_cons in Hnd. apply NoDup_cons in Hnd as [Hfname Hnd].
    cbn [foldl HybridIndex.build_doc].
    set (g := make_chunks fname (chunk_text doc_text config.CHUNK_SIZE config.CHUNK_OVERLAP)).
    set (e0 := {| hash := default EmptyString (file_hashes !! fname);
                  chunk_start := length cs; chunk_end := length (cs ++ g) |}).
    destruct (IH (cs ++ g) (<[fname := e0]> m))
      as (cs' & m' & Hrun & Hk' & Hr' & Hcs & Hm & Hsame & Hh).
    + done.
    + intros c [Hc|Hc]%elem_of_app.
      * intros Hin. apply (Hfresh c Hc). rewrite fmap_cons. by right.
      * rewrite (make_chunks_filename _ _ _ Hc). done.
    + apply chunks_known_append; [done|]. apply make_chunks_filename.
    + apply ranges_exact_append; [done| |apply make_chunks_filename].
      intros c Hc Heq. apply (Hfresh c Hc). rewrite fmap_cons, Heq. by left.
    + exists cs', m'. split; [exact Hrun|]. split_and!; [done|done| | | |].
      * intros c Hc. rewrite fmap_cons. destruct (Hcs c Hc) as [[H|H]%elem_of_app|H].
        -- by left.
        -- right. apply elem_of_cons. left. by apply make_chunks_filename in H.
        -- right. apply elem_of_cons. by right.
      * intros f. rewrite Hm, fmap_cons, elem_of_cons. simpl.
        destruct (decide (fname = f)) as [->|Hne].
        -- rewrite lookup_insert_eq. split; [intros _; right; by left|by left; eexists].
        -- rewrite lookup_insert_ne by done. naive_solver.
      * intros f Hf. rewrite fmap_cons, not_elem_of_cons in Hf. destruct Hf as [Hne Hf].
        rewrite Hsame by done. by rewrite lookup_insert_ne.
      * intros f e He Hf. rewrite fmap_cons in Hf. apply elem_of_cons in Hf as [->|Hf].
        -- simpl in He. rewrite Hsame, lookup_insert_eq in He by done.
           by injection He as <-.
        -- by apply Hh.
Qed.
End build.

Section build_run.
Context {Row : Type} (embed_text : string → Row).

Lemma build_run (docs_dir : Folder) (w : @HybridIndex.World Row) :
  ∃ cs (m : Manifest),
    HybridIndex.build embed_text docs_dir w
    = Ok (tt,
          {| HybridIndex.self :=
               {| HybridIndex.chunks := cs;
                  HybridIndex.embeddings := Some (HybridIndex.embed embed_text (map text cs));
                  HybridIndex.manifest := m;
                  HybridIndex.bm25 :=
                    BM25.fit (HybridIndex.bm25 (HybridIndex.self w)) (map text cs) |};
             HybridIndex.index_dir :=
               {| HybridIndex.manifest_json := Some m;
                  HybridIndex.chunks_json := Some cs;
                  HybridIndex.embeddings_npy :=
                    Some (HybridIndex.embed embed_text (map text cs)) |} |}) ∧
    chunks_known cs m ∧ ranges_exact cs m ∧
    (∀ c, c ∈ cs → supported (filename c) = true ∧ is_Some (docs_dir !! filename c)) ∧
    (∀ f, is_Some (m !! f) → supported f = true ∧ is_Some (docs_dir !! f)) ∧
    (∀ f e, m !! f = Some e →
            hash e = default EmptyString (compute_file_hashes docs_dir !! f)).
Proof.
  destruct (build_loop (compute_file_hashes docs_dir)
              (loaded (iterdir_sorted docs_dir)) [] ∅)
    as (cs & m & Hrun & Hk & Hr & Hcs & Hm & _ & Hh).
  { apply loaded_NoDup, iterdir_sorted_NoDup. }
  { intros c Hc. by apply elem_of_nil in Hc. }
  { intros c Hc. by apply elem_of_nil in Hc. }
  { intros f e He. by rewrite lookup_empty in He. }
  assert (∀ f, f ∈ (loaded (iterdir_sorted docs_dir)).*1 →
               supported f = true ∧ is_Some (docs_dir !! f)) as Hnames.
  { intros f (Hs & file & Hin)%elem_of_loaded_names. split; [done|].
    apply elem_of_iterdir_sorted in Hin. by eexists. }
  exists cs, m. split_and!; [|done|done| | |].
  - unfold HybridIndex.build, HybridIndex.bind, HybridIndex.lift.
    rewrite load_documents_run.
    unfold HybridIndex.get_self, HybridIndex.put_self, HybridIndex.save,
      HybridIndex.bind, HybridIndex.get_index_dir, HybridIndex.put_index_dir.
    rewrite Hrun. done.
  - intros c Hc. destruct (Hcs c Hc) as [H|H]; [by apply elem_of_nil in H|].
    by apply Hnames.
  - intros f Hf. apply Hm in Hf as [[? Hf]|Hf]; [by rewrite lookup_empty in Hf|].
    by apply Hnames.
  - intros f e He. apply Hh; [done|].
    assert (is_Some (m !! f)) as Hs by (by eexists).
    apply Hm in Hs as [[? Hf]|Hf]; [by rewrite lookup_empty in Hf|done].
Qed.

Lemma build_wf (docs_dir : Folder) (w w' : @HybridIndex.World Row) :
  HybridIndex.build embed_text docs_dir w = Ok (tt, w') → wf (HybridIndex.self w').
Proof.
  destruct (build_run docs_dir w) as (cs & m & -> & Hk & Hr & _).
  intros [= <-]. split; [|done].
  unfold aligned, rows_of, HybridIndex.embed. simpl. by rewrite !length_map.
Qed.
End build_run.

(** ** Removing the chunks of some files *)

Section select.
Context {A B : Type} (P : A → Prop) `{!∀ x, Decision (P x)}.

Lemma select_keep_from (l : list A) : ∀ n (k : list B),
  (n + length l ≤ length k)%nat →
  select k (filter (fun ic => P ic.2) (enumerate_from n l)).*1
  = Ok (filter (fun xy => P xy.1) (zip l (drop n k))).*2.
Proof.
  induction l as [|x l IH]; intros n k Hlen; [done|].
  rewrite enumerate_from_cons, filter_cons. cbn [snd].
  destruct (lookup_lt_is_Some_2 k n) as [y Hy]; [simpl in Hlen; lia|].
  rewrite (drop_S k y n Hy). cbn [zip zip_with]. rewrite filter_cons. cbn [fst].
  specialize (IH (S n) k ltac:(simpl in Hlen; lia)).
  destruct (decide (P x)).
  - rewrite !fmap_cons. cbn [select fst snd]. unfold getitem. rewrite Hy.
    cbn [rbind]. by rewrite IH.
  - exact IH.
Qed.

Lemma select_keep (l : list A) (k : list B) :
  (length l ≤ length k)%nat →
  select k (filter (fun ic => P ic.2) (Py.enumerate l)).*1
  = Ok (filter (fun xy => P xy.1) (zip l k)).*2.
Proof. intros Hlen. rewrite enumerate_from_0. by rewrite select_keep_from. Qed.

Lemma filter_zip_fst (l : list A) : ∀ (k : list B),
  (length l ≤ length k)%nat →
  (filter (fun xy => P xy.1) (zip l k)).*1 = filter P l.
Proof.
  induction l as [|x l IH]; intros [|y k] Hlen; simpl in *; [done|done|lia|].
  rewrite !filter_cons. cbn [fst]. destruct (decide (P x)).
  - rewrite fmap_cons. cbn [fst]. rewrite IH by lia. done.
  - apply IH. lia.
Qed.

Lemma keep_indices_nil (l : list A) :
  (filter (fun ic => P ic.2) (Py.enumerate l)).*1 = [] ↔ filter P l = [].
Proof.
  rewrite enumerate_from_0. generalize 0%nat.
  induction l as [|x l IH]; intros n; [done|].
  rewrite enumerate_from_cons, !filter_cons. cbn [snd].
  destruct (decide (P x)); [by rewrite fmap_cons|]. apply IH.
Qed.
End select.

Lemma filter_zip_self {A} (P : A → Prop) `{!∀ x, Decision (P x)} (l : list A) :
  (filter (fun xy => P xy.1) (zip l l)).*2 = filter P l.
Proof.
  induction l as [|x l IH]; [done|]. cbn [zip zip_with].
  rewrite !filter_cons. cbn [fst]. destruct (decide (P x)); [|done].
  rewrite fmap_cons. cbn [snd]. by rewrite IH.
Qed.

Lemma manifest_pop_lookup (m : Manifest) (R : gset string) f :
  set_fold (fun fname m => delete fname m) m R !! f
  = if decide (f ∈ R) then None else m !! f.
Proof.
  revert f.
  pose (Q := fun (r : Manifest) (Y : gset string) =>
               ∀ f, r !! f = if decide (f ∈ Y) then None else m !! f).
  apply (set_fold_ind_L Q); unfold Q; clear Q.
  - intros f. by rewrite decide_False by set_solver.
  - intros x Y r Hx IH f. destruct (decide (x = f)) as [->|Hne].
    + rewrite lookup_delete_eq. by rewrite decide_True by set_solver.
    + rewrite lookup_delete_ne, IH by done.
      destruct (decide (f ∈ Y)).
      * by rewrite decide_True by set_solver.
      * by rewrite decide_False by set_solver.
Qed.

Lemma select_raise {A} (l : list A) idxs e : select l idxs = Raise e → e = IndexError.
Proof.
  induction idxs as [|i idxs IH]; [done|]. cbn [select]. unfold getitem.
  destruct (l !! i); cbn [rbind]; [|by intros [= <-]].
  destruct (select l idxs); cbn [rbind]; [done|]. intros [= <-]. by apply IH.
Qed.

Section remove_files.
Context {Row : Type}.
Implicit Types (s : @HybridIndex.t Row) (R : gset string).

Lemma remove_files_raise R s e :
  HybridIndex.remove_files R s = Raise e → e = IndexError.
Proof.
  unfold HybridIndex.remove_files.
  destruct (select (HybridIndex.chunks s) _) eqn:E1; cbn [rbind];
    [|intros [= <-]; by eapply select_raise].
  destruct (HybridIndex.embeddings s) as [rows|];
    destruct (filter _ _).*1 as [|i idxs] eqn:E2; cbn [rbind]; try done.
  destruct (select rows (i :: idxs)) eqn:E3; cbn [rbind]; [done|].
  intros [= <-]. by eapply select_raise.
Qed.

Lemma remove_files_run R s :
  aligned s →
  ∃ s1,
    HybridIndex.remove_files R s = Ok s1 ∧
    zip (HybridIndex.chunks s1) (rows_of s1)
    = filter (fun cr => filename cr.1 ∉ R) (zip (HybridIndex.chunks s) (rows_of s)) ∧
    HybridIndex.chunks s1 = filter (fun c => filename c ∉ R) (HybridIndex.chunks s) ∧
    aligned s1 ∧
    (∀ f, HybridIndex.manifest s1 !! f
          = if decide (f ∈ R) then None else HybridIndex.manifest s !! f) ∧
    HybridIndex.bm25 s1 = HybridIndex.bm25 s.
Proof.
  unfold aligned, rows_of. intros Hal. unfold HybridIndex.remove_files.
  set (P := fun c : Chunk => filename c ∉ R).
  set (cs := HybridIndex.chunks s) in *.
  set (idxs := (filter _ (Py.enumerate cs)).*1).
  assert (select cs idxs = Ok (filter P cs)) as ->.
  { etrans; [exact (select_keep P cs cs (le_n _))|]. by rewrite filter_zip_self. }
  assert (idxs = [] ↔ filter P cs = []) as Hnil
    by exact (keep_indices_nil P cs).
  assert (∀ rows : list Row, (length cs ≤ length rows)%nat →
            select rows idxs = Ok (filter (fun cr => P cr.1) (zip cs rows)).*2) as Hsel.
  { intros rows Hlen. exact (select_keep P cs rows Hlen). }
  cbn [rbind].
  destruct (HybridIndex.embeddings s) as [rows|] eqn:Hrows; simpl in Hal.
  - destruct idxs as [|i idxs'] eqn:Hidx.
    + cbn [rbind]. eexists. split; [done|]. simpl.
      apply proj1 in Hnil. specialize (Hnil eq_refl). rewrite Hnil.
      split_and!; try done.
      * symmetry. apply fmap_nil_inv with (f := fst).
        etrans; [exact (filter_zip_fst P cs rows ltac:(lia))|done].
      * apply manifest_pop_lookup.
    + rewrite Hsel by lia. cbn [rbind].
      eexists. split; [done|]. simpl.
      assert ((filter (fun cr : Chunk * Row => P cr.1) (zip cs rows)).*1 = filter P cs)
        as Hfst by exact (filter_zip_fst P cs rows ltac:(lia)).
      rewrite <- Hfst.
      split_and!; try done.
      * apply zip_fst_snd.
      * by rewrite !length_fmap.
      * apply manifest_pop_lookup.
  - assert (cs = []) as Hcs by (by apply nil_length_inv).
    assert (idxs = []) as -> by (apply Hnil; by rewrite Hcs).
    cbn [rbind]. rewrite Hcs. eexists. split; [done|]. simpl.
    split_and!; try done. apply manifest_pop_lookup.
Qed.
End remove_files.

(** ** Adding the chunks of new and changed files *)

Lemma doc_chunks_filename docs_dir fname c :
  c ∈ doc_chunks docs_dir fname → filename c = fname.
Proof.
  unfold doc_chunks. destruct (docs_dir !! fname); [apply make_chunks_filename|].
  by intros ?%elem_of_nil.
Qed.

Section add_files.
Context (docs_dir : Folder).
Let cur := compute_file_hashes docs_dir.

Lemma add_file_run fname cs (m : Manifest) nt h :
  cur !! fname = Some h →
  HybridIndex.add_file docs_dir cur (cs, m, nt) fname
  = Ok (cs ++ doc_chunks docs_dir fname,
        <[fname := {| hash := h; chunk_start := length cs;
                      chunk_end := length (cs ++ doc_chunks docs_dir fname) |}]> m,
        nt ++ map text (doc_chunks docs_dir fname)).
Proof.
  unfold cur. rewrite compute_file_hashes_lookup. intros Hh.
  destruct (supported fname) eqn:Hs; [|done].
  unfold HybridIndex.add_file, doc_chunks.
  destruct (docs_dir !! fname) as [f|] eqn:Hf; [|done].
  rewrite load_document_supported by done. cbn [rbind].
  unfold getkey. rewrite compute_file_hashes_lookup, Hs, Hf. simpl in *.
  injection Hh as <-. by rewrite make_chunks_text.
Qed.

(** The chunks added for a list of files. *)
Lemma add_files_loop l : ∀ cs (m : Manifest) nt,
  NoDup l →
  (∀ f, f ∈ l → is_Some (cur !! f)) →
  ∃ m' : Manifest,
    foldlM (HybridIndex.add_file docs_dir cur) (cs, m, nt) l
    = Ok (cs ++ concat (map (doc_chunks docs_dir) l), m',
          nt ++ map text (concat (map (doc_chunks docs_dir) l))) ∧
    (∀ f, f ∉ l → m' !! f = m !! f) ∧
    (∀ f, f ∈ l →
          ∃ e, m' !! f = Some e ∧ cur !! f = Some (hash e) ∧
               chunk_end e = (chunk_start e + length (doc_chunks docs_dir f))%nat).
Proof.
  induction l as [|fname l IH]; intros cs m nt Hnd Hcur.
  - exists m. simpl. rewrite !app_nil_r. split; [done|]. split; [done|].
    intros f Hf. by apply elem_of_nil in Hf.
  - apply NoDup_cons in Hnd as [Hfname Hnd].
    destruct (Hcur fname) as [h Hh]; [by left|].
    cbn [foldlM]. rewrite (add_file_run _ _ _ _ h Hh). cbn [rbind].
    destruct (IH (cs ++ doc_chunks docs_dir fname)
                 (<[fname := {| hash := h; chunk_start := length cs;
                      chunk_end := length (cs ++ doc_chunks docs_dir fname) |}]> m)
                 (nt ++ map text (doc_chunks docs_dir fname)))
      as (m' & Hrun & Hsame & Hnew); [done|intros f Hf; apply Hcur; by right|].
    exists m'. split_and!.
    + rewrite Hrun. cbn [map concat]. rewrite map_app, <- !app_assoc. done.
    + intros f Hf. rewrite not_elem_of_cons in Hf. destruct Hf as [Hne Hf].
      rewrite Hsame by done. by rewrite lookup_insert_ne.
    + intros f [->|Hf]%elem_of_cons; [|by apply Hnew].
      rewrite Hsame, lookup_insert_eq by done. eexists. split; [done|].
      simpl. split; [done|]. by rewrite length_app.
Qed.
End add_files.

Lemma grouped_app_group cs g fname :
  grouped cs →
  (∀ c, c ∈ cs → filename c ≠ fname) →
  (∀ c, c ∈ g → filename c = fname) →
  grouped (cs ++ g).
Proof.
  intros Hg Hfresh Hname i j k f Hijk Hi Hk.
  pose proof (named_lt _ _ _ Hk) as Hklt. rewrite length_app in Hklt.
  assert (∀ n, (length cs ≤ n < length cs + length g)%nat → named (cs ++ g) n fname) as Hin.
  { intros n Hn. rewrite named_app_r by lia.
    destruct (lookup_lt_is_Some_2 g (n - length cs)) as [c Hc]; [lia|].
    unfold named. rewrite Hc. simpl. f_equal. apply Hname.
    by eapply list_elem_of_lookup_2. }
  destruct (decide (k < length cs)%nat) as [Hkcs|Hkcs].
  - rewrite named_app_l in Hi, Hk |- * by lia. by eapply (Hg i j k).
  - assert (f = fname) as ->.
    { specialize (Hin k ltac:(lia)). unfold named in Hin, Hk. congruence. }
    destruct (decide (i < length cs)%nat) as [Hics|Hics].
    + rewrite named_app_l in Hi by lia.
      destruct (named_elem _ _ _ Hi) as (c & Hc & Hcf). by destruct (Hfresh c Hc).
    + apply Hin. lia.
Qed.

Lemma grouped_app_docs docs_dir l : ∀ cs,
  grouped cs → NoDup l → (∀ c, c ∈ cs → filename c ∉ l) →
  grouped (cs ++ concat (map (doc_chunks docs_dir) l)).
Proof.
  induction l as [|fname l IH]; intros cs Hg Hnd Hfresh.
  - simpl. by rewrite app_nil_r.
  - apply NoDup_cons in Hnd as [Hfname Hnd].
    cbn [map concat]. rewrite app_assoc. apply IH; [|done|].
    + apply (grouped_app_group _ _ fname); [done| |apply doc_chunks_filename].
      intros c Hc Heq. apply (Hfresh c Hc). rewrite Heq. by left.
    + intros c [Hc|Hc]%elem_of_app.
      * intros Hin. apply (Hfresh c Hc). by right.
      * by rewrite (doc_chunks_filename _ _ _ Hc).
Qed.

Lemma grouped_cons_inv x cs : grouped (x :: cs) → grouped cs ∧ at_head cs (filename x).
Proof.
  intros Hg. split.
  - intros i j k f Hijk Hi Hk. apply (Hg (S i) (S j) (S k) f); [lia|done|done].
  - intros k Hk j Hj. apply (Hg 0%nat (S j) (S k) (filename x)); [lia|done|done].
Qed.

Lemma grouped_cons x cs : grouped cs → at_head cs (filename x) → grouped (x :: cs).
Proof.
  intros Hg Hh i j k f Hijk Hi Hk.
  destruct i as [|i].
  - unfold named in Hi. simpl in Hi. injection Hi as <-.
    destruct j as [|j]; [done|]. destruct k as [|k]; [lia|].
    apply (Hh k Hk j). lia.
  - destruct j as [|j]; [lia|]. destruct k as [|k]; [lia|].
    apply (Hg i j k f); [lia|done|done].
Qed.

Section grouped_filter.
Context (P : Chunk → Prop) `{!∀ c, Decision (P c)}.

Lemma at_head_filter cs f : at_head cs f → at_head (filter P cs) f.
Proof.
  induction cs as [|y cs IH]; intros Hh; [done|].
  assert (at_head cs f) as Hh'.
  { intros k Hk j Hj. apply (Hh (S k) Hk (S j)). lia. }
  rewrite filter_cons. destruct (decide (P y)); [|by apply IH].
  intros k Hk j Hj.
  assert (filename y = f) as Hy.
  { destruct (named_elem _ _ _ Hk) as (c & Hc & Hcf).
    assert (c ∈ y :: cs) as Hin.
    { apply elem_of_cons in Hc as [->|Hc]; [by left|].
      right. by apply list_elem_of_filter in Hc as [_ ?]. }
    apply list_elem_of_lookup_1 in Hin as [k' Hk'].
    assert (named (y :: cs) k' f) as Hn by (unfold named; by rewrite Hk', <- Hcf).
    specialize (Hh k' Hn 0%nat ltac:(lia)). unfold named in Hh. simpl in Hh. congruence. }
  destruct j as [|j]; [unfold named; simpl; by rewrite Hy|].
  destruct k as [|k]; [lia|].
  apply (IH Hh' k Hk j). lia.
Qed.

Lemma grouped_filter cs : grouped cs → grouped (filter P cs).
Proof.
  induction cs as [|x cs IH]; intros Hg; [done|].
  apply grouped_cons_inv in Hg as [Hg Hh].
  rewrite filter_cons. destruct (decide (P x)); [|by apply IH].
  apply grouped_cons; [by apply IH|by apply at_head_filter].
Qed.
End grouped_filter.

(** ** Recomputing the manifest ranges *)

Lemma named_snoc_l cs c j f : (j < length cs)%nat → named (cs ++ [c]) j f ↔ named cs j f.
Proof. apply named_app_l. Qed.

Lemma named_snoc_r cs c f : named (cs ++ [c]) (length cs) f ↔ filename c = f.
Proof.
  unfold named. rewrite lookup_app_r by lia. rewrite Nat.sub_diag. simpl.
  split; [by intros [= ?]|by intros ->].
Qed.

Lemma ranges_loop cs :
  ranges_inv cs (foldl HybridIndex.ranges_step ∅ (Py.enumerate cs)).
Proof.
  induction cs as [|c cs IH] using rev_ind.
  - intros f. simpl. rewrite lookup_empty. intros j Hj.
    apply named_lt in Hj. simpl in Hj. lia.
  - set (ranges := foldl HybridIndex.ranges_step ∅ (Py.enumerate cs)) in *.
    set (n := length cs).
    assert (foldl HybridIndex.ranges_step ∅ (Py.enumerate (cs ++ [c]))
            = HybridIndex.ranges_step ranges (n, c)) as ->.
    { unfold ranges, n, Py.enumerate. rewrite imap_app, foldl_app. simpl.
      by rewrite Nat.add_0_r. }
    cbn [HybridIndex.ranges_step].
    intros f. pose proof (IH f) as Hf. pose proof (IH (filename c)) as Hc.
    assert (∀ j g, named (cs ++ [c]) j g → named cs j g ∨ (j = n ∧ g = filename c)) as Hsplit.
    { intros j g Hj. pose proof (named_lt _ _ _ Hj) as Hlt.
      rewrite length_app in Hlt. simpl in Hlt.
      destruct (decide (j < n)%nat); [left; by apply named_snoc_l in Hj|].
      right. assert (j = n) as -> by (unfold n; lia).
      by apply named_snoc_r in Hj. }
    destruct (decide (f = filename c)) as [->|Hne].
    + destruct (ranges !! filename c) as [[s e]|] eqn:Hr.
      * rewrite lookup_insert_eq. destruct Hc as (Hse & Hs & He & Hall).
        rewrite length_app. simpl. fold n. split_and!; try lia.
        -- apply named_snoc_l; [lia|done].
        -- replace (n + 1 - 1)%nat with n by lia. by apply named_snoc_r.
        -- intros j [Hj|[-> _]]%Hsplit; [|lia]. specialize (Hall j Hj). lia.
      * rewrite lookup_insert_eq. rewrite length_app. simpl. fold n. split_and!; try lia.
        -- by apply named_snoc_r.
        -- replace (n + 1 - 1)%nat with n by lia. by apply named_snoc_r.
        -- intros j [Hj|[-> _]]%Hsplit; [by destruct (Hc j)|lia].
    + assert ((match ranges !! filename c with
               | Some (start, _) => <[filename c := (start, (n + 1)%nat)]> ranges
               | None => <[filename c := (n, (n + 1)%nat)]> ranges
               end) !! f = ranges !! f) as ->.
      { destruct (ranges !! filename c) as [[? ?]|]; by rewrite lookup_insert_ne. }
      destruct (ranges !! f) as [[s e]|].
      * destruct Hf as (Hse & Hs & He & Hall). rewrite length_app. simpl.
        split_and!; try lia.
        -- apply named_snoc_l; [lia|done].
        -- apply named_snoc_l; [lia|done].
        -- intros j [Hj|[_ ?]]%Hsplit; [by apply Hall|done].
      * intros j [Hj|[_ ?]]%Hsplit; [by apply (Hf j)|done].
Qed.

Lemma set_ranges_lookup (m : Manifest) (ranges : gmap string (nat * nat)) f :
  map_fold HybridIndex.set_range m ranges !! f
  = match m !! f with
    | Some e =>
        Some (match ranges !! f with
              | Some r => {| hash := hash e; chunk_start := r.1; chunk_end := r.2 |}
              | None => e
              end)
    | None => None
    end.
Proof.
  revert f.
  pose (Q := fun (r : Manifest) (rs : gmap string (nat * nat)) =>
    ∀ f, r !! f = match m !! f with
                  | Some e =>
                      Some (match rs !! f with
                            | Some r => {| hash := hash e; chunk_start := r.1;
                                           chunk_end := r.2 |}
                            | None => e
                            end)
                  | None => None
                  end).
  apply (map_fold_weak_ind Q); unfold Q; clear Q.
  - intros f. rewrite lookup_empty. by destruct (m !! f).
  - intros i x rs r Hi IH f. unfold HybridIndex.set_range.
    destruct (decide (i = f)) as [->|Hne].
    + rewrite lookup_insert_eq. pose proof (IH f) as Hf. rewrite Hi in Hf.
      destruct (m !! f) as [e|]; rewrite Hf; [|done].
      by rewrite lookup_insert_eq.
    + rewrite (lookup_insert_ne rs) by done.
      destruct (r !! i); [rewrite lookup_insert_ne by done|]; apply IH.
Qed.

(** With contiguous files, the recomputed ranges are exact; an entry whose
    file has no chunk keeps its range, which has to be empty. *)
Lemma rebuild_exact {Row} (s : @HybridIndex.t Row) :
  grouped (HybridIndex.chunks s) →
  (∀ f e, HybridIndex.manifest s !! f = Some e →
          (∀ j, ¬ named (HybridIndex.chunks s) j f) →
          (chunk_end e ≤ chunk_start e)%nat) →
  ranges_exact (HybridIndex.chunks s)
    (HybridIndex.manifest (HybridIndex._rebuild_manifest_ranges s)).
Proof.
  intros Hg Hempty f e He j. unfold HybridIndex._rebuild_manifest_ranges in He.
  simpl in He. rewrite set_ranges_lookup in He.
  destruct (HybridIndex.manifest s !! f) as [e0|] eqn:He0; [|done].
  pose proof (ranges_loop (HybridIndex.chunks s) f) as Hr.
  destruct (foldl _ _ _ !! f) as [[st en]|].
  - injection He as <-. simpl. destruct Hr as (Hse & Hs & Hen & Hall). split.
    + intros Hj. apply (Hg st j (en - 1)%nat f); [lia|done|done].
    + apply Hall.
  - injection He as <-. specialize (Hempty f e0 He0 Hr). split; [lia|].
    intros Hj. by destruct (Hr j).
Qed.

(** ** Incremental update *)

Section reindex.
Context {Row : Type} (embed_text : string → Row).
Implicit Types (s : @HybridIndex.t Row) (w : @HybridIndex.World Row)
  (docs_dir : Folder) (R A : gset string).

(** [reindex] after the change detection. *)
Lemma reindex_eq docs_dir w needs added changed removed :
  HybridIndex.needs_reindex docs_dir w = Ok ((needs, added, changed, removed), w) →
  HybridIndex.reindex embed_text docs_dir w
  = if negb needs then Ok (tt, w)
    else
      match remove_step (list_to_set removed ∪ list_to_set changed) (HybridIndex.self w) with
      | Raise e => Raise e
      | Ok s1 =>
          match add_step embed_text docs_dir (list_to_set added ∪ list_to_set changed) s1 with
          | Raise e => Raise e
          | Ok s2 =>
              let s' := HybridIndex._rebuild_manifest_ranges (refit s2) in
              Ok (tt, {| HybridIndex.self := s';
                         HybridIndex.index_dir := saved s' (HybridIndex.index_dir w) |})
          end
      end.
Proof.
  intros Hrun. unfold HybridIndex.reindex. unfold HybridIndex.bind at 1.
  rewrite Hrun. destruct needs; [|done]. cbn [negb].
  unfold HybridIndex.bind, HybridIndex.get_self, HybridIndex.lift, remove_step, add_step.
  destruct (if bool_decide _ then _ else HybridIndex.remove_files _ _) as [s1|e]; [|done].
  destruct (if bool_decide _ then _ else HybridIndex.add_files _ _ _ _) as [s2|e]; [|done].
  done.
Qed.
Lemma filter_all {B} (P : B → Prop) `{!∀ x, Decision (P x)} (l : list B) :
  (∀ x, x ∈ l → P x) → filter P l = l.
Proof.
  induction l as [|x l IH]; intros Hall; [done|].
  rewrite filter_cons_True by (apply Hall; by left).
  f_equal. apply IH. intros y Hy. apply Hall. by right.
Qed.

Lemma remove_step_inv R s s1 :
  remove_step R s = Ok s1 →
  HybridIndex.chunks s1 = filter (fun c => filename c ∉ R) (HybridIndex.chunks s) ∧
  (∀ f, HybridIndex.manifest s1 !! f
        = if decide (f ∈ R) then None else HybridIndex.manifest s !! f) ∧
  HybridIndex.bm25 s1 = HybridIndex.bm25 s.
Proof.
  unfold remove_step. case_bool_decide as HR.
  - intros [= <-]. subst R. split_and!; [|done|done].
    symmetry. apply filter_all. set_solver.
  - unfold HybridIndex.remove_files.
    set (P := fun c : Chunk => filename c ∉ R).
    set (cs := HybridIndex.chunks s).
    set (idxs := (filter _ (Py.enumerate cs)).*1).
    assert (select cs idxs = Ok (filter P cs)) as ->.
    { etrans; [exact (select_keep P cs cs (le_n _))|]. by rewrite filter_zip_self. }
    cbn [rbind].
    destruct (match HybridIndex.embeddings s with
              | Some rows => _ | None => _ end) as [embs|e]; cbn [rbind]; [|done].
    intros [= <-]. simpl. split_and!; [done| |done].
    apply manifest_pop_lookup.
Qed.

Lemma remove_step_run R s :
  aligned s →
  ∃ s1,
    remove_step R s = Ok s1 ∧
    zip (HybridIndex.chunks s1) (rows_of s1)
    = filter (fun cr => filename cr.1 ∉ R) (zip (HybridIndex.chunks s) (rows_of s)) ∧
    aligned s1.
Proof.
  intros Hal. unfold remove_step. case_bool_decide as HR.
  - exists s. split; [done|]. split; [|done]. subst R.
    symmetry. apply filter_all. set_solver.
  - destruct (remove_files_run R s Hal) as (s1 & Hrun & Hzip & _ & Hal1 & _).
    by exists s1.
Qed.

Lemma new_chunks_empty docs_dir : new_chunks docs_dir ∅ = [].
Proof. unfold new_chunks. by rewrite elements_empty. Qed.

Lemma add_step_run docs_dir A s :
  (∀ f, f ∈ A → is_Some (compute_file_hashes docs_dir !! f)) →
  ∃ s2,
    add_step embed_text docs_dir A s = Ok s2 ∧
    HybridIndex.chunks s2 = HybridIndex.chunks s ++ new_chunks docs_dir A ∧
    rows_of s2
    = rows_of s ++ HybridIndex.embed embed_text (map text (new_chunks docs_dir A)) ∧
    HybridIndex.bm25 s2 = HybridIndex.bm25 s ∧
    (∀ f, f ∉ A → HybridIndex.manifest s2 !! f = HybridIndex.manifest s !! f) ∧
    (∀ f, f ∈ A →
          ∃ e, HybridIndex.manifest s2 !! f = Some e ∧
               compute_file_hashes docs_dir !! f = Some (hash e) ∧
               chunk_end e = (chunk_start e + length (doc_chunks docs_dir f))%nat).
Proof.
  intros Hcur. unfold add_step. case_bool_decide as HA.
  - exists s. subst A. rewrite new_chunks_empty. simpl. rewrite !app_nil_r.
    split_and!; try done.
  - unfold HybridIndex.add_files.
    destruct (add_files_loop docs_dir (Py.sorted_str (elements A))
                (HybridIndex.chunks s) (HybridIndex.manifest s) [])
      as (m' & Hrun & Hsame & Hnew).
    { apply NoDup_sorted_str, NoDup_elements. }
    { intros f Hf. apply Hcur. by rewrite elem_of_sorted_str, elem_of_elements in Hf. }
    rewrite Hrun. cbn [rbind]. eexists. split; [done|]. simpl.
    fold (new_chunks docs_dir A). split_and!; try done.
    + unfold rows_of. simpl. destruct (HybridIndex.embeddings s) as [rows|]; simpl; [|done].
      destruct rows; done.
    + intros f Hf. apply Hsame. by rewrite elem_of_sorted_str, elem_of_elements.
    + intros f Hf. apply Hnew. by rewrite elem_of_sorted_str, elem_of_elements.
Qed.
End reindex.

Lemma elem_of_concat {B} (x : B) (ls : list (list B)) :
  x ∈ concat ls ↔ ∃ l, l ∈ ls ∧ x ∈ l.
Proof.
  induction ls as [|l ls IH]; simpl.
  - rewrite elem_of_nil. split; [done|]. by intros (? & ?%elem_of_nil & _).
  - rewrite elem_of_app, IH. split.
    + intros [H|(l' & Hl' & Hx)]; [exists l; split; [by left|done]|].
      exists l'. split; [by right|done].
    + intros (l' & [->|Hl']%elem_of_cons & Hx); [by left|]. right. by exists l'.
Qed.

Lemma elem_of_new_chunks docs_dir (A : gset string) c :
  c ∈ new_chunks docs_dir A ↔ ∃ f, f ∈ A ∧ c ∈ doc_chunks docs_dir f.
Proof.
  unfold new_chunks. rewrite elem_of_concat. split.
  - intros (l & Hl & Hc). change (map ?f ?l) with (f <$> l) in Hl.
    apply list_elem_of_fmap in Hl as (f & -> & Hf).
    rewrite elem_of_sorted_str, elem_of_elements in Hf. by exists f.
  - intros (f & Hf & Hc). exists (doc_chunks docs_dir f). split; [|done].
    change (map ?f ?l) with (f <$> l).
    apply list_elem_of_fmap. exists f. split; [done|].
    by rewrite elem_of_sorted_str, elem_of_elements.
Qed.

Lemma new_chunks_filename docs_dir (A : gset string) c :
  c ∈ new_chunks docs_dir A → filename c ∈ A.
Proof.
  intros (f & Hf & Hc)%elem_of_new_chunks.
  by rewrite (doc_chunks_filename _ _ _ Hc).
Qed.

Section reindex_run.
Context {Row : Type} (embed_text : string → Row).
Context (docs_dir : Folder) (w : @HybridIndex.World Row).
Context (added changed removed : list string).
Let s := HybridIndex.self w.
Let cur := compute_file_hashes docs_dir.
Let R : gset string := list_to_set removed ∪ list_to_set changed.
Let A : gset string := list_to_set added ∪ list_to_set changed.

Hypothesis Hrun :
  HybridIndex.needs_reindex docs_dir w = Ok ((true, added, changed, removed), w).
Hypothesis Hadded : ∀ f, f ∈ added ↔
  is_Some (cur !! f) ∧ HybridIndex.manifest s !! f = None.
Hypothesis Hremoved : ∀ f, f ∈ removed ↔
  is_Some (HybridIndex.manifest s !! f) ∧ cur !! f = None.
Hypothesis Hchanged : ∀ f, f ∈ changed ↔
  ∃ h e, cur !! f = Some h ∧ HybridIndex.manifest s !! f = Some e ∧ h ≠ hash e.

Lemma files_to_add_hashed f : f ∈ A → is_Some (cur !! f).
Proof.
  unfold A. rewrite elem_of_union, !elem_of_list_to_set, Hadded, Hchanged.
  intros [[? _]|(h & e & -> & _)]; [done|by eexists].
Qed.

Lemma files_to_remove_known f : f ∈ R → is_Some (HybridIndex.manifest s !! f).
Proof.
  unfold R. rewrite elem_of_union, !elem_of_list_to_set, Hremoved, Hchanged.
  intros [[? _]|(h & e & _ & -> & _)]; [done|by eexists].
Qed.

Lemma known_added_removed f :
  is_Some (HybridIndex.manifest s !! f) → f ∈ A → f ∈ R.
Proof.
  unfold A, R. rewrite !elem_of_union, !elem_of_list_to_set, Hadded.
  intros [e He] [[_ Hn]|?]; [congruence|by right].
Qed.

(** The state [reindex] reaches once the removal block has returned. *)
Lemma reindex_after_remove s1 :
  remove_step R s = Ok s1 →
  ∃ w',
    HybridIndex.reindex embed_text docs_dir w = Ok (tt, w') ∧
    HybridIndex.chunks (HybridIndex.self w')
    = filter (fun c => filename c ∉ R) (HybridIndex.chunks s) ++ new_chunks docs_dir A ∧
    rows_of (HybridIndex.self w')
    = rows_of s1 ++ HybridIndex.embed embed_text (map text (new_chunks docs_dir A)) ∧
    HybridIndex.bm25 (HybridIndex.self w')
    = BM25.fit (HybridIndex.bm25 s) (map text (HybridIndex.chunks (HybridIndex.self w'))) ∧
    HybridIndex.index_dir w' = saved (HybridIndex.self w') (HybridIndex.index_dir w) ∧
    (∃ s2, HybridIndex.self w' = HybridIndex._rebuild_manifest_ranges (refit s2) ∧
           (∀ f, f ∉ A → HybridIndex.manifest s2 !! f
                         = if decide (f ∈ R) then None else HybridIndex.manifest s !! f) ∧
           (∀ f, f ∈ A →
                 ∃ e, HybridIndex.manifest s2 !! f = Some e ∧
                      cur !! f = Some (hash e) ∧
                      chunk_end e = (chunk_start e + length (doc_chunks docs_dir f))%nat)).
Proof.
  intros Hs1. destruct (remove_step_inv R s s1 Hs1) as (Hcs1 & Hm1 & Hb1).
  destruct (add_step_run embed_text docs_dir A s1 files_to_add_hashed)
    as (s2 & Hs2 & Hcs2 & Hrows2 & Hb2 & Hm2 & Hm2').
  rewrite (reindex_eq embed_text docs_dir w true added changed removed Hrun).
  cbn [negb]. fold s R A. rewrite Hs1, Hs2. eexists. split; [done|].
  simpl. split_and!.
  - by rewrite Hcs2, Hcs1.
  - done.
  - by rewrite Hb2, Hb1.
  - done.
  - exists s2. split; [done|]. split; [|done].
    intros f Hf. by rewrite Hm2, Hm1.
Qed.
End reindex_run.

Lemma rebuild_hash {Row} (s : @HybridIndex.t Row) f :
  hash <$> HybridIndex.manifest (HybridIndex._rebuild_manifest_ranges s) !! f
  = hash <$> HybridIndex.manifest s !! f.
Proof.
  unfold HybridIndex._rebuild_manifest_ranges. simpl. rewrite set_ranges_lookup.
  destruct (HybridIndex.manifest s !! f) as [e|]; [|done]. simpl.
  by destruct (_ !! f).
Qed.

Section reindex_manifest.
Context {Row : Type} (embed_text : string → Row).
Context (docs_dir : Folder) (w w' : @HybridIndex.World Row).
Context (added changed removed : list string).
Let s := HybridIndex.self w.
Let cur := compute_file_hashes docs_dir.
Let R : gset string := list_to_set removed ∪ list_to_set changed.
Let A : gset string := list_to_set added ∪ list_to_set changed.

Hypothesis Hrun :
  HybridIndex.needs_reindex docs_dir w = Ok ((true, added, changed, removed), w).
Hypothesis Hadded : ∀ f, f ∈ added ↔
  is_Some (cur !! f) ∧ HybridIndex.manifest s !! f = None.
Hypothesis Hremoved : ∀ f, f ∈ removed ↔
  is_Some (HybridIndex.manifest s !! f) ∧ cur !! f = None.
Hypothesis Hchanged : ∀ f, f ∈ changed ↔
  ∃ h e, cur !! f = Some h ∧ HybridIndex.manifest s !! f = Some e ∧ h ≠ hash e.
Hypothesis Hreindex : HybridIndex.reindex embed_text docs_dir w = Ok (tt, w').

Lemma reindex_removed_ok : ∃ s1, remove_step R s = Ok s1.
Proof.
  rewrite (reindex_eq embed_text docs_dir w true added changed removed Hrun) in Hreindex.
  cbn [negb] in Hreindex. fold s R in Hreindex.
  destruct (remove_step R s) as [s1|e]; [by exists s1|done].
Qed.

(** The hashes of the manifest after a [reindex] that found changes. *)
Lemma reindex_manifest_hash f :
  hash <$> HybridIndex.manifest (HybridIndex.self w') !! f
  = if decide (f ∈ A) then cur !! f
    else if decide (f ∈ R) then None
    else hash <$> HybridIndex.manifest s !! f.
Proof.
  destruct reindex_removed_ok as [s1 Hs1].
  destruct (reindex_after_remove embed_text docs_dir w added changed removed
              Hrun Hadded Hchanged s1 Hs1)
    as (w'' & Hre & _ & _ & _ & _ & s2 & Hself & HmA & HmA').
  rewrite Hreindex in Hre. injection Hre as <-.
  rewrite Hself, rebuild_hash. unfold refit. simpl.
  fold A R cur s in HmA, HmA'.
  destruct (decide (f ∈ A)) as [HA|HA].
  - destruct (HmA' f HA) as (e & -> & -> & _). done.
  - rewrite (HmA f HA). by destruct (decide (f ∈ R)).
Qed.

(** Afterwards the manifest agrees with the folder. *)
Lemma reindex_manifest_current :
  (∀ f, is_Some (cur !! f) ↔ is_Some (HybridIndex.manifest (HybridIndex.self w') !! f)) ∧
  (∀ f h e, cur !! f = Some h →
            HybridIndex.manifest (HybridIndex.self w') !! f = Some e → h = hash e).
Proof.
  assert (∀ f, f ∈ A ↔ f ∈ added ∨ f ∈ changed) as HAiff.
  { intros f. unfold A. by rewrite elem_of_union, !elem_of_list_to_set. }
  assert (∀ f, f ∈ R ↔ f ∈ removed ∨ f ∈ changed) as HRiff.
  { intros f. unfold R. by rewrite elem_of_union, !elem_of_list_to_set. }
  assert (∀ f, hash <$> HybridIndex.manifest (HybridIndex.self w') !! f = cur !! f) as Hall.
  { intros f. rewrite reindex_manifest_hash.
    destruct (decide (f ∈ A)) as [HA|HA]; [done|].
    rewrite HAiff, Hadded, Hchanged in HA.
    destruct (decide (f ∈ R)) as [HR|HR].
    - rewrite HRiff, Hremoved, Hchanged in HR.
      destruct HR as [[_ ?]|?]; [done|]. destruct HA. by right.
    - rewrite HRiff, Hremoved, Hchanged in HR.
      destruct (HybridIndex.manifest s !! f) as [e|] eqn:He,
               (cur !! f) as [h|] eqn:Hh; simpl; try done.
      + f_equal. destruct (decide (h = hash e)) as [->|Hne]; [done|].
        destruct HA. right. by exists h, e.
      + destruct HR. left. split; [by eexists|done].
      + destruct HA. left. split; [by eexists|done]. }
  split.
  - intros f. rewrite <- Hall. by rewrite fmap_is_Some.
  - intros f h e Hh He. specialize (Hall f). rewrite He, Hh in Hall. simpl in Hall.
    congruence.
Qed.
End reindex_manifest.

(** C7.  If a [reindex] over a folder completes, a second [reindex] over
    the same folder changes nothing: it returns in the state the first one
    left, with the same chunk list, manifest, embedding matrix, BM25 model
    and index directory. *)
Theorem reindex_idempotent {Row : Type} (embed_text : string → Row)
    (docs_dir : Folder) (w w1 : @HybridIndex.World Row) :
  HybridIndex.reindex embed_text docs_dir w = Ok (tt, w1) →
  HybridIndex.reindex embed_text docs_dir w1 = Ok (tt, w1).
Proof.
  intros Hre.
  destruct (needs_reindex_run docs_dir w)
    as (needs & added & changed & removed & Hrun & Ha & Hr & Hc & Hneeds & _).
  destruct needs.
  - destruct (reindex_manifest_current embed_text docs_dir w w1 added changed removed
                Hrun Ha Hr Hc Hre) as [Hdom Hhash].
    destruct (needs_reindex_run docs_dir w1)
      as (needs' & added' & changed' & removed' & Hrun' & Ha' & Hr' & Hc' & Hneeds' & _).
    assert (added' = []) as ->.
    { apply elem_of_nil_inv. intros f [Hcur Hm]%Ha'. apply Hdom in Hcur.
      rewrite Hm in Hcur. by destruct Hcur. }
    assert (removed' = []) as ->.
    { apply elem_of_nil_inv. intros f [Hm Hcur]%Hr'. apply Hdom in Hm.
      rewrite Hcur in Hm. by destruct Hm. }
    assert (changed' = []) as ->.
    { apply elem_of_nil_inv. intros f (h & e & Hh & He & Hne)%Hc'.
      destruct Hne. by eapply Hhash. }
    assert (needs' = false) as -> by (by apply Hneeds').
    by rewrite (reindex_eq embed_text docs_dir w1 false [] [] [] Hrun').
  - rewrite (reindex_eq embed_text docs_dir w false added changed removed Hrun) in Hre.
    cbn [negb] in Hre. injection Hre as <-.
    by rewrite (reindex_eq embed_text docs_dir w false added changed removed Hrun).
Qed.

(** ** The state after [reindex] *)

Lemma elem_of_kept (R : gset string) (cs : list Chunk) c :
  c ∈ filter (fun c => filename c ∉ R) cs ↔ filename c ∉ R ∧ c ∈ cs.
Proof. exact (list_elem_of_filter (fun c => filename c ∉ R) cs c). Qed.

Section reindex_wf.
Context {Row : Type} (embed_text : string → Row).
Context (docs_dir : Folder) (w : @HybridIndex.World Row).
Context (added changed removed : list string).
Let s := HybridIndex.self w.
Let cur := compute_file_hashes docs_dir.
Let R : gset string := list_to_set removed ∪ list_to_set changed.
Let A : gset string := list_to_set added ∪ list_to_set changed.

Hypothesis Hrun :
  HybridIndex.needs_reindex docs_dir w = Ok ((true, added, changed, removed), w).
Hypothesis Hadded : ∀ f, f ∈ added ↔
  is_Some (cur !! f) ∧ HybridIndex.manifest s !! f = None.
Hypothesis Hremoved : ∀ f, f ∈ removed ↔
  is_Some (HybridIndex.manifest s !! f) ∧ cur !! f = None.
Hypothesis Hchanged : ∀ f, f ∈ changed ↔
  ∃ h e, cur !! f = Some h ∧ HybridIndex.manifest s !! f = Some e ∧ h ≠ hash e.
Hypothesis Hwf : wf s.

(** No kept chunk belongs to a file that is about to be added. *)
Lemma kept_not_added c :
  c ∈ filter (fun c => filename c ∉ R) (HybridIndex.chunks s) → filename c ∉ A.
Proof.
  destruct Hwf as (_ & Hknown & _).
  intros [HR Hc]%elem_of_kept HA. apply HR.
  apply (known_added_removed docs_dir w added changed removed Hadded (filename c));
    [by apply Hknown|done].
Qed.

Lemma reindex_wf_run :
  ∃ w',
    HybridIndex.reindex embed_text docs_dir w = Ok (tt, w') ∧
    HybridIndex.chunks (HybridIndex.self w')
    = filter (fun c => filename c ∉ R) (HybridIndex.chunks s) ++ new_chunks docs_dir A ∧
    zip (HybridIndex.chunks (HybridIndex.self w')) (rows_of (HybridIndex.self w'))
    = filter (fun cr => filename cr.1 ∉ R) (zip (HybridIndex.chunks s) (rows_of s))
      ++ zip (new_chunks docs_dir A)
             (HybridIndex.embed embed_text (map text (new_chunks docs_dir A))) ∧
    wf (HybridIndex.self w').
Proof.
  destruct Hwf as (Hal & Hknown & Hexact).
  destruct (remove_step_run R s Hal) as (s1 & Hs1 & Hzip1 & Hal1).
  destruct (remove_step_inv R s s1 Hs1) as (Hcs1 & _ & _).
  destruct (reindex_after_remove embed_text docs_dir w added changed removed
              Hrun Hadded Hchanged s1 Hs1)
    as (w' & Hre & Hcs' & Hrows' & _ & _ & s2 & Hself & HmA & HmA').
  fold s R A cur in Hcs', Hrows', HmA, HmA'.
  exists w'. split; [exact Hre|]. split; [exact Hcs'|].
  assert (length (filter (fun c => filename c ∉ R) (HybridIndex.chunks s))
          = length (rows_of s1)) as Hlen.
  { rewrite <- Hcs1. symmetry. exact Hal1. }
  split; [|split; [|split]].
  - rewrite Hcs', Hrows'. rewrite (zip_with_app _ _ _ _ _ Hlen).
    f_equal. by rewrite <- Hcs1.
  - unfold aligned. rewrite Hcs', Hrows', !length_app, Hlen.
    unfold HybridIndex.embed. by rewrite !length_map.
  - (* every chunk belongs to a file of the manifest *)
    intros c Hc. apply fmap_is_Some with (f := hash).
    rewrite Hself, rebuild_hash. simpl. apply fmap_is_Some.
    rewrite Hcs' in Hc. apply elem_of_app in Hc as [Hc|Hc].
    + pose proof (kept_not_added c Hc) as HA. rewrite (HmA _ HA).
      apply elem_of_kept in Hc as [HR Hc]. rewrite decide_False by done.
      by apply Hknown.
    + apply new_chunks_filename in Hc. destruct (HmA' _ Hc) as (e & -> & _). by eexists.
  - (* the ranges are exact *)
    assert (HybridIndex.chunks (HybridIndex.self w') = HybridIndex.chunks (refit s2)) as Hcs2.
    { by rewrite Hself. }
    rewrite Hself. change (HybridIndex.chunks (HybridIndex._rebuild_manifest_ranges (refit s2)))
      with (HybridIndex.chunks (refit s2)).
    apply rebuild_exact.
    + rewrite <- Hcs2, Hcs'. apply grouped_app_docs.
      * apply (grouped_filter (fun c => filename c ∉ R)).
        by apply (ranges_exact_grouped _ (HybridIndex.manifest s)).
      * apply NoDup_sorted_str, NoDup_elements.
      * intros c Hc. rewrite elem_of_sorted_str, elem_of_elements.
        by apply kept_not_added.
    + intros f e He Hnone. rewrite <- Hcs2, Hcs' in Hnone. simpl in He.
      destruct (decide (f ∈ A)) as [HA|HA].
      * destruct (HmA' f HA) as (e' & He' & _ & Hend). rewrite He in He'.
        injection He' as <-.
        destruct (doc_chunks docs_dir f) as [|c l] eqn:Hdoc; [simpl in Hend; lia|].
        assert (c ∈ filter (fun c => filename c ∉ R) (HybridIndex.chunks s)
                    ++ new_chunks docs_dir A) as Hc.
        { apply elem_of_app. right. apply elem_of_new_chunks. exists f.
          split; [done|]. rewrite Hdoc. by left. }
        apply elem_named in Hc as [j Hj].
        assert (filename c = f) as Hcf.
        { apply (doc_chunks_filename docs_dir). rewrite Hdoc. by left. }
        rewrite Hcf in Hj. by destruct (Hnone j).
      * rewrite (HmA f HA) in He. destruct (decide (f ∈ R)) as [HR|HR]; [done|].
        destruct (decide (chunk_end e ≤ chunk_start e)%nat) as [|Hlt]; [done|].
        assert (named (HybridIndex.chunks s) (chunk_start e) f) as Hn.
        { apply (Hexact f e He). lia. }
        destruct (named_elem _ _ _ Hn) as (c & Hc & Hcf).
        assert (c ∈ filter (fun c => filename c ∉ R) (HybridIndex.chunks s)
                    ++ new_chunks docs_dir A) as Hc'.
        { apply elem_of_app. left. apply elem_of_kept. by rewrite Hcf. }
        apply elem_named in Hc' as [j Hj]. rewrite Hcf in Hj. by destruct (Hnone j).
Qed.
End reindex_wf.

Lemma filter_none {B} (P : B → Prop) `{!∀ x, Decision (P x)} (l : list B) :
  (∀ x, x ∈ l → ¬ P x) → filter P l = [].
Proof.
  induction l as [|x l IH]; intros Hall; [done|].
  rewrite filter_cons_False by (apply Hall; by left).
  apply IH. intros y Hy. apply Hall. by right.
Qed.

Lemma filter_docs docs_dir f l :
  NoDup l → f ∈ l →
  filter (fun c => filename c = f) (concat (map (doc_chunks docs_dir) l))
  = doc_chunks docs_dir f.
Proof.
  induction l as [|g l IH]; intros Hnd Hf; [by apply elem_of_nil in Hf|].
  apply NoDup_cons in Hnd as [Hg Hnd]. cbn [map concat]. rewrite filter_app.
  destruct (decide (g = f)) as [->|Hne].
  - rewrite filter_all by (intros c Hc; by apply (doc_chunks_filename docs_dir)).
    rewrite filter_none; [by rewrite app_nil_r|].
    intros c Hc Hcf. apply elem_of_concat in Hc as (l' & Hl' & Hc).
    change (map ?h ?k) with (h <$> k) in Hl'.
    apply list_elem_of_fmap in Hl' as (g & -> & Hgl).
    apply doc_chunks_filename in Hc. congruence.
  - rewrite filter_none.
    + apply IH; [done|]. apply elem_of_cons in Hf as [?|?]; [congruence|done].
    + intros c Hc Hcf. apply doc_chunks_filename in Hc. congruence.
Qed.

(** In a consistent index the manifest ranges partition the positions. *)
Lemma wf_partition {Row} (s : @HybridIndex.t Row) :
  wf s →
  (∀ j, (j < length (HybridIndex.chunks s))%nat →
        ∃ f e, HybridIndex.manifest s !! f = Some e ∧
               (chunk_start e ≤ j < chunk_end e)%nat) ∧
  (∀ f e f' e' j,
     HybridIndex.manifest s !! f = Some e → HybridIndex.manifest s !! f' = Some e' →
     (chunk_start e ≤ j < chunk_end e)%nat → (chunk_start e' ≤ j < chunk_end e')%nat →
     f = f') ∧
  (∀ f e j, HybridIndex.manifest s !! f = Some e →
            (chunk_start e ≤ j < chunk_end e)%nat →
            (j < length (HybridIndex.chunks s))%nat).
Proof.
  intros (_ & Hknown & Hexact). split_and!.
  - intros j Hj. destruct (lookup_lt_is_Some_2 _ _ Hj) as [c Hc].
    destruct (Hknown c) as [e He]; [by eapply list_elem_of_lookup_2|].
    exists (filename c), e. split; [done|]. apply (Hexact _ _ He).
    unfold named. by rewrite Hc.
  - intros f e f' e' j He He' Hj Hj'.
    apply (Hexact _ _ He) in Hj. apply (Hexact _ _ He') in Hj'.
    unfold named in Hj, Hj'. congruence.
  - intros f e j He Hj. apply (Hexact _ _ He) in Hj. by eapply named_lt.
Qed.

(** C3, as amended.  On a consistent index [reindex] returns, and then:
    no chunk of a removed file remains; the chunks of every changed or
    added file are exactly the chunks of its current text; every chunk of
    an untouched file is still there with its text and its embedding row;
    and the ranges of the manifest partition the chunk positions, each
    range being the positions of the chunks of its file. *)
Theorem reindex_postcondition {Row : Type} (embed_text : string → Row)
    (docs_dir : Folder) (w : @HybridIndex.World Row) :
  wf (HybridIndex.self w) →
  ∃ needs added changed removed w',
    HybridIndex.needs_reindex docs_dir w = Ok ((needs, added, changed, removed), w) ∧
    HybridIndex.reindex embed_text docs_dir w = Ok (tt, w') ∧
    (∀ f c, f ∈ removed → c ∈ HybridIndex.chunks (HybridIndex.self w') → filename c ≠ f) ∧
    (∀ f, f ∈ changed ∨ f ∈ added →
          filter (fun c => filename c = f) (HybridIndex.chunks (HybridIndex.self w'))
          = doc_chunks docs_dir f) ∧
    (∀ i c r,
       HybridIndex.chunks (HybridIndex.self w) !! i = Some c →
       rows_of (HybridIndex.self w) !! i = Some r →
       filename c ∉ changed → filename c ∉ removed →
       ∃ j, HybridIndex.chunks (HybridIndex.self w') !! j = Some c ∧
            rows_of (HybridIndex.self w') !! j = Some r) ∧
    ranges_exact (HybridIndex.chunks (HybridIndex.self w'))
                 (HybridIndex.manifest (HybridIndex.self w')) ∧
    (∀ j, (j < length (HybridIndex.chunks (HybridIndex.self w')))%nat →
          ∃ f e, HybridIndex.manifest (HybridIndex.self w') !! f = Some e ∧
                 (chunk_start e ≤ j < chunk_end e)%nat) ∧
    (∀ f e f' e' j,
       HybridIndex.manifest (HybridIndex.self w') !! f = Some e →
       HybridIndex.manifest (HybridIndex.self w') !! f' = Some e' →
       (chunk_start e ≤ j < chunk_end e)%nat → (chunk_start e' ≤ j < chunk_end e')%nat →
       f = f') ∧
    (∀ f e j, HybridIndex.manifest (HybridIndex.self w') !! f = Some e →
              (chunk_start e ≤ j < chunk_end e)%nat →
              (j < length (HybridIndex.chunks (HybridIndex.self w')))%nat).
Proof.
  intros Hwf.
  destruct (needs_reindex_run docs_dir w)
    as (needs & added & changed & removed & Hrun & Ha & Hr & Hc & Hneeds & _).
  exists needs, added, changed, removed.
  destruct needs.
  - destruct (reindex_wf_run embed_text docs_dir w added changed removed
                Hrun Ha Hc Hwf) as (w' & Hre & Hcs' & Hzip & Hwf').
    set (R := (list_to_set removed ∪ list_to_set changed : gset string)) in *.
    set (A := (list_to_set added ∪ list_to_set changed : gset string)) in *.
    exists w'. split; [done|]. split; [done|].
    destruct (wf_partition _ Hwf') as (Hcover & Huniq & Hin).
    split_and!; [| | |apply Hwf'|done|done|done].
    + intros f c Hf Hcin Hcf. rewrite Hcs' in Hcin.
      apply elem_of_app in Hcin as [[HR _]%elem_of_kept|HA%new_chunks_filename].
      * apply HR. unfold R. rewrite Hcf. set_solver.
      * rewrite Hcf in HA. unfold A in HA.
        rewrite elem_of_union, !elem_of_list_to_set, Ha, Hc in HA.
        apply Hr in Hf as [_ Hnone].
        destruct HA as [[[? ?] _]|(? & ? & ? & _)]; congruence.
    + intros f Hf. rewrite Hcs', filter_app.
      assert (f ∈ A) as HA by (unfold A; set_solver).
      rewrite filter_none.
      * unfold new_chunks. apply filter_docs; [apply NoDup_sorted_str, NoDup_elements|].
        by rewrite elem_of_sorted_str, elem_of_elements.
      * intros c Hcin Hcf.
        apply (kept_not_added docs_dir w added changed removed Ha Hwf c Hcin).
        by rewrite Hcf.
    + intros i c r Hci Hri Hnc Hnr.
      assert ((c, r) ∈ filter (fun cr : Chunk * Row => filename cr.1 ∉ R)
                (zip (HybridIndex.chunks (HybridIndex.self w)) (rows_of (HybridIndex.self w))))
        as Hin'.
      { apply list_elem_of_filter. split; [unfold R; simpl; set_solver|].
        apply (list_elem_of_lookup_2 _ i). apply lookup_zip_with_Some. by exists c, r. }
      apply list_elem_of_lookup_1 in Hin' as [j Hj].
      assert (zip (HybridIndex.chunks (HybridIndex.self w')) (rows_of (HybridIndex.self w'))
                !! j = Some (c, r)) as Hj'.
      { rewrite Hzip. by apply lookup_app_l_Some. }
      apply lookup_zip_with_Some in Hj' as (c' & r' & [= <- <-] & ? & ?). by exists j.
  - exists w.
    rewrite (reindex_eq embed_text docs_dir w false added changed removed Hrun).
    split; [done|]. split; [done|].
    destruct (Hneeds) as [Hnil _]. destruct (Hnil eq_refl) as (-> & -> & ->).
    destruct (wf_partition _ Hwf) as (Hcover & Huniq & Hin).
    split_and!; [| | |apply Hwf|done|done|done].
    + intros f c Hf. by apply elem_of_nil in Hf.
    + intros f [Hf|Hf]; by apply elem_of_nil in Hf.
    + intros i c r Hci Hri _ _. by exists i.
Qed.

(** ** Worked examples and the remaining statements *)

Lemma build_v1 :
  HybridIndex.build example_embed folder_v1 empty_world = Ok (tt, world_v1).
Proof. vm_compute. reflexivity. Qed.

Lemma world_v1_wf : wf (HybridIndex.self world_v1).
Proof. exact (build_wf example_embed folder_v1 empty_world world_v1 build_v1). Qed.

Lemma reindex_v2 :
  HybridIndex.reindex example_embed folder_v2 world_v1
  = Ok (tt, state_after (HybridIndex.reindex example_embed folder_v2) world_v1).
Proof. vm_compute. reflexivity. Qed.

Lemma reindex_idempotent_witness :
  HybridIndex.reindex example_embed folder_v2 world_v1
  = Ok (tt, state_after (HybridIndex.reindex example_embed folder_v2) world_v1) ∧
  HybridIndex.reindex example_embed folder_v2
    (state_after (HybridIndex.reindex example_embed folder_v2) world_v1)
  = Ok (tt, state_after (HybridIndex.reindex example_embed folder_v2) world_v1).
Proof.
  exact (conj reindex_v2
           (reindex_idempotent example_embed folder_v2 world_v1
              (state_after (HybridIndex.reindex example_embed folder_v2) world_v1)
              reindex_v2)).
Defined.

Lemma reindex_postcondition_witness :
  wf (HybridIndex.self world_v1) ∧
  ∃ w', HybridIndex.reindex example_embed folder_v2 world_v1 = Ok (tt, w').
Proof.
  split; [exact world_v1_wf|].
  destruct (reindex_postcondition example_embed folder_v2 world_v1 world_v1_wf)
    as (needs & added & changed & removed & w' & Hn & Hre & _).
  exists w'. exact Hre.
Defined.

(** C3, as stated, fails for a changed file: it is chunked again, so
    chunks with its name are there after [reindex]. *)
Lemma reindex_keeps_chunks_of_changed_file :
  ∃ w2 c,
    HybridIndex.needs_reindex folder_v2 world_v1 = Ok ((true, [], ["a.pdf"], []), world_v1) ∧
    HybridIndex.reindex example_embed folder_v2 world_v1 = Ok (tt, w2) ∧
    c ∈ HybridIndex.chunks (HybridIndex.self w2) ∧ filename c = "a.pdf".
Proof.
  exists (state_after (HybridIndex.reindex example_embed folder_v2) world_v1),
    {| text := "Hello there."; filename := "a.pdf"; chunk_idx := 0 |}.
  split; [vm_compute; reflexivity|]. split; [exact reindex_v2|].
  split; [vm_compute; left|reflexivity].
Qed.

Section unsupported.
Context {Row : Type} (embed_text : string → Row).
Context (docs_dir : Folder) (w : @HybridIndex.World Row).

Lemma reindex_raises_only_IndexError e :
  HybridIndex.reindex embed_text docs_dir w = Raise e → e = IndexError.
Proof.
  destruct (needs_reindex_run docs_dir w)
    as (needs & added & changed & removed & Hrun & Ha & Hr & Hc & _).
  rewrite (reindex_eq embed_text docs_dir w needs added changed removed Hrun).
  destruct needs; [|done]. cbn [negb].
  destruct (remove_step _ _) as [s1|e1] eqn:Hs1.
  - destruct (add_step_run embed_text docs_dir
                (list_to_set added ∪ list_to_set changed) s1
                (files_to_add_hashed docs_dir w added changed Ha Hc))
      as (s2 & -> & _). done.
  - intros [= <-]. unfold remove_step in Hs1. case_bool_decide; [done|].
    by eapply remove_files_raise.
Qed.

Lemma reindex_aligned_returns :
  aligned (HybridIndex.self w) →
  ∃ w', HybridIndex.reindex embed_text docs_dir w = Ok (tt, w').
Proof.
  intros Hal.
  destruct (needs_reindex_run docs_dir w)
    as (needs & added & changed & removed & Hrun & Ha & Hr & Hc & _).
  destruct needs.
  - destruct (remove_step_run (list_to_set removed ∪ list_to_set changed) _ Hal)
      as (s1 & Hs1 & _).
    destruct (reindex_after_remove embed_text docs_dir w added changed removed
                Hrun Ha Hc s1 Hs1) as (w' & Hre & _).
    by exists w'.
  - exists w. by rewrite (reindex_eq embed_text docs_dir w false added changed removed Hrun).
Qed.

Lemma reindex_new_chunks_supported w' c :
  HybridIndex.reindex embed_text docs_dir w = Ok (tt, w') →
  c ∈ HybridIndex.chunks (HybridIndex.self w') →
  c ∈ HybridIndex.chunks (HybridIndex.self w) ∨ supported (filename c) = true.
Proof.
  intros Hre Hc'.
  destruct (needs_reindex_run docs_dir w)
    as (needs & added & changed & removed & Hrun & Ha & Hr & Hc & _).
  destruct needs.
  - destruct (reindex_removed_ok embed_text docs_dir w w' added changed removed Hrun Hre)
      as [s1 Hs1].
    destruct (reindex_after_remove embed_text docs_dir w added changed removed
                Hrun Ha Hc s1 Hs1) as (w'' & Hre' & Hcs & _).
    rewrite Hre in Hre'. injection Hre' as <-. rewrite Hcs in Hc'.
    apply elem_of_app in Hc' as [[_ ?]%elem_of_kept|HA%new_chunks_filename]; [by left|].
    right. apply (files_to_add_hashed docs_dir w added changed Ha Hc) in HA.
    rewrite compute_file_hashes_lookup in HA.
    destruct (supported (filename c)); [done|by destruct HA].
  - rewrite (reindex_eq embed_text docs_dir w false added changed removed Hrun) in Hre.
    injection Hre as <-. by left.
Qed.
End unsupported.

(** C4, as amended.  [load_document] raises a [ValueError] for a path
    whose extension is not supported, but [build] and [reindex] never call
    it on such a path: they keep only the folder entries with a supported
    extension.  So [build] always returns, [reindex] never raises a
    [ValueError] and returns on an aligned index, and a file with an
    unsupported extension is skipped: it gets no chunk and no manifest
    entry. *)
Theorem unsupported_files_are_skipped {Row : Type} (embed_text : string → Row)
    (docs_dir : Folder) (w : @HybridIndex.World Row) :
  (∀ name at_path,
     supported name = false →
     load_document name at_path
     = Raise (ValueError ("Unsupported file type: " +:+ Py.lower (Py.suffix name)))) ∧
  (∃ w', HybridIndex.build embed_text docs_dir w = Ok (tt, w') ∧
         (∀ c, c ∈ HybridIndex.chunks (HybridIndex.self w') →
               supported (filename c) = true) ∧
         (∀ f, is_Some (HybridIndex.manifest (HybridIndex.self w') !! f) →
               supported f = true)) ∧
  (∀ e, HybridIndex.reindex embed_text docs_dir w = Raise e → e = IndexError) ∧
  (aligned (HybridIndex.self w) →
   ∃ w', HybridIndex.reindex embed_text docs_dir w = Ok (tt, w')) ∧
  (∀ w' c, HybridIndex.reindex embed_text docs_dir w = Ok (tt, w') →
           c ∈ HybridIndex.chunks (HybridIndex.self w') →
           c ∈ HybridIndex.chunks (HybridIndex.self w) ∨ supported (filename c) = true).
Proof.
  split_and!.
  - apply load_document_unsupported.
  - destruct (build_run embed_text docs_dir w) as (cs & m & Hrun & _ & _ & Hcs & Hm & _).
    eexists. split; [exact Hrun|]. simpl. split.
    + intros c Hc. by apply Hcs.
    + intros f Hf. by apply Hm.
  - apply reindex_raises_only_IndexError.
  - apply reindex_aligned_returns.
  - apply reindex_new_chunks_supported.
Qed.

(** C4, as stated, fails: over a folder whose only file is [notes.txt],
    [build] and [reindex] return normally and the file is skipped. *)
Lemma build_skips_unsupported_file :
  supported "notes.txt" = false ∧
  is_Some (folder_txt !! "notes.txt") ∧
  (∃ w', HybridIndex.build example_embed folder_txt empty_world = Ok (tt, w') ∧
         HybridIndex.chunks (HybridIndex.self w') = [] ∧
         HybridIndex.manifest (HybridIndex.self w') = ∅) ∧
  (∃ w', HybridIndex.reindex example_embed folder_txt world_v1 = Ok (tt, w') ∧
         HybridIndex.chunks (HybridIndex.self w') = []).
Proof.
  split; [reflexivity|]. split; [vm_compute; by eexists|]. split.
  - exists (state_after (HybridIndex.build example_embed folder_txt) empty_world).
    split; [vm_compute; reflexivity|]. split; vm_compute; reflexivity.
  - exists (state_after (HybridIndex.reindex example_embed folder_txt) world_v1).
    split; vm_compute; reflexivity.
Qed.

(** C1 fails for [load].  [save] writes no embedding file when the matrix
    is [None] and leaves an older file in place: after [build] over one
    document and [reindex] over the emptied folder, the index directory
    holds an empty chunk list next to the old one-row matrix, and [load]
    returns an index with no chunk and one embedding row. *)
Lemma load_after_emptying_reindex :
  HybridIndex.build example_embed folder_v1 empty_world = Ok (tt, world_v1) ∧
  HybridIndex.reindex example_embed ∅ world_v1 = Ok (tt, world_emptied) ∧
  HybridIndex.chunks (HybridIndex.self world_emptied) = [] ∧
  HybridIndex.embeddings (HybridIndex.self world_emptied) = None ∧
  ∃ idx,
    HybridIndex.load (HybridIndex.index_dir world_emptied) = Ok idx ∧
    HybridIndex.chunks idx = [] ∧
    HybridIndex.embeddings idx = Some [12] ∧
    ¬ aligned idx.
Proof.
  split; [exact build_v1|]. split; [vm_compute; reflexivity|].
  split; [vm_compute; reflexivity|]. split; [vm_compute; reflexivity|].
  exists (match HybridIndex.load (HybridIndex.index_dir world_emptied) with
          | Ok idx => idx
          | Raise _ => HybridIndex.new
          end).
  split; [vm_compute; reflexivity|]. split; [vm_compute; reflexivity|].
  split; [vm_compute; reflexivity|].
  unfold aligned, rows_of. vm_compute. discriminate.
Qed.

(** * Further properties of the code *)

(** ** The chunker: what the chunks hold *)

Section runs_app.
Context (keep : ascii → bool).

Lemma runs_go_app_sep acc a c s :
  keep c = false →
  Py.runs_go keep acc (a +:+ String c s) = Py.runs_go keep acc a ++ Py.runs keep s.
Proof.
  intros Hc. revert acc. induction a as [|x a IH]; intros acc.
  - change (EmptyString +:+ String c s) with (String c s). simpl. rewrite Hc.
    by destruct acc.
  - rewrite str_app_cons. simpl. destruct (keep x); [apply IH|].
    destruct acc; [apply IH|]. simpl. by rewrite IH.
Qed.

Lemma runs_app_sep a c s :
  keep c = false →
  Py.runs keep (a +:+ String c s) = Py.runs keep a ++ Py.runs keep s.
Proof. apply runs_go_app_sep. Qed.

Lemma runs_cons_sep c s : keep c = false → Py.runs keep (String c s) = Py.runs keep s.
Proof. intros Hc. unfold Py.runs. simpl. by rewrite Hc. Qed.
End runs_app.

(** Splitting into sentences loses no word: the separators are white
    space. *)
Lemma sentence_split_go_words s : ∀ st acc,
  match st with InSep => acc = EmptyString | InText _ => True end →
  concat (map Py.split (sentence_split_go st acc s)) = Py.split (acc +:+ s).
Proof.
  induction s as [|c s IH]; intros st acc Hst.
  - simpl. rewrite str_app_nil_r. by rewrite app_nil_r.
  - simpl. destruct st as [after_end|].
    + destruct (after_end && Py.is_space c) eqn:Hsep.
      * apply andb_true_iff in Hsep as [_ Hsp].
        simpl. rewrite (IH InSep EmptyString eq_refl).
        change (EmptyString +:+ s) with s.
        unfold Py.split. rewrite runs_app_sep; [done|]. by rewrite Hsp.
      * rewrite (IH (InText (is_sentence_end c)) _ I). by rewrite str_app_assoc.
    + subst acc. change (EmptyString +:+ String c s) with (String c s).
      destruct (Py.is_space c) eqn:Hsp.
      * rewrite (IH InSep EmptyString eq_refl).
        change (EmptyString +:+ s) with s.
        unfold Py.split. rewrite runs_cons_sep; [done|]. by rewrite Hsp.
      * by rewrite (IH (InText (is_sentence_end c)) _ I).
Qed.

Lemma sentence_split_words text :
  concat (map Py.split (sentence_split text)) = Py.split text.
Proof. apply (sentence_split_go_words text (InText false) EmptyString I). Qed.

Lemma last_n_length_min {A} n (l : list A) : length (Py.last_n n l) = min n (length l).
Proof. unfold Py.last_n. rewrite length_drop. lia. Qed.

Lemma seed_last_n overlap (cur : list string) :
  match overlap with O => [] | S _ => Py.last_n overlap cur end = Py.last_n overlap cur.
Proof.
  destruct overlap; [|done]. unfold Py.last_n. by rewrite Nat.sub_0_r, drop_all.
Qed.

Section cover.
Context (chunk_size overlap : nat).

Lemma unoverlap_snoc wss : ∀ prev ws,
  unoverlap overlap prev (wss ++ [ws])
  = unoverlap overlap prev wss
    ++ drop (min overlap (length (default prev (last wss)))) ws.
Proof.
  induction wss as [|x wss IH]; intros prev ws.
  - simpl. by rewrite app_nil_r.
  - assert (default prev (last (x :: wss)) = default x (last wss)) as ->
      by (rewrite last_cons; by destruct (last wss)).
    change (unoverlap overlap prev ((x :: wss) ++ [ws]))
      with (drop (min overlap (length prev)) x ++ unoverlap overlap x (wss ++ [ws])).
    rewrite IH. simpl. by rewrite app_assoc.
Qed.

Lemma chained_snoc wss : ∀ prev ws,
  chained overlap prev wss →
  take (min overlap (length (default prev (last wss)))) ws
    = Py.last_n overlap (default prev (last wss)) →
  (min overlap (length (default prev (last wss))) < length ws)%nat →
  chained overlap prev (wss ++ [ws]).
Proof.
  induction wss as [|x wss IH]; intros prev ws Hch Htake Hlen.
  - simpl in *. done.
  - assert (default prev (last (x :: wss)) = default x (last wss)) as Heq
      by (rewrite last_cons; by destruct (last wss)).
    rewrite Heq in Htake, Hlen.
    destruct Hch as (? & ? & Hch).
    change (chained overlap prev (x :: (wss ++ [ws]))).
    simpl. split_and!; [done..|]. by apply IH.
Qed.

(** The state of the loop of [chunk_text] after the words [consumed]:
    [wss] are the word lists of the chunks emitted so far. *)
Definition cover_inv (st : list string * list string) (consumed : list string) : Prop :=
  ∃ wss,
    st.1 = map (Py.join " ") wss ∧
    Forall (Forall is_word_str) wss ∧
    chained overlap [] wss ∧
    Forall is_word_str st.2 ∧
    take (min overlap (length (default [] (last wss)))) st.2
      = Py.last_n overlap (default [] (last wss)) ∧
    (wss ≠ [] → (min overlap (length (default [] (last wss))) < length st.2)%nat) ∧
    unoverlap overlap [] wss ++ drop (min overlap (length (default [] (last wss)))) st.2
      = consumed.

Lemma cover_step st consumed sent :
  cover_inv st consumed →
  cover_inv (chunk_step chunk_size overlap st sent) (consumed ++ Py.split sent).
Proof.
  destruct st as [chunks cur].
  intros (wss & Hchunks & Hwss & Hch & Hcur & Htake & Hlen & Hcons). simpl in *.
  unfold chunk_step. pose proof (split_words sent) as Hws.
  destruct (Py.split sent) as [|w ws] eqn:Hsplit.
  { rewrite app_nil_r. by exists wss. }
  destruct ((chunk_size <? length cur + length (w :: ws))%nat
            && negb (bool_decide (cur = []))) eqn:Hflush.
  - apply andb_true_iff in Hflush as [_ Hne].
    apply negb_true_iff, bool_decide_eq_false in Hne.
    rewrite seed_last_n.
    exists (wss ++ [cur]). simpl. rewrite last_snoc. simpl.
    split_and!.
    + by rewrite Hchunks, map_app.
    + apply Forall_app. split; [done|]. by constructor.
    + apply chained_snoc; [done..|].
      destruct wss as [|x wss]; [|by apply Hlen].
      simpl. destruct cur; [done|]. simpl. lia.
    + apply Forall_app. split; [|done]. unfold Py.last_n. by apply Forall_drop.
    + rewrite <- (last_n_length_min overlap cur). by rewrite take_app_length.
    + intros _. rewrite <- (last_n_length_min overlap cur), length_app. simpl. lia.
    + rewrite unoverlap_snoc. rewrite <- (last_n_length_min overlap cur).
      rewrite drop_app_length. rewrite <- app_assoc. by rewrite <- Hcons, <- app_assoc.
  - exists wss. simpl. split_and!; [done..| | | |].
    + by apply Forall_app.
    + rewrite take_app_le; [done|].
      destruct wss as [|x wss]; [simpl; lia|].
      specialize (Hlen ltac:(done)). lia.
    + intros Hne. specialize (Hlen Hne). rewrite length_app. lia.
    + rewrite drop_app_le.
      * by rewrite app_assoc, Hcons.
      * destruct wss as [|x wss]; [simpl; lia|].
        specialize (Hlen ltac:(done)). lia.
Qed.

Lemma cover_loop l : ∀ st consumed,
  cover_inv st consumed →
  cover_inv (foldl (chunk_step chunk_size overlap) st l)
            (consumed ++ concat (map Py.split l)).
Proof.
  induction l as [|sent l IH]; intros st consumed Hst; simpl.
  - by rewrite app_nil_r.
  - rewrite app_assoc. apply IH. by apply cover_step.
Qed.

(** The chunks are the joins of word lists that are chained by the
    overlap and that, the overlap taken out, give the words of the
    text. *)
Lemma chunk_text_words text :
  ∃ wss,
    chunk_text text chunk_size overlap = map (Py.join " ") wss ∧
    Forall (Forall is_word_str) wss ∧
    chained overlap [] wss ∧
    unoverlap overlap [] wss = Py.split text.
Proof.
  unfold chunk_text.
  pose proof (cover_loop (sentence_split text) ([], []) []) as Hinv.
  rewrite sentence_split_words in Hinv. simpl in Hinv.
  destruct (foldl _ _ _) as [chunks cur].
  destruct Hinv as (wss & Hchunks & Hwss & Hch & Hcur & Htake & Hlen & Hcons).
  { exists []. simpl. split_and!; try done.
    - by rewrite Nat.min_0_r.
    - by rewrite drop_nil. }
  simpl in *. destruct cur as [|w cur].
  - exists wss. split_and!; [done..|].
    by rewrite drop_nil, app_nil_r in Hcons.
  - exists (wss ++ [w :: cur]). split_and!.
    + by rewrite Hchunks, map_app.
    + apply Forall_app. split; [done|]. by constructor.
    + apply chained_snoc; [done..|].
      destruct wss as [|x wss]; [simpl; lia|by apply Hlen].
    + by rewrite unoverlap_snoc.
Qed.
End cover.

Lemma chained_lookup overlap wss : ∀ prev i ws ws',
  chained overlap prev wss →
  wss !! i = Some ws → wss !! S i = Some ws' →
  take (min overlap (length ws)) ws' = Py.last_n overlap ws ∧
  (min overlap (length ws) < length ws')%nat.
Proof.
  induction wss as [|x wss IH]; intros prev i ws ws' Hch Hi Hi'; [done|].
  destruct Hch as (_ & _ & Hch). destruct i as [|i]; simpl in *.
  - simplify_eq. destruct wss as [|y wss]; [done|]. simpl in *. simplify_eq.
    by destruct Hch as (? & ? & _).
  - by eapply IH.
Qed.

Lemma chained_nonempty overlap wss : ∀ prev ws,
  chained overlap prev wss → ws ∈ wss → ws ≠ [].
Proof.
  induction wss as [|x wss IH]; intros prev ws Hch Hin; [by apply elem_of_nil in Hin|].
  destruct Hch as (_ & Hlen & Hch).
  apply elem_of_cons in Hin as [->|Hin]; [|by eapply IH].
  intros ->. simpl in Hlen. lia.
Qed.

Lemma join_nonempty ws : ws ≠ [] → Forall is_word_str ws → Py.join " " ws ≠ EmptyString.
Proof.
  intros Hne Hws Hj. apply (f_equal Py.split) in Hj.
  rewrite split_join in Hj by done. by destruct ws.
Qed.

Lemma map_split_join wss :
  Forall (Forall is_word_str) wss → map Py.split (map (Py.join " ") wss) = wss.
Proof.
  induction 1 as [|ws wss Hws _ IH]; [done|]. simpl. by rewrite split_join, IH.
Qed.

(** X1.  Every chunk of [chunk_text] is non-empty and
    white-space normalised: it has at least one word and it is its own
    words joined by single spaces. *)
Theorem chunk_text_normal_form text chunk_size overlap c :
  c ∈ chunk_text text chunk_size overlap →
  c ≠ EmptyString ∧ Py.split c ≠ [] ∧ Py.join " " (Py.split c) = c.
Proof.
  destruct (chunk_text_words chunk_size overlap text) as (wss & -> & Hwss & Hch & _).
  intros Hc. apply list_elem_of_fmap in Hc as (ws & -> & Hin).
  rewrite Forall_forall in Hwss. specialize (Hwss ws Hin).
  pose proof (chained_nonempty _ _ _ _ Hch Hin) as Hne.
  rewrite split_join by done. split_and!; [|done..].
  by apply join_nonempty.
Qed.

Lemma chunk_text_normal_form_witness :
  "b. c d." ≠ EmptyString ∧ Py.split "b. c d." ≠ [] ∧
  Py.join " " (Py.split "b. c d.") = "b. c d.".
Proof.
  apply (chunk_text_normal_form "a b. c d." 2 1). vm_compute. right. left.
Defined.

(** X2.  [chunk_text] loses no word and invents none,
    whatever the sizes: taking from the start of every chunk the words
    carried over from the chunk before it ([min overlap n] of them after
    a chunk of [n] words) and concatenating what is left gives the words
    of the text, in order. *)
Theorem chunk_text_covers_text text chunk_size overlap :
  unoverlap overlap [] (map Py.split (chunk_text text chunk_size overlap)) = Py.split text.
Proof.
  destruct (chunk_text_words chunk_size overlap text) as (wss & -> & Hwss & _ & Hcov).
  by rewrite map_split_join.
Qed.

(** X3.  Consecutive chunks overlap as configured: a chunk
    starts with the last [overlap] words of the chunk before it (all of
    them when that chunk is shorter) and holds at least one word more. *)
Theorem chunk_text_overlap text chunk_size overlap i c c' :
  chunk_text text chunk_size overlap !! i = Some c →
  chunk_text text chunk_size overlap !! S i = Some c' →
  take (min overlap (word_count c)) (Py.split c') = Py.last_n overlap (Py.split c) ∧
  (min overlap (word_count c) < word_count c')%nat.
Proof.
  destruct (chunk_text_words chunk_size overlap text) as (wss & -> & Hwss & Hch & _).
  rewrite !list_lookup_fmap. intros Hi Hi'.
  destruct (wss !! i) as [ws|] eqn:Hws; [|done].
  destruct (wss !! S i) as [ws'|] eqn:Hws'; [|done].
  simpl in *. simplify_eq.
  rewrite Forall_forall in Hwss. unfold word_count.
  rewrite !split_join by (apply Hwss; by eapply list_elem_of_lookup_2).
  by eapply chained_lookup.
Qed.

Lemma chunk_text_overlap_witness :
  take (min 1 (word_count "a b.")) (Py.split "b. c d.") = Py.last_n 1 (Py.split "a b.") ∧
  (min 1 (word_count "a b.") < word_count "b. c d.")%nat.
Proof.
  apply (chunk_text_overlap "a b. c d." 2 1 0); reflexivity.
Defined.

(** X4.  [chunk_text] returns no chunk exactly when the
    text has no word (the empty text, or white space only). *)
Theorem chunk_text_empty_iff text chunk_size overlap :
  chunk_text text chunk_size overlap = [] ↔ Py.split text = [].
Proof.
  destruct (chunk_text_words chunk_size overlap text) as (wss & -> & Hwss & Hch & Hcov).
  rewrite <- Hcov. split.
  - intros Hnil. apply fmap_nil_inv in Hnil. by subst.
  - destruct wss as [|ws wss]; [done|].
    destruct Hch as (_ & Hlen & _). simpl in Hlen.
    destruct ws as [|w ws]; [simpl in Hlen; lia|]. simpl. rewrite Nat.min_0_r. simpl. intros Hnil. discriminate Hnil.
Qed.

Lemma chunk_loop_fits chunk_size overlap l : ∀ cur,
  (length cur + length (concat (map Py.split l)) ≤ chunk_size)%nat →
  foldl (chunk_step chunk_size overlap) ([], cur) l = ([], cur ++ concat (map Py.split l)).
Proof.
  induction l as [|sent l IH]; intros cur Hfit; cbn [foldl map concat] in *.
  - by rewrite app_nil_r.
  - rewrite length_app in Hfit.
    assert (chunk_step chunk_size overlap ([], cur) sent = ([], cur ++ Py.split sent)) as ->.
    { unfold chunk_step. destruct (Py.split sent) as [|w ws] eqn:Hsplit.
      - by rewrite app_nil_r.
      - assert ((chunk_size <? length cur + length (w :: ws))%nat = false) as ->
          by (apply Nat.ltb_ge; simpl in *; lia).
        done. }
    rewrite IH.
    + by rewrite <- app_assoc.
    + rewrite length_app. lia.
Qed.

(** X5.  A text with at least one and at most
    [chunk_size] words is one chunk, whatever the overlap: its words
    joined by single spaces. *)
Theorem chunk_text_single text chunk_size overlap :
  Py.split text ≠ [] →
  (word_count text ≤ chunk_size)%nat →
  chunk_text text chunk_size overlap = [Py.join " " (Py.split text)].
Proof.
  intros Hne Hfit. unfold chunk_text, word_count in *.
  rewrite chunk_loop_fits; rewrite sentence_split_words; [|simpl; lia].
  simpl. by destruct (Py.split text).
Qed.

Lemma chunk_text_single_witness :
  chunk_text "Hello   world. Bye." 400 50 = ["Hello world. Bye."].
Proof.
  apply (chunk_text_single "Hello   world. Bye." 400 50).
  - vm_compute. discriminate.
  - vm_compute. lia.
Defined.

(** ** The tokenizer *)

Lemma lower_char_idemp c : Py.lower_char (Py.lower_char c) = Py.lower_char c.
Proof. destruct c as [[] [] [] [] [] [] [] []]; reflexivity. Qed.

Lemma lower_idemp s : Py.lower (Py.lower s) = Py.lower s.
Proof. induction s as [|c s IH]; simpl; [done|]. by rewrite lower_char_idemp, IH. Qed.

Lemma lower_app s t : Py.lower (s +:+ t) = Py.lower s +:+ Py.lower t.
Proof. induction s as [|c s IH]; [done|]. rewrite str_app_cons. simpl. by rewrite IH. Qed.

(** The runs of a string are made of its characters. *)
Lemma runs_go_chars (keep p : ascii → bool) s : ∀ acc,
  all_chars p acc = true → all_chars p s = true →
  Forall (fun t => all_chars p t = true) (Py.runs_go keep acc s).
Proof.
  induction s as [|c s IH]; intros acc Hacc Hs; simpl in *.
  - destruct acc; by repeat constructor.
  - apply andb_true_iff in Hs as [Hc Hs].
    destruct (keep c).
    + apply IH; [|done]. rewrite all_chars_app, Hacc. simpl. by rewrite Hc.
    + destruct acc; [by apply IH|]. constructor; [done|]. by apply IH.
Qed.

Lemma all_chars_lower s :
  all_chars (fun c => Ascii.eqb (Py.lower_char c) c) (Py.lower s) = true.
Proof.
  induction s as [|c s IH]; simpl; [done|].
  rewrite IH, lower_char_idemp. by rewrite Ascii.eqb_refl.
Qed.

Lemma lower_fixed s :
  all_chars (fun c => Ascii.eqb (Py.lower_char c) c) s = true → Py.lower s = s.
Proof.
  induction s as [|c s IH]; simpl; [done|]. intros H.
  apply andb_true_iff in H as [Hc Hs]. apply Ascii.eqb_eq in Hc.
  by rewrite Hc, IH.
Qed.

Lemma runs_single (keep : ascii → bool) t : is_run keep t → Py.runs keep t = [t].
Proof.
  intros [Hne Hall]. unfold Py.runs.
  rewrite <- (str_app_nil_r t) at 1.
  rewrite runs_go_app_run by done.
  change (EmptyString +:+ t) with t. by apply runs_go_end.
Qed.

(** X6.  Every token [_tokenize] returns is a non-empty
    string of word characters in lower case, and is its own only token;
    the tokens of a text do not depend on its letter case. *)
Theorem tokenize_lowercase_words text :
  (∀ t, t ∈ _tokenize text →
        t ≠ EmptyString ∧ all_chars Py.is_word t = true ∧ Py.lower t = t ∧
        _tokenize t = [t]) ∧
  _tokenize (Py.lower text) = _tokenize text.
Proof.
  split; [|unfold _tokenize; by rewrite lower_idemp].
  intros t Ht. unfold _tokenize in *.
  pose proof (runs_all Py.is_word (Py.lower text)) as Hruns.
  pose proof (runs_go_chars Py.is_word (fun c => Ascii.eqb (Py.lower_char c) c)
                (Py.lower text) EmptyString eq_refl (all_chars_lower text)) as Hlow.
  rewrite Forall_forall in Hruns, Hlow.
  specialize (Hruns t Ht). specialize (Hlow t Ht).
  destruct Hruns as [Hne Hword]. apply lower_fixed in Hlow.
  split_and!; [done..|]. rewrite Hlow. by apply runs_single.
Qed.

(** ** BM25: which chunks are hits *)

Lemma Rsum_nonneg l : Forall (fun x => (0 <= x)%R) l → (0 <= Rsum l)%R.
Proof. induction 1 as [|x l Hx _ IH]; simpl; lra. Qed.

Lemma Rsum_pos l x :
  Forall (fun x => (0 <= x)%R) l → x ∈ l → (0 < x)%R → (0 < Rsum l)%R.
Proof.
  induction 1 as [|y l Hy Hl IH]; intros Hin Hx; [by apply elem_of_nil in Hin|].
  apply elem_of_cons in Hin as [->|Hin]; simpl.
  - pose proof (Rsum_nonneg l Hl). lra.
  - specialize (IH Hin Hx). lra.
Qed.

Lemma Rsum_zero l : Forall (fun x => x = 0%R) l → Rsum l = 0%R.
Proof. induction 1 as [|x l Hx _ IH]; simpl; [done|]. lra. Qed.

Lemma bm25_idf_pos N df : (df ≤ N)%nat → (0 < bm25_idf N df)%R.
Proof.
  intros Hle. unfold bm25_idf. rewrite <- ln_1. apply ln_increasing; [lra|].
  apply le_INR in Hle. pose proof (pos_INR df).
  assert (0 < (INR N - INR df + 0.5) / (INR df + 0.5))%R; [|lra].
  apply Rdiv_lt_0_compat; lra.
Qed.

Section scores.
Context (texts : list string).

Lemma avgdl_pos t d : d ∈ texts → t ∈ _tokenize d → (0 < avgdl texts)%R.
Proof.
  intros Hd Ht. rewrite <- (fit_avgdl BM25.new texts).
  apply (fit_avg_dl_pos BM25.new texts t). rewrite fit_doc_freqs.
  assert (0 < doc_freq t texts)%nat as Hpos.
  { unfold doc_freq.
    assert (d ∈ filter (fun text => t ∈ _tokenize text) texts) as Hin
      by (by apply list_elem_of_filter).
    destruct (filter _ texts); [by apply elem_of_nil in Hin|simpl; lia]. }
  destruct (doc_freq t texts); [lia|done].
Qed.

Lemma term_score_zero t d :
  t ∉ _tokenize d → bm25_term_score 1.5 0.75 texts t d = 0%R.
Proof.
  intros Ht. unfold bm25_term_score, term_weight.
  assert (term_count t (_tokenize d) = 0%nat) as ->.
  { pose proof (term_count_pos t (_tokenize d)) as H.
    destruct (term_count t (_tokenize d)); [done|]. exfalso. apply Ht, H. lia. }
  change (INR 0) with 0%R. unfold Rdiv. ring.
Qed.

Lemma term_score_pos t d :
  d ∈ texts → t ∈ _tokenize d → (0 < bm25_term_score 1.5 0.75 texts t d)%R.
Proof.
  intros Hd Ht. unfold bm25_term_score, term_weight.
  pose proof (avgdl_pos t d Hd Ht) as Havg.
  pose proof (bm25_idf_pos (length texts) (doc_freq t texts) (doc_freq_le t texts)) as Hidf.
  apply term_count_pos in Ht. apply lt_0_INR in Ht.
  set (tf := INR (term_count t (_tokenize d))) in *.
  pose proof (pos_INR (length (_tokenize d))) as Hdl.
  set (dl := INR (length (_tokenize d))) in *.
  set (idf := bm25_idf _ _) in *.
  assert (0 <= 0.75 * dl / avgdl texts)%R.
  { unfold Rdiv. apply Rmult_le_pos; [lra|]. by apply Rlt_le, Rinv_0_lt_compat. }
  apply Rdiv_lt_0_compat; [|lra].
  apply Rmult_lt_0_compat; [|lra]. by apply Rmult_lt_0_compat.
Qed.

Lemma term_score_nonneg t d :
  d ∈ texts → (0 <= bm25_term_score 1.5 0.75 texts t d)%R.
Proof.
  intros Hd. destruct (decide (t ∈ _tokenize d)) as [Ht|Ht].
  - by apply Rlt_le, term_score_pos.
  - rewrite term_score_zero by done. lra.
Qed.

(** The score of a text of the corpus is positive exactly when the text
    shares a token with the query. *)
Lemma bm25_score_pos query d :
  d ∈ texts →
  (0 < bm25_score 1.5 0.75 texts query d)%R ↔
  ∃ t, t ∈ _tokenize query ∧ t ∈ _tokenize d.
Proof.
  intros Hd. unfold bm25_score.
  set (known := filter (fun t => doc_freq t texts ≠ 0%nat) (_tokenize query)).
  split.
  - intros Hpos.
    destruct (decide (Exists (fun t => t ∈ _tokenize d) known)) as [Hex|Hno].
    + apply Exists_exists in Hex as (t & Hin & Ht).
      apply list_elem_of_filter in Hin as [_ Hin]. by exists t.
    + apply not_Exists_Forall in Hno; [|solve_decision].
      rewrite Rsum_zero in Hpos; [lra|].
      apply Forall_fmap. eapply Forall_impl; [exact Hno|].
      intros t Ht. simpl in *. by apply term_score_zero.
  - intros (t & Hq & Ht).
    apply (Rsum_pos _ (bm25_term_score 1.5 0.75 texts t d)).
    + apply Forall_fmap, Forall_forall. intros u _. by apply term_score_nonneg.
    + apply list_elem_of_fmap. exists t. split; [done|].
      apply list_elem_of_filter. split; [|done].
      enough (0 < doc_freq t texts)%nat by lia.
      unfold doc_freq.
      assert (d ∈ filter (fun text => t ∈ _tokenize text) texts) as Hin
        by (by apply list_elem_of_filter).
      destruct (filter _ texts); [by apply elem_of_nil in Hin|simpl; lia].
    + by apply term_score_pos.
Qed.
End scores.

(** The hits of a search are the chunks that share a token with the
    query. *)
Lemma search_hits (texts : list string) (query : string) (top_k : nat) :
  ∃ result,
    BM25.search (BM25.fit BM25.new texts) query top_k = Ok result ∧
    NoDup result.*1 ∧
    (∀ i s, (i, s) ∈ result →
            ∃ d t, texts !! i = Some d ∧ t ∈ _tokenize query ∧ t ∈ _tokenize d) ∧
    ((length texts ≤ top_k)%nat →
     ∀ i d t, texts !! i = Some d → t ∈ _tokenize query → t ∈ _tokenize d →
              ∃ s, (i, s) ∈ result).
Proof.
  destruct (search_run BM25.new texts) with (query := query) (top_k := top_k)
    as (scores & Hrun & Hlen & Hscores).
  { simpl. lra. }
  { simpl. lra. }
  simpl in Hscores.
  eexists. split; [exact Hrun|]. split_and!.
  - eapply sublist_NoDup;
      [|apply fmap_sublist; etrans; [apply sublist_filter|apply sublist_take]].
    rewrite (sorted_Permutation _ _), enumerate_fst. apply NoDup_seq.
  - intros i s Hin. apply list_elem_of_filter in Hin as [Hpos Hin].
    apply elem_of_take in Hin as (n & Hin & _).
    apply list_elem_of_lookup_2 in Hin.
    apply elem_of_sorted in Hin.
    apply elem_of_lookup_imap_1 in Hin as (j & x & [= -> ->] & Hx).
    destruct (lookup_lt_is_Some_2 texts j) as [d Hd].
    { rewrite <- Hlen. by eapply lookup_lt_Some. }
    specialize (Hscores j d Hd). rewrite Hscores in Hx. simplify_eq.
    simpl in Hpos. apply bm25_score_pos in Hpos as (t & ? & ?).
    + by exists d, t.
    + by eapply list_elem_of_lookup_2.
  - intros Hk i d t Hd Hq Ht.
    exists (bm25_score 1.5 0.75 texts query d).
    apply list_elem_of_filter. split.
    + simpl. apply bm25_score_pos; [by eapply list_elem_of_lookup_2|by exists t].
    + rewrite take_ge by (rewrite sorted_length; unfold Py.enumerate;
                          rewrite length_imap; lia).
      apply elem_of_sorted. apply elem_of_lookup_imap. exists i, (bm25_score 1.5 0.75 texts query d).
      split; [done|]. by apply Hscores.
Qed.

(** X7.  On a fitted model, [search] returns no position
    twice, and every hit is a text that shares a token with the query.
    When [top_k] is at least the number of texts, every text that shares
    a token with the query is a hit. *)
Theorem bm25_hits_share_a_token (texts : list string) (query : string) (top_k : nat) :
  ∃ result,
    BM25.search (BM25.fit BM25.new texts) query top_k = Ok result ∧
    NoDup result.*1 ∧
    (∀ i s, (i, s) ∈ result →
            ∃ d t, texts !! i = Some d ∧ t ∈ _tokenize query ∧ t ∈ _tokenize d) ∧
    ((length texts ≤ top_k)%nat →
     ∀ i d t, texts !! i = Some d → t ∈ _tokenize query → t ∈ _tokenize d →
              ∃ s, (i, s) ∈ result).
Proof. apply search_hits. Qed.

Lemma fit_nil : BM25.fit BM25.new [] = BM25.new.
Proof.
  unfold BM25.fit, BM25.new, BM25.init. simpl. f_equal. lra.
Qed.

(** Without a known token there is no hit. *)
Lemma search_no_hits (texts : list string) (query : string) (top_k : nat) :
  (∀ t, t ∈ _tokenize query → doc_freq t texts = 0%nat) →
  BM25.search (BM25.fit BM25.new texts) query top_k = Ok [].
Proof.
  intros Hq.
  destruct (search_hits texts query top_k) as (result & Hrun & _ & Hhits & _).
  rewrite Hrun. f_equal. destruct result as [|[i s] result]; [done|].
  destruct (Hhits i s) as (d & t & Hd & Ht & Htd); [by left|].
  specialize (Hq t Ht). exfalso.
  assert (d ∈ filter (fun text => t ∈ _tokenize text) texts) as Hin.
  { apply list_elem_of_filter. split; [done|]. by eapply list_elem_of_lookup_2. }
  unfold doc_freq in Hq. destruct (filter _ texts); [by apply elem_of_nil in Hin|done].
Qed.

(** X8.  A query none of whose tokens occurs in the
    fitted texts (an empty query, an empty corpus) has no hit; a model
    that was never fitted has no hit for any query. *)
Theorem bm25_search_no_known_token (texts : list string) (query : string) (top_k : nat) :
  (∀ t, t ∈ _tokenize query → doc_freq t texts = 0%nat) →
  BM25.search (BM25.fit BM25.new texts) query top_k = Ok [] ∧
  BM25.search BM25.new query top_k = Ok [].
Proof.
  intros Hq. split; [by apply search_no_hits|].
  rewrite <- fit_nil. apply search_no_hits. intros t _. done.
Qed.

Lemma bm25_search_no_known_token_witness :
  BM25.search (BM25.fit BM25.new ["Hello world."]) "price?" 20 = Ok [] ∧
  BM25.search BM25.new "price?" 20 = Ok [].
Proof.
  apply (bm25_search_no_known_token ["Hello world."] "price?" 20).
  intros t Ht. change (_tokenize "price?") with ["price"] in Ht.
  apply list_elem_of_singleton in Ht. subst t. vm_compute. reflexivity.
Defined.

(** ** BM25: ties *)

Lemma insert_sorted_before x l :
  StronglySorted ranks_before l →
  (∀ y, y ∈ l → (x.1 < y.1)%nat) →
  StronglySorted ranks_before (Py.insert_sorted (fun x y => Rleb (- x.2) (- y.2)) x l).
Proof.
  induction 1 as [|y l Hl IH Hy]; intros Hx; simpl.
  - by repeat constructor.
  - destruct (Rleb (- x.2) (- y.2)) eqn:Hle.
    + apply Rleb_true in Hle. constructor; [by constructor|].
      rewrite Forall_forall in Hy |- *. intros z Hz.
      assert ((z.2 <= y.2)%R) as Hzy.
      { apply elem_of_cons in Hz as [->|Hz]; [lra|].
        destruct (Hy z Hz) as [?|[? ?]]; lra. }
      specialize (Hx z Hz). unfold ranks_before.
      destruct (Rlt_dec z.2 x.2); [by left|right]. split; [lra|done].
    + assert (¬ (- x.2 <= - y.2)%R) as Hlt by (by rewrite <- Rleb_true, Hle).
      constructor.
      * apply IH. intros z Hz. apply Hx. by right.
      * rewrite Forall_forall in Hy |- *. intros z Hz.
        rewrite (insert_sorted_Permutation _ _ _) in Hz.
        apply elem_of_cons in Hz as [->|Hz]; [left; lra|by apply Hy].
Qed.

Lemma sorted_enumerate_before (scores : list R) : ∀ n,
  StronglySorted ranks_before
    (Py.sorted (fun x y => Rleb (- x.2) (- y.2)) (enumerate_from n scores)).
Proof.
  induction scores as [|s scores IH]; intros n; [constructor|].
  rewrite enumerate_from_cons. simpl. apply insert_sorted_before; [apply IH|].
  intros y Hy. apply elem_of_sorted in Hy.
  apply elem_of_lookup_imap_1 in Hy as (j & x & -> & _). simpl. lia.
Qed.

(** X9.  The hits of [search] are in descending order
    of score and, the sort being stable, hits of equal score are in
    ascending order of position. *)
Theorem bm25_ties_in_chunk_order (texts : list string) (query : string) (top_k : nat) :
  ∃ result,
    BM25.search (BM25.fit BM25.new texts) query top_k = Ok result ∧
    StronglySorted ranks_before result.
Proof.
  destruct (search_run BM25.new texts) with (query := query) (top_k := top_k)
    as (scores & Hrun & _).
  { simpl. lra. }
  { simpl. lra. }
  eexists. split; [exact Hrun|].
  eapply StronglySorted_sublist;
    [etrans; [apply sublist_filter|apply sublist_take]|].
  rewrite enumerate_from_0. apply sorted_enumerate_before.
Qed.

(** ** Reciprocal rank fusion: the fused list *)

Lemma Qle_bool_false x y : Qle_bool x y = false → Qle_bool y x = true.
Proof.
  intros H. apply Qle_bool_iff. apply Qlt_le_weak, Qnot_le_lt.
  intros Hle. apply Qle_bool_iff in Hle. congruence.
Qed.

Lemma fused_descending (scores : list (nat * Q)) :
  StronglySorted (fun x y : nat * Q => (y.2 <= x.2)%Q)
    (Py.sorted (fun x y => Qle_bool (- x.2) (- y.2)) scores).
Proof.
  eapply StronglySorted_impl; [|apply sorted_StronglySorted].
  - intros x y H. apply Qle_bool_iff, Qopp_le_compat in H.
    by rewrite !Qopp_involutive in H.
  - intros x y H. by apply Qle_bool_false.
  - intros x y z H1 H2. apply Qle_bool_iff in H1, H2. apply Qle_bool_iff.
    by eapply Qle_trans.
Qed.

Section rrf_weights.
Context {A : Type} (k : nat).
Implicit Types (ranked : list (nat * A)).

Lemma list_weight_nonneg d ranked : ∀ n, (0 <= list_weight k d n ranked)%Q.
Proof.
  induction ranked as [|[d' a] rest IH]; intros n; [apply Qle_refl|].
  cbn [list_weight]. specialize (IH (S n)).
  pose proof (rrf_weight_pos k n) as Hw.
  destruct (d' =? d)%nat.
  - apply Qlt_le_weak in Hw.
    change 0%Q with (0 + 0)%Q. by apply Qplus_le_compat.
  - by rewrite Qplus_0_l.
Qed.

Lemma list_weight_pos d ranked : ∀ n,
  d ∈ ranked.*1 → (0 < list_weight k d n ranked)%Q.
Proof.
  induction ranked as [|[d' a] rest IH]; intros n Hd; [by apply elem_of_nil in Hd|].
  cbn [list_weight]. rewrite fmap_cons in Hd. simpl in Hd.
  pose proof (rrf_weight_pos k n) as Hw.
  pose proof (list_weight_nonneg d rest (S n)) as Hr.
  destruct (d' =? d)%nat eqn:E.
  - rewrite <- (Qplus_0_r 0). by apply Qplus_lt_le_compat.
  - apply Nat.eqb_neq in E. apply elem_of_cons in Hd as [->|Hd]; [done|].
    rewrite Qplus_0_l. by apply IH.
Qed.

Lemma fused_weight_nonneg d (ranked_lists : list (list (nat * A))) :
  (0 <= fused_weight k d ranked_lists)%Q.
Proof.
  induction ranked_lists as [|ranked rest IH]; [apply Qle_refl|].
  cbn [fused_weight]. pose proof (list_weight_nonneg d ranked 0).
  change 0%Q with (0 + 0)%Q. by apply Qplus_le_compat.
Qed.

Lemma fused_weight_pos d (ranked_lists : list (list (nat * A))) ranked :
  ranked ∈ ranked_lists → d ∈ ranked.*1 → (0 < fused_weight k d ranked_lists)%Q.
Proof.
  induction ranked_lists as [|r rest IH]; intros Hin Hd; [by apply elem_of_nil in Hin|].
  cbn [fused_weight].
  pose proof (fused_weight_nonneg d rest) as Hrest.
  pose proof (list_weight_nonneg d r 0) as Hr.
  apply elem_of_cons in Hin as [->|Hin].
  - rewrite Qplus_comm, <- (Qplus_0_r 0). apply Qplus_lt_le_compat; [|done].
    by apply list_weight_pos.
  - rewrite <- (Qplus_0_r 0). apply Qplus_lt_le_compat; [|done]. by apply IH.
Qed.
End rrf_weights.

(** What [rrf_fuse] returns. *)
Lemma rrf_fuse_run {A} (ranked_lists : list (list (nat * A))) (k : nat) :
  NoDup (rrf_fuse ranked_lists k).*1 ∧
  (∀ d, d ∈ (rrf_fuse ranked_lists k).*1 ↔
        ∃ ranked, ranked ∈ ranked_lists ∧ d ∈ ranked.*1) ∧
  (∀ d s, (d, s) ∈ rrf_fuse ranked_lists k →
          (s == fused_weight k d ranked_lists)%Q ∧ (0 < s)%Q) ∧
  StronglySorted (fun x y : nat * Q => (y.2 <= x.2)%Q) (rrf_fuse ranked_lists k).
Proof.
  unfold rrf_fuse. split_and!.
  - rewrite (sorted_Permutation _ _). apply rrf_scores_NoDup.
  - intros d. rewrite (sorted_Permutation _ _). apply rrf_scores_keys.
  - intros d s Hin. apply elem_of_sorted in Hin.
    assert (d ∈ (rrf_scores ranked_lists k).*1) as Hkey.
    { apply list_elem_of_fmap. by exists (d, s). }
    apply dict_get_elem_of in Hin; [|apply rrf_scores_NoDup].
    pose proof (rrf_scores_score k ranked_lists d) as Hs.
    unfold score_of in Hs. rewrite Hin in Hs. simpl in Hs.
    split; [done|]. rewrite Hs.
    apply rrf_scores_keys in Hkey as (ranked & Hr & Hd).
    by eapply fused_weight_pos.
  - apply fused_descending.
Qed.

(** X10.  [rrf_fuse] returns every position that occurs in
    some input list, and no other, exactly once; its score is the sum,
    over its occurrences at rank r (from 0) in the lists, of
    1 / (k + r + 1), a positive number; and the result is in descending
    order of score.  No list, or only empty lists, gives the empty
    result. *)
Theorem rrf_fuse_contract {A : Type} (ranked_lists : list (list (nat * A))) (k : nat) :
  NoDup (rrf_fuse ranked_lists k).*1 ∧
  (∀ d, d ∈ (rrf_fuse ranked_lists k).*1 ↔
        ∃ ranked, ranked ∈ ranked_lists ∧ d ∈ ranked.*1) ∧
  (∀ d s, (d, s) ∈ rrf_fuse ranked_lists k →
          (s == fused_weight k d ranked_lists)%Q ∧ (0 < s)%Q) ∧
  StronglySorted (fun x y : nat * Q => (y.2 <= x.2)%Q) (rrf_fuse ranked_lists k) ∧
  (rrf_fuse ranked_lists k = [] ↔ ∀ ranked, ranked ∈ ranked_lists → ranked = []).
Proof.
  destruct (rrf_fuse_run ranked_lists k) as (Hnd & Hkeys & Hscore & Hsorted).
  split_and!; [done..|]. split.
  - intros Hnil ranked Hin. destruct ranked as [|[d a] ranked]; [done|].
    assert (d ∈ (rrf_fuse ranked_lists k).*1) as Hd.
    { apply Hkeys. exists ((d, a) :: ranked). split; [done|]. by left. }
    rewrite Hnil in Hd. by apply elem_of_nil in Hd.
  - intros Hall. destruct (rrf_fuse ranked_lists k) as [|[d s] rest] eqn:Hf; [done|].
    assert (d ∈ ((d, s) :: rest).*1) as Hd by (by left).
    apply Hkeys in Hd as (ranked & Hin & Hd).
    rewrite (Hall ranked Hin) in Hd. by apply elem_of_nil in Hd.
Qed.

(** ** Reciprocal rank fusion: one ranking *)

Lemma rrf_weight_lt k i j : (i < j)%nat → (rrf_weight k j < rrf_weight k i)%Q.
Proof.
  induction 1 as [|j Hle IH].
  - apply rrf_weight_succ.
  - eapply Qlt_trans; [apply rrf_weight_succ|exact IH].
Qed.

Lemma dict_add_fresh scores d x :
  d ∉ scores.*1 → dict_add scores d x = scores ++ [(d, (0 + x)%Q)].
Proof.
  induction scores as [|[d' s] scores IH]; intros Hd; [done|].
  rewrite fmap_cons, not_elem_of_cons in Hd. destruct Hd as [Hne Hd].
  simpl in *. destruct (d' =? d)%nat eqn:E.
  - apply Nat.eqb_eq in E. congruence.
  - by rewrite IH.
Qed.

Lemma rrf_inner_fresh {A} k (ranked : list (nat * A)) : ∀ n scores,
  NoDup ranked.*1 →
  (∀ d, d ∈ ranked.*1 → d ∉ scores.*1) →
  foldl (rrf_step k) scores (enumerate_from n ranked) = scores ++ rank_entries k n ranked.
Proof.
  unfold rank_entries.
  induction ranked as [|[d a] ranked IH]; intros n scores Hnd Hfresh.
  - simpl. by rewrite app_nil_r.
  - rewrite fmap_cons in Hnd. apply NoDup_cons in Hnd as [Hd Hnd]. simpl in Hd.
    rewrite enumerate_from_cons. cbn [foldl rrf_step fmap list_fmap].
    rewrite dict_add_fresh by (apply Hfresh; by left).
    rewrite IH; [by rewrite <- app_assoc| done |].
    intros d' Hd'. rewrite fmap_app, elem_of_app. intros [Hin|Hin].
    + eapply Hfresh; [|exact Hin]. by right.
    + simpl in Hin. apply list_elem_of_singleton in Hin. by subst.
Qed.

Lemma sorted_id {A} (le : A → A → bool) l :
  StronglySorted (fun x y => le x y = true) l → Py.sorted le l = l.
Proof.
  induction 1 as [|x l Hl IH Hx]; [done|]. simpl. rewrite IH.
  destruct l as [|y l]; [done|]. simpl.
  apply Forall_cons in Hx as [-> _]. done.
Qed.

Lemma rank_entries_sorted {A} k (ranked : list (nat * A)) : ∀ n,
  StronglySorted (fun x y : nat * Q => Qle_bool (- x.2) (- y.2) = true)
    (rank_entries k n ranked).
Proof.
  unfold rank_entries.
  induction ranked as [|[d a] ranked IH]; intros n; [constructor|].
  rewrite enumerate_from_cons. cbn [fmap list_fmap]. constructor; [apply IH|].
  apply Forall_fmap, Forall_forall. intros [i [d' a']] Hin.
  apply elem_of_lookup_imap_1 in Hin as (j & x & [= -> <-] & _).
  simpl. apply Qle_bool_iff, Qopp_le_compat.
  rewrite !Qplus_0_l. apply Qlt_le_weak, rrf_weight_lt. lia.
Qed.

Lemma rank_entries_fst {A} k (ranked : list (nat * A)) : ∀ n,
  (rank_entries k n ranked).*1 = ranked.*1.
Proof.
  unfold rank_entries.
  induction ranked as [|[d a] ranked IH]; intros n; [done|].
  rewrite enumerate_from_cons. cbn [fmap list_fmap]. simpl. f_equal. apply IH.
Qed.

Lemma rrf_scores_snoc_nil {A} (ranked_lists : list (list (nat * A))) k :
  rrf_scores (ranked_lists ++ [[]]) k = rrf_scores ranked_lists k.
Proof. unfold rrf_scores. by rewrite foldl_app. Qed.

Lemma rrf_fuse_one {A} (ranked : list (nat * A)) k :
  NoDup ranked.*1 → rrf_fuse [ranked] k = rank_entries k 0 ranked.
Proof.
  intros Hnd. unfold rrf_fuse, rrf_scores. cbn [foldl].
  rewrite enumerate_from_0, rrf_inner_fresh; [|done|].
  - simpl. apply sorted_id, rank_entries_sorted.
  - intros d _ Hd. by apply elem_of_nil in Hd.
Qed.

(** X11.  Fusing one ranking (no position twice) gives the
    ranking back: the same positions in the same order, the position at
    rank r with the score 1 / (k + r + 1).  A further, empty list changes
    nothing: this is the hybrid search when the other retriever has no
    hit. *)
Theorem rrf_fuse_single_ranking {A : Type} (ranked : list (nat * A)) (k : nat) :
  NoDup ranked.*1 →
  (rrf_fuse [ranked] k).*1 = ranked.*1 ∧
  rrf_fuse [ranked; []] k = rrf_fuse [ranked] k ∧
  ∀ r d s, rrf_fuse [ranked] k !! r = Some (d, s) →
           ranked.*1 !! r = Some d ∧ (s == rrf_weight k r)%Q.
Proof.
  intros Hnd. rewrite rrf_fuse_one by done. split_and!.
  - apply rank_entries_fst.
  - unfold rrf_fuse at 1. change [ranked; []] with ([ranked] ++ [[]]).
    rewrite rrf_scores_snoc_nil. by rewrite <- rrf_fuse_one.
  - intros r d s Hr. unfold rank_entries in Hr.
    rewrite list_lookup_fmap in Hr.
    destruct (enumerate_from 0 ranked !! r) as [[i [d' a]]|] eqn:Hi; [|done].
    simpl in Hr. simplify_eq.
    unfold enumerate_from in Hi. rewrite list_lookup_imap in Hi.
    destruct (ranked !! r) as [[d'' a']|] eqn:Hd; [|done]. simpl in Hi. simplify_eq.
    rewrite list_lookup_fmap, Hd. simpl. split; [done|]. ring.
Qed.

Lemma rrf_fuse_single_ranking_witness :
  (rrf_fuse [[(7, tt); (3, tt); (5, tt)]] 60).*1 = [7; 3; 5] ∧
  rrf_fuse [[(7, tt); (3, tt); (5, tt)]; []] 60 = rrf_fuse [[(7, tt); (3, tt); (5, tt)]] 60.
Proof.
  destruct (rrf_fuse_single_ranking [(7, tt); (3, tt); (5, tt)] 60) as (H1 & H2 & _).
  - cbn. repeat (apply NoDup_cons_2; [set_solver|]). apply NoDup_nil_2.
  - split; [exact H1|exact H2].
Defined.

(** ** The order of file names *)

Lemma ascii_compare_N a b : Ascii.compare a b = N.compare (N_of_ascii a) (N_of_ascii b).
Proof. reflexivity. Qed.

Lemma ascii_compare_lt_trans a b c :
  Ascii.compare a b = Lt → Ascii.compare b c = Lt → Ascii.compare a c = Lt.
Proof. rewrite !ascii_compare_N, !N.compare_lt_iff. lia. Qed.

Lemma string_compare_lt_trans s1 : ∀ s2 s3,
  String.compare s1 s2 = Lt → String.compare s2 s3 = Lt → String.compare s1 s3 = Lt.
Proof.
  induction s1 as [|a s1 IH]; intros [|b s2] [|c s3]; simpl; try done.
  destruct (Ascii.compare a b) eqn:Hab; [|clear IH|done].
  - apply Ascii.compare_eq_iff in Hab as ->.
    destruct (Ascii.compare b c); [apply IH|done|by intros _ [=]].
  - destruct (Ascii.compare b c) eqn:Hbc; [| |by intros _ [=]].
    + apply Ascii.compare_eq_iff in Hbc as <-. by rewrite Hab.
    + intros _ _. by rewrite (ascii_compare_lt_trans a b c Hab Hbc).
Qed.

Lemma string_leb_compare s1 s2 :
  String.leb s1 s2 = true ↔ String.compare s1 s2 = Lt ∨ s1 = s2.
Proof.
  unfold String.leb. destruct (String.compare s1 s2) eqn:Hc.
  - apply String.compare_eq_iff in Hc. naive_solver.
  - naive_solver.
  - split; [done|]. intros [?| ->]; [done|].
    assert (String.compare s2 s2 = Eq) as Heq.
    { clear Hc. induction s2 as [|c s IH]; [done|]. simpl.
      rewrite ascii_compare_N, N.compare_refl. exact IH. }
    congruence.
Qed.

Lemma string_leb_trans s1 s2 s3 :
  String.leb s1 s2 = true → String.leb s2 s3 = true → String.leb s1 s3 = true.
Proof.
  rewrite !string_leb_compare. intros [H1| ->] [H2| ->]; eauto.
  left. by eapply string_compare_lt_trans.
Qed.

Lemma string_leb_false s1 s2 : String.leb s1 s2 = false → String.leb s2 s1 = true.
Proof. intros H. destruct (String.leb_total s1 s2); congruence. Qed.

(** Folder entries come in the order of their names. *)
Lemma iterdir_sorted_sorted (d : Folder) :
  StronglySorted (fun a b : string => String.leb a b = true) (iterdir_sorted d).*1.
Proof.
  assert (StronglySorted (fun x y : string * File => String.leb x.1 y.1 = true)
            (iterdir_sorted d)) as Hs.
  { apply sorted_StronglySorted.
    - intros x y. apply string_leb_false.
    - intros x y z. apply string_leb_trans. }
  induction Hs as [|x l Hl IH Hx]; [constructor|].
  rewrite fmap_cons. constructor; [done|]. by apply Forall_fmap.
Qed.

(** ** The source folder: what is hashed and what is loaded *)

(** X12.  [compute_file_hashes] has exactly one entry
    for every file of the folder whose extension is supported, the
    SHA-256 digest of the file; files with another extension are left
    out, and an empty folder gives the empty table. *)
Theorem compute_file_hashes_contract (docs_dir : Folder) :
  (∀ name h,
     compute_file_hashes docs_dir !! name = Some h ↔
     supported name = true ∧ ∃ f, docs_dir !! name = Some f ∧ h = sha256_hexdigest f) ∧
  (∀ name, supported name = false → compute_file_hashes docs_dir !! name = None) ∧
  (docs_dir = ∅ → compute_file_hashes docs_dir = ∅).
Proof.
  split_and!.
  - intros name h. rewrite compute_file_hashes_lookup.
    destruct (supported name); [|naive_solver].
    destruct (docs_dir !! name) as [f|]; simpl; naive_solver.
  - intros name Hn. by rewrite compute_file_hashes_lookup, Hn.
  - intros ->. apply map_eq. intros name.
    rewrite compute_file_hashes_lookup, !lookup_empty. by destruct (supported name).
Qed.

Lemma elem_of_loaded entries name text :
  (name, text) ∈ loaded entries ↔
  ∃ f, (name, f) ∈ entries ∧ supported name = true ∧
       Py.strip_nonempty (extracted_text f) = true ∧ text = extracted_text f.
Proof.
  unfold loaded. rewrite list_elem_of_fmap. split.
  - intros ([n f] & [= -> ->] & Hin). apply list_elem_of_filter in Hin as [[Hs Ht] Hin].
    by exists f.
  - intros (f & Hin & Hs & Ht & ->). exists (name, f). split; [done|].
    by apply list_elem_of_filter.
Qed.

Lemma indexed_names_sorted (d : Folder) :
  StronglySorted (fun a b : string => String.leb a b = true) (indexed_names d).
Proof.
  unfold indexed_names. rewrite loaded_names.
  eapply StronglySorted_sublist; [|apply iterdir_sorted_sorted].
  apply fmap_sublist, sublist_filter.
Qed.

Lemma indexed_names_NoDup (d : Folder) : NoDup (indexed_names d).
Proof. apply loaded_NoDup, iterdir_sorted_NoDup. Qed.

Lemma elem_of_indexed_names (d : Folder) name :
  name ∈ indexed_names d ↔
  ∃ f, d !! name = Some f ∧ has_text (name, f).
Proof.
  unfold indexed_names, has_text. rewrite list_elem_of_fmap. split.
  - intros ([n text] & -> & Hin). apply elem_of_loaded in Hin as (f & Hin & Hs & Ht & _).
    apply elem_of_iterdir_sorted in Hin. by exists f.
  - intros (f & Hf & Hs & Ht). exists (name, extracted_text f). split; [done|].
    apply elem_of_loaded. exists f. by rewrite elem_of_iterdir_sorted.
Qed.

(** X13.  What [load_documents] returns, when it
    returns: in ascending order of file name and each once, the files of
    the folder that have a supported extension and a text that is not
    blank, each with the text the parser extracted; files with another
    extension and files without text are left out. *)
Theorem load_documents_contract (folder : Folder) (docs : list (string * string)) :
  load_documents folder = Ok docs →
  NoDup docs.*1 ∧
  StronglySorted (fun a b : string => String.leb a b = true) docs.*1 ∧
  ∀ name text,
    (name, text) ∈ docs ↔
    ∃ f, folder !! name = Some f ∧ supported name = true ∧
         Py.strip_nonempty (extracted_text f) = true ∧ text = extracted_text f.
Proof.
  rewrite load_documents_run. intros [= <-]. split_and!.
  - apply indexed_names_NoDup.
  - apply indexed_names_sorted.
  - intros name text. rewrite elem_of_loaded.
    by setoid_rewrite elem_of_iterdir_sorted.
Qed.

Lemma load_documents_contract_witness :
  load_documents folder_mixed = Ok [("a.PDF", "Hello world."); ("b.docx", "Second file.")] ∧
  NoDup [("a.PDF", "Hello world."); ("b.docx", "Second file.")].*1.
Proof.
  assert (load_documents folder_mixed
          = Ok [("a.PDF", "Hello world."); ("b.docx", "Second file.")]) as Hrun
    by (vm_compute; reflexivity).
  split; [exact Hrun|].
  exact (proj1 (load_documents_contract folder_mixed _ Hrun)).
Defined.

(** ** [_rebuild_manifest_ranges] *)

Lemma rebuild_lookup {Row} (s : @HybridIndex.t Row) f :
  HybridIndex.manifest (HybridIndex._rebuild_manifest_ranges s) !! f
  = match HybridIndex.manifest s !! f with
    | Some e =>
        Some (match foldl HybridIndex.ranges_step ∅
                      (Py.enumerate (HybridIndex.chunks s)) !! f with
              | Some r => {| hash := hash e; chunk_start := r.1; chunk_end := r.2 |}
              | None => e
              end)
    | None => None
    end.
Proof. unfold HybridIndex._rebuild_manifest_ranges. simpl. apply set_ranges_lookup. Qed.

(** What [_rebuild_manifest_ranges] does to the entry of one file. *)
Lemma rebuild_entry {Row} (s : @HybridIndex.t Row) f :
  match HybridIndex.manifest s !! f with
  | None => HybridIndex.manifest (HybridIndex._rebuild_manifest_ranges s) !! f = None
  | Some e =>
      ∃ e', HybridIndex.manifest (HybridIndex._rebuild_manifest_ranges s) !! f = Some e' ∧
            hash e' = hash e ∧
            ((∃ j, named (HybridIndex.chunks s) j f) →
             (chunk_start e' < chunk_end e')%nat ∧
             spans (HybridIndex.chunks s) f (chunk_start e') (chunk_end e' - 1)) ∧
            ((∀ j, ¬ named (HybridIndex.chunks s) j f) → e' = e)
  end.
Proof.
  rewrite rebuild_lookup.
  destruct (HybridIndex.manifest s !! f) as [e|]; [|done].
  pose proof (ranges_loop (HybridIndex.chunks s) f) as Hr.
  destruct (foldl _ _ _ !! f) as [[st en]|].
  - destruct Hr as (Hse & Hs & Hen & Hall).
    eexists. split; [done|]. simpl. split_and!; [done| |].
    + intros _. split; [lia|]. split_and!; [done..|].
      intros j Hj. specialize (Hall j Hj). lia.
    + intros Hno. by destruct (Hno st).
  - eexists. split; [done|]. split_and!; [done| |done].
    intros [j Hj]. by destruct (Hr j).
Qed.

(** X14.  [_rebuild_manifest_ranges] changes
    nothing but ranges: the chunks, the embeddings, the BM25 model, the
    set of manifest entries and their hashes stay.  The entry of a file
    that has chunks gets the range from its first chunk to just after its
    last one; the entry of a file without chunks keeps its old range; a
    chunk whose file is not in the manifest gets no entry.  Doing it
    twice is doing it once. *)
Theorem rebuild_manifest_ranges_contract {Row : Type} (s : @HybridIndex.t Row) :
  HybridIndex.chunks (HybridIndex._rebuild_manifest_ranges s) = HybridIndex.chunks s ∧
  HybridIndex.embeddings (HybridIndex._rebuild_manifest_ranges s)
    = HybridIndex.embeddings s ∧
  HybridIndex.bm25 (HybridIndex._rebuild_manifest_ranges s) = HybridIndex.bm25 s ∧
  dom (HybridIndex.manifest (HybridIndex._rebuild_manifest_ranges s))
    = dom (HybridIndex.manifest s) ∧
  (∀ f e, HybridIndex.manifest s !! f = Some e →
     ∃ e', HybridIndex.manifest (HybridIndex._rebuild_manifest_ranges s) !! f = Some e' ∧
           hash e' = hash e ∧
           ((∃ j, named (HybridIndex.chunks s) j f) →
            (chunk_start e' < chunk_end e')%nat ∧
            spans (HybridIndex.chunks s) f (chunk_start e') (chunk_end e' - 1)) ∧
           ((∀ j, ¬ named (HybridIndex.chunks s) j f) → e' = e)) ∧
  HybridIndex._rebuild_manifest_ranges (HybridIndex._rebuild_manifest_ranges s)
    = HybridIndex._rebuild_manifest_ranges s.
Proof.
  split_and!; [done..| | |].
  - apply set_eq. intros f. rewrite !elem_of_dom.
    pose proof (rebuild_entry s f) as Hf.
    destruct (HybridIndex.manifest s !! f) as [e|].
    + destruct Hf as (e' & -> & _). split; by eexists.
    + rewrite Hf. done.
  - intros f e He. pose proof (rebuild_entry s f) as Hf. by rewrite He in Hf.
  - unfold HybridIndex._rebuild_manifest_ranges at 1.
    change (HybridIndex.chunks (HybridIndex._rebuild_manifest_ranges s))
      with (HybridIndex.chunks s).
    change (HybridIndex.embeddings (HybridIndex._rebuild_manifest_ranges s))
      with (HybridIndex.embeddings s).
    change (HybridIndex.bm25 (HybridIndex._rebuild_manifest_ranges s))
      with (HybridIndex.bm25 s).
    unfold HybridIndex._rebuild_manifest_ranges at 2. f_equal.
    apply map_eq. intros f.
    rewrite !set_ranges_lookup, rebuild_lookup.
    destruct (HybridIndex.manifest s !! f) as [e|]; [|done].
    by destruct (foldl _ _ _ !! f).
Qed.

(** ** [fit] starts afresh *)

Lemma fit_params (m m' : BM25.t) texts :
  BM25.k1 m = BM25.k1 m' → BM25.b m = BM25.b m' → BM25.fit m texts = BM25.fit m' texts.
Proof.
  intros Hk Hb. unfold BM25.fit. destruct (foldl _ _ _) as [[tfs lens] df].
  by rewrite Hk, Hb.
Qed.

Lemma fit_default m texts : default_params m → BM25.fit m texts = BM25.fit BM25.new texts.
Proof. intros [Hk Hb]. by apply fit_params. Qed.

Lemma fit_default_params m texts : default_params m → default_params (BM25.fit m texts).
Proof. intros [Hk Hb]. split; [by rewrite fit_k1|by rewrite fit_b]. Qed.

Lemma fitted_default_params {Row} (s : @HybridIndex.t Row) :
  fitted s → default_params (HybridIndex.bm25 s).
Proof. intros ->. by apply fit_default_params. Qed.

(** ** What [build] leaves *)

Lemma build_loop_chunks file_hashes docs : ∀ cs (m : Manifest),
  (foldl (HybridIndex.build_doc file_hashes) (cs, m) docs).1
  = cs ++ concat (map (fun doc : string * string =>
                         make_chunks doc.1
                           (chunk_text doc.2 config.CHUNK_SIZE config.CHUNK_OVERLAP)) docs).
Proof.
  induction docs as [|[fname doc_text] docs IH]; intros cs m.
  - simpl. by rewrite app_nil_r.
  - cbn [foldl HybridIndex.build_doc]. rewrite IH. simpl. by rewrite <- app_assoc.
Qed.

Lemma loaded_doc_chunks (d : Folder) :
  map (fun doc : string * string =>
         make_chunks doc.1 (chunk_text doc.2 config.CHUNK_SIZE config.CHUNK_OVERLAP))
      (loaded (iterdir_sorted d))
  = map (doc_chunks d) (indexed_names d).
Proof.
  unfold indexed_names. change map with (@fmap list _). rewrite <- list_fmap_compose.
  apply Forall_fmap_ext_1, Forall_forall. intros [name text] Hin.
  apply elem_of_loaded in Hin as (f & Hf & _ & _ & ->).
  apply elem_of_iterdir_sorted in Hf. simpl. unfold doc_chunks. by rewrite Hf.
Qed.

Section built.
Context {Row : Type} (embed_text : string → Row).
Context (docs_dir : Folder) (w : @HybridIndex.World Row).

(** The state [build] leaves. *)
Lemma build_state :
  ∃ w',
    HybridIndex.build embed_text docs_dir w = Ok (tt, w') ∧
    HybridIndex.chunks (HybridIndex.self w')
      = concat (map (doc_chunks docs_dir) (indexed_names docs_dir)) ∧
    HybridIndex.embeddings (HybridIndex.self w')
      = Some (HybridIndex.embed embed_text (map text (HybridIndex.chunks (HybridIndex.self w')))) ∧
    HybridIndex.bm25 (HybridIndex.self w')
      = BM25.fit (HybridIndex.bm25 (HybridIndex.self w))
                 (map text (HybridIndex.chunks (HybridIndex.self w'))) ∧
    (∀ f, is_Some (HybridIndex.manifest (HybridIndex.self w') !! f) ↔
          f ∈ indexed_names docs_dir) ∧
    (∀ f e, HybridIndex.manifest (HybridIndex.self w') !! f = Some e →
            compute_file_hashes docs_dir !! f = Some (hash e)) ∧
    HybridIndex.index_dir w'
      = {| HybridIndex.manifest_json := Some (HybridIndex.manifest (HybridIndex.self w'));
           HybridIndex.chunks_json := Some (HybridIndex.chunks (HybridIndex.self w'));
           HybridIndex.embeddings_npy := HybridIndex.embeddings (HybridIndex.self w') |} ∧
    wf (HybridIndex.self w').
Proof.
  pose proof (build_loop_chunks (compute_file_hashes docs_dir)
                (loaded (iterdir_sorted docs_dir)) [] ∅) as Hchunks.
  destruct (build_loop (compute_file_hashes docs_dir)
              (loaded (iterdir_sorted docs_dir)) [] ∅)
    as (cs & m & Hrun & Hk & Hr & _ & Hm & _ & Hh).
  { apply loaded_NoDup, iterdir_sorted_NoDup. }
  { intros c Hc. by apply elem_of_nil in Hc. }
  { intros c Hc. by apply elem_of_nil in Hc. }
  { intros f e He. by rewrite lookup_empty in He. }
  rewrite Hrun in Hchunks. simpl in Hchunks. rewrite loaded_doc_chunks in Hchunks.
  eexists. split.
  { unfold HybridIndex.build, HybridIndex.bind, HybridIndex.lift.
    rewrite load_documents_run.
    unfold HybridIndex.get_self, HybridIndex.put_self, HybridIndex.save,
      HybridIndex.bind, HybridIndex.get_index_dir, HybridIndex.put_index_dir.
    rewrite Hrun. done. }
  simpl. split_and!; [done..| | | |].
  - intros f. rewrite Hm, lookup_empty. split; [|by right].
    intros [[? ?]|?]; done.
  - intros f e He.
    assert (f ∈ indexed_names docs_dir) as Hf.
    { assert (is_Some (m !! f)) as Hs by (by eexists).
      apply Hm in Hs as [[? Hs]|Hs]; [by rewrite lookup_empty in Hs|done]. }
    rewrite (Hh f e He Hf).
    apply elem_of_indexed_names in Hf as (file & Hfile & Hs & _). simpl in Hs.
    by rewrite compute_file_hashes_lookup, Hs, Hfile.
  - done.
  - split; [|done]. unfold aligned, rows_of, HybridIndex.embed. simpl.
    by rewrite !length_map.
Qed.
End built.

(** ** Saving and loading *)

Lemma load_fitted {Row} (d : @HybridIndex.IndexDir Row) idx :
  HybridIndex.load d = Ok idx → fitted idx.
Proof.
  unfold HybridIndex.load, fitted.
  destruct (HybridIndex.manifest_json d) as [m|];
    [|intros [= <-]; symmetry; exact fit_nil].
  destruct (HybridIndex.chunks_json d) as [cs|]; [|done]. cbn [rbind].
  intros [= <-]. destruct cs as [|c cs]; [symmetry; exact fit_nil|done].
Qed.

Lemma load_saved {Row} (s : @HybridIndex.t Row) (d : @HybridIndex.IndexDir Row) rows :
  HybridIndex.embeddings s = Some rows →
  fitted s →
  HybridIndex.load (saved s d) = Ok s.
Proof.
  intros Hrows Hfit. unfold fitted in Hfit.
  destruct s as [cs embs m model]. cbn [HybridIndex.embeddings HybridIndex.bm25
    HybridIndex.chunks] in *. subst embs model.
  unfold HybridIndex.load, saved.
  cbn [HybridIndex.manifest_json HybridIndex.chunks_json HybridIndex.embeddings_npy
       HybridIndex.manifest HybridIndex.chunks HybridIndex.embeddings rbind].
  do 2 f_equal. destruct cs as [|c cs]; [symmetry; exact fit_nil|done].
Qed.

(** X15.  Saving an index that has an embedding matrix and
    loading it again gives the chunk list, the manifest and the matrix
    back, with a BM25 model fitted on the chunk texts; so it gives the
    same index back when the model of the saved index was fitted on its
    chunks.  [save] does not change the index. *)
Theorem save_load_round_trip {Row : Type} (w : @HybridIndex.World Row) (rows : list Row) :
  HybridIndex.embeddings (HybridIndex.self w) = Some rows →
  ∃ w' idx,
    HybridIndex.save w = Ok (tt, w') ∧
    HybridIndex.self w' = HybridIndex.self w ∧
    HybridIndex.load (HybridIndex.index_dir w') = Ok idx ∧
    HybridIndex.chunks idx = HybridIndex.chunks (HybridIndex.self w) ∧
    HybridIndex.manifest idx = HybridIndex.manifest (HybridIndex.self w) ∧
    HybridIndex.embeddings idx = Some rows ∧
    fitted idx ∧
    (fitted (HybridIndex.self w) → idx = HybridIndex.self w).
Proof.
  intros Hrows.
  destruct (HybridIndex.load (saved (HybridIndex.self w) (HybridIndex.index_dir w)))
    as [idx|e] eqn:Hload; [|by unfold HybridIndex.load, saved in Hload].
  exists {| HybridIndex.self := HybridIndex.self w;
            HybridIndex.index_dir := saved (HybridIndex.self w) (HybridIndex.index_dir w) |},
         idx.
  split; [done|]. split; [done|]. split; [exact Hload|].
  pose proof (load_fitted _ _ Hload) as Hfit.
  assert (fitted (HybridIndex.self w) → idx = HybridIndex.self w) as Hsame.
  { intros Hw. rewrite (load_saved _ _ rows Hrows Hw) in Hload. by injection Hload. }
  unfold HybridIndex.load, saved in Hload.
  cbn [HybridIndex.manifest_json HybridIndex.chunks_json HybridIndex.embeddings_npy
       rbind] in Hload.
  rewrite Hrows in Hload. injection Hload as <-. done.
Qed.

Lemma save_load_round_trip_witness :
  ∃ w' idx,
    HybridIndex.save world_v1 = Ok (tt, w') ∧
    HybridIndex.self w' = HybridIndex.self world_v1 ∧
    HybridIndex.load (HybridIndex.index_dir w') = Ok idx ∧
    HybridIndex.chunks idx = HybridIndex.chunks (HybridIndex.self world_v1).
Proof.
  destruct (save_load_round_trip world_v1 [12] eq_refl)
    as (w' & idx & H1 & H2 & H3 & H4 & _).
  exists w', idx. split; [exact H1|]. split; [exact H2|]. split; [exact H3|exact H4].
Defined.

(** X16.  What [build] leaves when it returns, whatever the
    index held before.  The chunk list is, file after file in ascending
    order of name, the chunks of every supported file whose text is not
    blank; it has an embedding row per chunk, computed from the chunk
    text, and the BM25 model is fitted on the chunk texts; the manifest
    has exactly those files, each with its current hash; the result is
    consistent, all three artifacts are written, and loading them gives
    the built index back. *)
Theorem build_contract {Row : Type} (embed_text : string → Row)
    (docs_dir : Folder) (w w' : @HybridIndex.World Row) :
  HybridIndex.build embed_text docs_dir w = Ok (tt, w') →
  HybridIndex.chunks (HybridIndex.self w')
    = concat (map (doc_chunks docs_dir) (indexed_names docs_dir)) ∧
  HybridIndex.embeddings (HybridIndex.self w')
    = Some (map embed_text (map text (HybridIndex.chunks (HybridIndex.self w')))) ∧
  HybridIndex.bm25 (HybridIndex.self w')
    = BM25.fit (HybridIndex.bm25 (HybridIndex.self w))
               (map text (HybridIndex.chunks (HybridIndex.self w'))) ∧
  (∀ f, is_Some (HybridIndex.manifest (HybridIndex.self w') !! f) ↔
        ∃ file, docs_dir !! f = Some file ∧ supported f = true ∧
                Py.strip_nonempty (extracted_text file) = true) ∧
  (∀ f e, HybridIndex.manifest (HybridIndex.self w') !! f = Some e →
          ∃ file, docs_dir !! f = Some file ∧ hash e = sha256_hexdigest file) ∧
  wf (HybridIndex.self w') ∧
  HybridIndex.index_dir w'
    = {| HybridIndex.manifest_json := Some (HybridIndex.manifest (HybridIndex.self w'));
         HybridIndex.chunks_json := Some (HybridIndex.chunks (HybridIndex.self w'));
         HybridIndex.embeddings_npy := HybridIndex.embeddings (HybridIndex.self w') |} ∧
  (default_params (HybridIndex.bm25 (HybridIndex.self w)) →
   HybridIndex.load (HybridIndex.index_dir w') = Ok (HybridIndex.self w')).
Proof.
  intros Hbuild.
  destruct (build_state embed_text docs_dir w)
    as (w'' & Hrun & Hcs & Hemb & Hbm & Hm & Hh & Hdir & Hwf).
  rewrite Hbuild in Hrun. injection Hrun as <-.
  split_and!; [done..| | |done|done|].
  - intros f. rewrite Hm, elem_of_indexed_names. unfold has_text. simpl. naive_solver.
  - intros f e He. specialize (Hh f e He).
    rewrite compute_file_hashes_lookup in Hh.
    destruct (supported f); [|done].
    destruct (docs_dir !! f) as [file|]; [|done]. simpl in Hh.
    exists file. split; [done|]. congruence.
  - intros Hparams.
    assert (HybridIndex.index_dir w'
            = saved (HybridIndex.self w') (HybridIndex.index_dir w')) as ->.
    { rewrite Hdir at 1. unfold saved. by rewrite Hemb. }
    eapply load_saved; [exact Hemb|].
    unfold fitted. rewrite Hbm. by apply fit_default.
Qed.

Lemma build_contract_witness :
  HybridIndex.build example_embed folder_mixed world_v1
  = Ok (tt, state_after (HybridIndex.build example_embed folder_mixed) world_v1) ∧
  HybridIndex.chunks
    (HybridIndex.self (state_after (HybridIndex.build example_embed folder_mixed) world_v1))
  = concat (map (doc_chunks folder_mixed) (indexed_names folder_mixed)).
Proof.
  assert (HybridIndex.build example_embed folder_mixed world_v1
          = Ok (tt, state_after (HybridIndex.build example_embed folder_mixed) world_v1))
    as Hrun by (vm_compute; reflexivity).
  split; [exact Hrun|].
  exact (proj1 (build_contract example_embed folder_mixed world_v1 _ Hrun)).
Defined.

(** ** Change detection after [build] and [reindex] *)

Section after_build.
Context {Row : Type} (embed_text : string → Row).
Context (docs_dir : Folder) (w : @HybridIndex.World Row).

(** X17.  Straight after [build], [needs_reindex] on
    the same folder reports no changed and no removed file, and reports
    as added exactly the supported files without text, which [build]
    left out of the manifest; so the index counts as up to date exactly
    when the folder has no such file. *)
Theorem needs_reindex_after_build :
  ∃ w' needs added,
    HybridIndex.build embed_text docs_dir w = Ok (tt, w') ∧
    HybridIndex.needs_reindex docs_dir w' = Ok ((needs, added, [], []), w') ∧
    (∀ f, f ∈ added ↔ blank_file docs_dir f) ∧
    (needs = false ↔ ∀ f, ¬ blank_file docs_dir f).
Proof.
  destruct (build_state embed_text docs_dir w)
    as (w' & Hrun & _ & _ & _ & Hm & Hh & _ & _).
  destruct (needs_reindex_run docs_dir w')
    as (needs & added & changed & removed & Hneeds & Ha & Hr & Hc & Hn & _).
  assert (changed = []) as ->.
  { destruct changed as [|f l]; [done|].
    destruct (proj1 (Hc f)) as (h & e & Hh' & He & Hne); [by left|].
    specialize (Hh f e He). congruence. }
  assert (removed = []) as ->.
  { destruct removed as [|f l]; [done|].
    destruct (proj1 (Hr f)) as ([e He] & Hnone); [by left|].
    specialize (Hh f e He). congruence. }
  assert (∀ f, f ∈ added ↔ blank_file docs_dir f) as Hadded.
  { intros f. rewrite Ha, compute_file_hashes_lookup. unfold blank_file.
    rewrite eq_None_not_Some, Hm, elem_of_indexed_names. unfold has_text. simpl.
    destruct (supported f); [|naive_solver].
    destruct (docs_dir !! f) as [file|]; simpl; [|naive_solver].
    destruct (Py.strip_nonempty (extracted_text file)) eqn:Ht.
    - split; [intros [_ Hno]; destruct Hno; by exists file|].
      intros (_ & file' & [= <-] & ?). congruence.
    - split; [intros _; split; [done|by exists file]|].
      intros _. split; [done|]. intros (file' & [= <-] & _ & ?). congruence. }
  exists w', needs, added. split_and!; [done..|].
  rewrite Hn. split.
  - intros (-> & _) f Hf. apply Hadded in Hf. by apply elem_of_nil in Hf.
  - intros Hno. split; [|done]. destruct added as [|f l]; [done|].
    destruct (Hno f). apply Hadded. by left.
Qed.
End after_build.

Section after_reindex.
Context {Row : Type} (embed_text : string → Row).
Context (docs_dir : Folder) (w w' : @HybridIndex.World Row).

Lemma reindex_manifest_matches :
  HybridIndex.reindex embed_text docs_dir w = Ok (tt, w') →
  ∀ f, hash <$> HybridIndex.manifest (HybridIndex.self w') !! f
       = compute_file_hashes docs_dir !! f.
Proof.
  intros Hre f.
  destruct (needs_reindex_run docs_dir w)
    as (needs & added & changed & removed & Hrun & Ha & Hr & Hc & Hn & _).
  destruct needs.
  - destruct (reindex_manifest_current embed_text docs_dir w w' added changed removed
                Hrun Ha Hr Hc Hre) as [Hdom Hhash].
    specialize (Hdom f). specialize (Hhash f).
    destruct (compute_file_hashes docs_dir !! f) as [h|],
             (HybridIndex.manifest (HybridIndex.self w') !! f) as [e|]; simpl.
    + f_equal. symmetry. by apply Hhash.
    + destruct (proj1 Hdom); done.
    + destruct (proj2 Hdom); done.
    + done.
  - rewrite (reindex_eq embed_text docs_dir w false added changed removed Hrun) in Hre.
    injection Hre as <-.
    destruct (proj1 Hn eq_refl) as (-> & -> & ->).
    destruct (compute_file_hashes docs_dir !! f) as [h|] eqn:Hh,
             (HybridIndex.manifest (HybridIndex.self w) !! f) as [e|] eqn:He; simpl.
    + f_equal. destruct (decide (h = hash e)) as [->|Hne]; [done|].
      assert (f ∈ []) as Hin by (apply Hc; by exists h, e).
      by apply elem_of_nil in Hin.
    + assert (f ∈ []) as Hin by (apply Ha; split; [by eexists|done]).
      by apply elem_of_nil in Hin.
    + assert (f ∈ []) as Hin by (apply Hr; split; [by eexists|done]).
      by apply elem_of_nil in Hin.
    + done.
Qed.
End after_reindex.

(** X18.  When [reindex] returns, the manifest
    lists exactly the files of the folder that have a supported
    extension, each with the hash the file has now, the files without
    text included; a [needs_reindex] that follows reports nothing. *)
Theorem reindex_manifest_matches_folder {Row : Type} (embed_text : string → Row)
    (docs_dir : Folder) (w w' : @HybridIndex.World Row) :
  HybridIndex.reindex embed_text docs_dir w = Ok (tt, w') →
  (∀ f h, hash <$> HybridIndex.manifest (HybridIndex.self w') !! f = Some h ↔
          supported f = true ∧ ∃ file, docs_dir !! f = Some file ∧ h = sha256_hexdigest file) ∧
  HybridIndex.needs_reindex docs_dir w' = Ok ((false, [], [], []), w').
Proof.
  intros Hre.
  pose proof (reindex_manifest_matches embed_text docs_dir w w' Hre) as Hm.
  split.
  - intros f h. rewrite Hm, compute_file_hashes_lookup.
    destruct (supported f); [|naive_solver].
    destruct (docs_dir !! f) as [file|]; simpl; naive_solver.
  - destruct (needs_reindex_run docs_dir w')
      as (needs & added & changed & removed & Hrun & Ha & Hr & Hc & Hn & _).
    assert (added = []) as ->.
    { destruct added as [|f l]; [done|].
      destruct (proj1 (Ha f)) as ([h Hh] & Hnone); [by left|].
      specialize (Hm f). rewrite Hnone, Hh in Hm. done. }
    assert (removed = []) as ->.
    { destruct removed as [|f l]; [done|].
      destruct (proj1 (Hr f)) as ([e He] & Hnone); [by left|].
      specialize (Hm f). rewrite Hnone, He in Hm. done. }
    assert (changed = []) as ->.
    { destruct changed as [|f l]; [done|].
      destruct (proj1 (Hc f)) as (h & e & Hh & He & Hne); [by left|].
      specialize (Hm f). rewrite Hh, He in Hm. simpl in Hm. congruence. }
    assert (needs = false) as -> by (by apply Hn).
    done.
Qed.

Lemma reindex_manifest_matches_folder_witness :
  HybridIndex.needs_reindex folder_v2
    (state_after (HybridIndex.reindex example_embed folder_v2) world_v1)
  = Ok ((false, [], [], []),
        state_after (HybridIndex.reindex example_embed folder_v2) world_v1).
Proof.
  exact (proj2 (reindex_manifest_matches_folder example_embed folder_v2 world_v1 _
                  reindex_v2)).
Defined.

(** ** The index in memory stays in step *)

Section in_step.
Context {Row : Type} (embed_text : string → Row).
Context (docs_dir : Folder) (w : @HybridIndex.World Row).

Lemma build_in_step w' :
  default_params (HybridIndex.bm25 (HybridIndex.self w)) →
  HybridIndex.build embed_text docs_dir w = Ok (tt, w') →
  in_step (HybridIndex.self w').
Proof.
  intros Hparams Hbuild.
  destruct (build_state embed_text docs_dir w)
    as (w'' & Hrun & _ & _ & Hbm & _ & _ & _ & Hwf).
  rewrite Hbuild in Hrun. injection Hrun as <-.
  split; [done|]. unfold fitted. rewrite Hbm. by apply fit_default.
Qed.

Lemma reindex_in_step :
  in_step (HybridIndex.self w) →
  ∃ w', HybridIndex.reindex embed_text docs_dir w = Ok (tt, w') ∧
        in_step (HybridIndex.self w').
Proof.
  intros [Hwf Hfit].
  destruct (needs_reindex_run docs_dir w)
    as (needs & added & changed & removed & Hrun & Ha & Hr & Hc & Hn & _).
  destruct needs.
  - destruct (reindex_wf_run embed_text docs_dir w added changed removed
                Hrun Ha Hc Hwf) as (w' & Hre & _ & _ & Hwf').
    exists w'. split; [done|]. split; [done|].
    destruct (remove_step_run (list_to_set removed ∪ list_to_set changed)
                (HybridIndex.self w) (proj1 Hwf)) as (s1 & Hs1 & _).
    destruct (reindex_after_remove embed_text docs_dir w added changed removed
                Hrun Ha Hc s1 Hs1) as (w'' & Hre' & _ & _ & Hbm & _).
    rewrite Hre in Hre'. injection Hre' as <-.
    unfold fitted. rewrite Hbm. apply fit_default. by apply fitted_default_params.
  - exists w.
    by rewrite (reindex_eq embed_text docs_dir w false added changed removed Hrun).
Qed.
End in_step.

(** X19.  In memory the three representations stay in step
    through [build] and [reindex]: when [build] returns on an index with
    the default BM25 parameters, and when [reindex] returns on an index
    that was in step, the matrix has one row per chunk, every chunk
    belongs to a file of the manifest, every manifest range is exactly
    the set of positions of its file's chunks, and the BM25 model is the
    one fitted on the chunk texts in chunk order. *)
Theorem index_stays_in_step {Row : Type} (embed_text : string → Row)
    (docs_dir : Folder) (w w' : @HybridIndex.World Row) :
  (default_params (HybridIndex.bm25 (HybridIndex.self w)) →
   HybridIndex.build embed_text docs_dir w = Ok (tt, w') →
   in_step (HybridIndex.self w')) ∧
  (in_step (HybridIndex.self w) →
   HybridIndex.reindex embed_text docs_dir w = Ok (tt, w') →
   in_step (HybridIndex.self w')).
Proof.
  split.
  - apply build_in_step.
  - intros Hstep Hre.
    destruct (reindex_in_step embed_text docs_dir w Hstep) as (w'' & Hrun & Hstep').
    rewrite Hre in Hrun. by injection Hrun as <-.
Qed.

Lemma index_stays_in_step_witness :
  in_step (HybridIndex.self world_v1) ∧
  in_step (HybridIndex.self
             (state_after (HybridIndex.reindex example_embed folder_v2) world_v1)).
Proof.
  assert (in_step (HybridIndex.self world_v1)) as Hv1.
  { exact (proj1 (index_stays_in_step example_embed folder_v1 empty_world world_v1)
             (conj eq_refl eq_refl) build_v1). }
  split; [exact Hv1|].
  exact (proj2 (index_stays_in_step example_embed folder_v2 world_v1 _) Hv1 reindex_v2).
Defined.

(** ** Hybrid search *)

Section hybrid_search_facts.
Context {Row : Type} (embed_text : string → Row).
Context (norm : Row → R) (dot : Row → Row → R) (round : Q → nat → Q).

Lemma cosine_scores_length embeddings q_emb :
  length (cosine_scores norm dot embeddings q_emb) = length embeddings.
Proof. unfold cosine_scores. rewrite length_zip_with, !length_map. lia. Qed.

Lemma elem_of_enumerate_lt {A} (l : list A) i x :
  (i, x) ∈ Py.enumerate l → (i < length l)%nat.
Proof.
  intros Hin. apply elem_of_lookup_imap_1 in Hin as (j & y & [= -> ->] & Hy).
  by eapply lookup_lt_Some.
Qed.

Lemma cosine_ranking_lt embeddings query i x :
  (i, x) ∈ cosine_ranking embed_text norm dot embeddings query →
  (i < length embeddings)%nat.
Proof.
  unfold cosine_ranking. intros Hin. apply elem_of_sorted in Hin.
  apply elem_of_enumerate_lt in Hin. by rewrite cosine_scores_length in Hin.
Qed.

Lemma cosine_ranking_NoDup embeddings query :
  NoDup (cosine_ranking embed_text norm dot embeddings query).*1.
Proof.
  unfold cosine_ranking. rewrite (sorted_Permutation _ _), enumerate_fst.
  apply NoDup_seq.
Qed.

Lemma cosine_ranking_length embeddings query :
  length (cosine_ranking embed_text norm dot embeddings query) = length embeddings.
Proof.
  unfold cosine_ranking, Py.enumerate.
  by rewrite sorted_length, length_imap, cosine_scores_length.
Qed.

(** The result loop on positions that are all in range. *)
Lemma search_loop chunks items : ∀ results,
  (∀ item, item ∈ items → (item.1 < length chunks)%nat) →
  ∃ hits,
    foldlM (search_step round chunks) results items = Ok (results ++ hits) ∧
    Forall2 (hit_of round chunks) hits items.
Proof.
  induction items as [|[idx score] items IH]; intros results Hin.
  - exists []. simpl. by rewrite app_nil_r.
  - destruct (lookup_lt_is_Some_2 chunks idx) as [chunk Hchunk].
    { apply (Hin (idx, score)). by left. }
    cbn [foldlM search_step]. rewrite (getitem_ok _ _ _ Hchunk). cbn [rbind].
    destruct (IH (results ++ [{| SearchHit.text := text chunk;
                                 SearchHit.filename := filename chunk;
                                 SearchHit.chunk_idx := chunk_idx chunk;
                                 SearchHit.score := round score 4 |}]))
      as (hits & -> & Hhits).
    { intros item Hitem. apply Hin. by right. }
    eexists (_ :: hits). split; [by rewrite <- app_assoc|].
    constructor; [|done]. by exists chunk.
Qed.

Lemma search_loop_raise chunks items : ∀ results e,
  foldlM (search_step round chunks) results items = Raise e → e = IndexError.
Proof.
  induction items as [|[idx score] items IH]; intros results e; [done|].
  cbn [foldlM search_step]. unfold getitem.
  destruct (chunks !! idx) as [chunk|]; cbn [rbind]; [apply IH|by intros [= <-]].
Qed.

(** What [search] computes on an index that has chunks and a matrix. *)
Lemma search_eq (s : @HybridIndex.t Row) query top_k rows :
  HybridIndex.chunks s ≠ [] →
  HybridIndex.embeddings s = Some rows →
  HybridIndex_search embed_text norm dot round s query top_k
  = (bm25_ranked <-! BM25.search (HybridIndex.bm25 s) query (top_k * 2);
     foldlM (search_step round (HybridIndex.chunks s)) []
       (take top_k
          (rrf_fuse [take (top_k * 2) (cosine_ranking embed_text norm dot rows query);
                     bm25_ranked] 60))).
Proof.
  intros Hne Hrows. unfold HybridIndex_search. rewrite Hrows.
  destruct (HybridIndex.chunks s); done.
Qed.

Section on_index.
Context (s : @HybridIndex.t Row) (query : string) (top_k : nat) (rows : list Row).
Hypothesis Hchunks : HybridIndex.chunks s ≠ [].
Hypothesis Hrows : HybridIndex.embeddings s = Some rows.
Hypothesis Hfit : fitted s.
Hypothesis Hlen : (length rows ≤ length (HybridIndex.chunks s))%nat.

Lemma search_run_on_index :
  ∃ bm25_ranked results,
    BM25.search (HybridIndex.bm25 s) query (top_k * 2) = Ok bm25_ranked ∧
    HybridIndex_search embed_text norm dot round s query top_k = Ok results ∧
    Forall2 (hit_of round (HybridIndex.chunks s)) results
      (take top_k
         (rrf_fuse [take (top_k * 2) (cosine_ranking embed_text norm dot rows query);
                    bm25_ranked] 60)) ∧
    (∀ i x, (i, x) ∈ bm25_ranked →
            ∃ c, HybridIndex.chunks s !! i = Some c ∧
                 ∃ t, t ∈ _tokenize query ∧ t ∈ _tokenize (text c)).
Proof.
  rewrite (search_eq s query top_k rows Hchunks Hrows). rewrite Hfit.
  destruct (search_hits (map text (HybridIndex.chunks s)) query (top_k * 2))
    as (bm & Hbm & _ & Hhits & _).
  rewrite Hbm. cbn [rbind].
  set (sem := take (top_k * 2) (cosine_ranking embed_text norm dot rows query)).
  assert (∀ i x, (i, x) ∈ bm →
            ∃ c, HybridIndex.chunks s !! i = Some c ∧
                 ∃ t, t ∈ _tokenize query ∧ t ∈ _tokenize (text c)) as Hbm_hits.
  { intros i x Hin. destruct (Hhits i x Hin) as (d & t & Hd & Hq & Ht).
    change map with (@fmap list _) in Hd. rewrite list_lookup_fmap in Hd.
    destruct (HybridIndex.chunks s !! i) as [c|]; [|done].
    simpl in Hd. injection Hd as <-. exists c. split; [done|]. by exists t. }
  destruct (search_loop (HybridIndex.chunks s) (take top_k (rrf_fuse [sem; bm] 60)) [])
    as (hits & Hloop & Hhit).
  { intros [i x] Hitem. simpl.
    apply elem_of_take in Hitem as (n & Hitem & _).
    apply list_elem_of_lookup_2 in Hitem.
    assert (i ∈ (rrf_fuse [sem; bm] 60).*1) as Hkey.
    { apply list_elem_of_fmap. by exists (i, x). }
    apply (proj1 (proj1 (proj2 (rrf_fuse_run [sem; bm] 60)) i)) in Hkey
      as (ranked & Hranked & Hi).
    apply list_elem_of_fmap in Hi as ([i' y] & -> & Hi). simpl.
    apply elem_of_cons in Hranked as [->|Hranked].
    - unfold sem in Hi. apply elem_of_take in Hi as (n' & Hi & _).
      apply list_elem_of_lookup_2 in Hi. apply cosine_ranking_lt in Hi. lia.
    - apply list_elem_of_singleton in Hranked as ->.
      destruct (Hbm_hits i' y Hi) as (c & Hc & _). by eapply lookup_lt_Some. }
  exists bm, hits. split_and!; done.
Qed.
End on_index.

Lemma search_empty (s : @HybridIndex.t Row) query top_k :
  HybridIndex.chunks s = [] ∨ HybridIndex.embeddings s = None →
  HybridIndex_search embed_text norm dot round s query top_k = Ok [].
Proof.
  unfold HybridIndex_search. intros [-> | ->]; [done|].
  by destruct (HybridIndex.chunks s).
Qed.

Lemma search_raise (s : @HybridIndex.t Row) query top_k e :
  fitted s →
  HybridIndex_search embed_text norm dot round s query top_k = Raise e →
  e = IndexError ∧ (length (HybridIndex.chunks s) < length (rows_of s))%nat.
Proof.
  intros Hfit Hraise.
  destruct (HybridIndex.embeddings s) as [rows|] eqn:Hrows;
    [|by rewrite search_empty in Hraise by (by right)].
  destruct (decide (HybridIndex.chunks s = [])) as [Hnil|Hne];
    [by rewrite search_empty in Hraise by (by left)|].
  split.
  - rewrite (search_eq s query top_k rows Hne Hrows), Hfit in Hraise.
    destruct (search_hits (map text (HybridIndex.chunks s)) query (top_k * 2))
      as (bm & Hbm & _).
    rewrite Hbm in Hraise. cbn [rbind] in Hraise. by eapply search_loop_raise.
  - unfold rows_of. rewrite Hrows. simpl.
    destruct (decide (length rows ≤ length (HybridIndex.chunks s))%nat) as [Hle|]; [|lia].
    destruct (search_run_on_index s query top_k rows Hne Hrows Hfit Hle)
      as (? & ? & _ & Hok & _).
    congruence.
Qed.
End hybrid_search_facts.



(** X21.  On an index whose BM25 model is fitted on its
    chunks: [search] returns the empty list, without looking at the
    query, when the index has no chunk or no embedding matrix; it
    returns whenever the matrix has no more rows than there are chunks;
    and when it fails, it fails with an [IndexError], and only on an
    index whose matrix has more rows than there are chunks. *)
Theorem hybrid_search_edge_cases {Row : Type} (embed_text : string → Row)
    (norm : Row → R) (dot : Row → Row → R) (round : Q → nat → Q)
    (s : @HybridIndex.t Row) (query : string) (top_k : nat) :
  fitted s →
  (HybridIndex.chunks s = [] ∨ HybridIndex.embeddings s = None →
   HybridIndex_search embed_text norm dot round s query top_k = Ok []) ∧
  ((length (rows_of s) ≤ length (HybridIndex.chunks s))%nat →
   ∃ results, HybridIndex_search embed_text norm dot round s query top_k = Ok results) ∧
  (∀ e, HybridIndex_search embed_text norm dot round s query top_k = Raise e →
        e = IndexError ∧ (length (HybridIndex.chunks s) < length (rows_of s))%nat).
Proof.
  intros Hfit. split_and!.
  - apply search_empty.
  - intros Hle.
    destruct (HybridIndex_search embed_text norm dot round s query top_k) as [results|e] eqn:Hrun;
      [by exists results|].
    apply search_raise in Hrun as [_ Hlt]; [lia|done].
  - intros e. by apply search_raise.
Qed.

Lemma hybrid_search_edge_cases_witness :
  HybridIndex_search example_embed example_norm example_dot example_round
    (@HybridIndex.new nat) "hello" 10 = Ok [].
Proof.
  refine (proj1 (hybrid_search_edge_cases example_embed example_norm example_dot example_round
                   HybridIndex.new "hello" 10 _) _).
  - unfold fitted. symmetry. exact fit_nil.
  - left. reflexivity.
Defined.

(** X22.  When no token of the query occurs in any
    chunk, the hybrid search is the semantic search: on an index that is
    in step and has chunks, the results are the first [top_k] chunks in
    descending order of cosine similarity to the query, and the result
    at rank r (from 0) has as its score what [round(., 4)] makes of
    0 + 1 / (61 + r). *)
Theorem hybrid_search_without_bm25_hit {Row : Type} (embed_text : string → Row)
    (norm : Row → R) (dot : Row → Row → R) (round : Q → nat → Q)
    (s : @HybridIndex.t Row) (query : string) (top_k : nat) :
  HybridIndex.chunks s ≠ [] →
  aligned s →
  fitted s →
  (∀ t c, t ∈ _tokenize query → c ∈ HybridIndex.chunks s → t ∉ _tokenize (text c)) →
  ∃ results,
    HybridIndex_search embed_text norm dot round s query top_k = Ok results ∧
    length results = min top_k (length (HybridIndex.chunks s)) ∧
    ∀ r hit, results !! r = Some hit →
      ∃ i x, cosine_ranking embed_text norm dot (rows_of s) query !! r = Some (i, x) ∧
             hit_of round (HybridIndex.chunks s) hit (i, (0 + rrf_weight 60 r)%Q).
Proof.
  intros Hne Hal Hfit Hnone.
  destruct (HybridIndex.embeddings s) as [rows|] eqn:Hrows.
  2:{ unfold aligned, rows_of in Hal. rewrite Hrows in Hal. simpl in Hal.
      destruct (HybridIndex.chunks s); [done|discriminate Hal]. }
  assert (rows_of s = rows) as Hrows' by (unfold rows_of; by rewrite Hrows).
  unfold aligned in Hal. rewrite Hrows' in *.
  destruct (search_run_on_index embed_text norm dot round s query top_k rows Hne Hrows Hfit)
    as (bm & results & Hbm & Hrun & Hhits & Hbm_hits); [lia|].
  assert (bm = []) as ->.
  { destruct bm as [|[i x] bm]; [done|].
    destruct (Hbm_hits i x) as (c & Hc & t & Hq & Ht); [by left|].
    destruct (Hnone t c Hq); [by eapply list_elem_of_lookup_2|done]. }
  set (ranking := cosine_ranking embed_text norm dot rows query) in *.
  assert (NoDup (take (top_k * 2) ranking).*1) as Hnd.
  { eapply sublist_NoDup; [apply (cosine_ranking_NoDup embed_text norm dot rows query)|].
    apply fmap_sublist, sublist_take. }
  assert (rrf_fuse [take (top_k * 2) ranking; []] 60
          = rank_entries 60 0 (take (top_k * 2) ranking)) as Hfused.
  { rewrite <- (rrf_fuse_one _ _ Hnd). unfold rrf_fuse.
    change [take (top_k * 2) ranking; []] with ([take (top_k * 2) ranking] ++ [[]]).
    by rewrite rrf_scores_snoc_nil. }
  rewrite Hfused in Hhits.
  exists results. split; [done|]. split.
  - rewrite (Forall2_length _ _ _ Hhits), length_take.
    unfold rank_entries, enumerate_from. rewrite length_fmap, length_imap, length_take.
    unfold ranking. rewrite cosine_ranking_length. lia.
  - intros r hit Hr.
    destruct (Forall2_lookup_l _ _ _ _ _ Hhits Hr) as ([i q] & Hitem & Hhit).
    apply lookup_take_Some in Hitem as [Hitem Hlt].
    unfold rank_entries, enumerate_from in Hitem.
    rewrite list_lookup_fmap, list_lookup_imap in Hitem.
    destruct (take (top_k * 2) ranking !! r) as [[i' x]|] eqn:Hix; [|done].
    simpl in Hitem. injection Hitem as <- <-.
    apply lookup_take_Some in Hix as [Hix _].
    by exists i', x.
Qed.

Lemma hybrid_search_without_bm25_hit_witness :
  ∃ results,
    HybridIndex_search example_embed example_norm example_dot example_round
      (HybridIndex.self world_v1) "price" 10 = Ok results ∧
    length results = 1%nat.
Proof.
  destruct (hybrid_search_without_bm25_hit example_embed example_norm example_dot example_round
              (HybridIndex.self world_v1) "price" 10)
    as (results & Hrun & Hlen & _).
  - vm_compute. discriminate.
  - vm_compute. reflexivity.
  - exact (proj2 (build_in_step example_embed folder_v1 empty_world world_v1
                    (conj eq_refl eq_refl) build_v1)).
  - intros t c Ht Hc. change (_tokenize "price") with ["price"] in Ht.
    apply list_elem_of_singleton in Ht as ->.
    change (HybridIndex.chunks (HybridIndex.self world_v1))
      with [{| text := "Hello world."; filename := "a.pdf"; chunk_idx := 0 |}] in Hc.
    apply list_elem_of_singleton in Hc as ->.
    change (_tokenize "Hello world.") with ["hello"; "world"].
    intros Hin. apply elem_of_cons in Hin as [Hin|Hin]; [discriminate Hin|].
    apply list_elem_of_singleton in Hin. discriminate Hin.
  - exists results. split; [exact Hrun|exact Hlen].
Defined.

(** ** The [index] command keeps the index directory in order *)

Section cli_facts.
Context {Row : Type} (embed_text : string → Row).

(** Loading a directory that is in order does not fail, and an index
    with chunks that is loaded from it is in step. *)
Lemma load_dir_ok (d : @HybridIndex.IndexDir Row) :
  dir_ok d →
  ∃ idx, HybridIndex.load d = Ok idx ∧
         (HybridIndex.chunks idx ≠ [] → in_step idx).
Proof.
  unfold dir_ok. intros Hok.
  destruct (HybridIndex.load d) as [idx|e] eqn:Hload.
  - exists idx. split; [done|]. intros Hne.
    split; [|by eapply load_fitted].
    unfold HybridIndex.load in Hload.
    destruct (HybridIndex.manifest_json d) as [m|]; [|by injection Hload as <-].
    destruct Hok as (cs & Hcs & Hknown & Hexact & Hrows).
    rewrite Hcs in Hload. cbn [rbind] in Hload. injection Hload as <-.
    cbn [HybridIndex.chunks] in Hne. destruct (Hrows Hne) as (rows & Hnpy & Hlen).
    split_and!; [|done|done].
    unfold aligned, rows_of. simpl. by rewrite Hnpy.
  - exfalso. unfold HybridIndex.load in Hload.
    destruct (HybridIndex.manifest_json d) as [m|]; [|done].
    destruct Hok as (cs & Hcs & _). by rewrite Hcs in Hload.
Qed.

Lemma saved_dir_ok (s : @HybridIndex.t Row) (d : @HybridIndex.IndexDir Row) :
  wf s → dir_ok (saved s d).
Proof.
  intros (Hal & Hknown & Hexact). unfold dir_ok, saved. simpl.
  exists (HybridIndex.chunks s). split_and!; [done..|].
  intros Hne. unfold aligned, rows_of in Hal.
  destruct (HybridIndex.embeddings s) as [rows|]; [by exists rows|].
  simpl in Hal. destruct (HybridIndex.chunks s); done.
Qed.

Lemma build_dir_ok docs_dir (w : @HybridIndex.World Row) :
  ∃ w', HybridIndex.build embed_text docs_dir w = Ok (tt, w') ∧
        dir_ok (HybridIndex.index_dir w').
Proof.
  destruct (build_state embed_text docs_dir w)
    as (w' & Hrun & _ & Hemb & _ & _ & _ & Hdir & Hwf).
  exists w'. split; [done|].
  assert (HybridIndex.index_dir w'
          = saved (HybridIndex.self w') (HybridIndex.index_dir w')) as ->.
  { rewrite Hdir at 1. unfold saved. by rewrite Hemb. }
  by apply saved_dir_ok.
Qed.

Lemma build_leaves_dir_ok docs_dir (w w' : @HybridIndex.World Row) :
  HybridIndex.build embed_text docs_dir w = Ok (tt, w') → dir_ok (HybridIndex.index_dir w').
Proof.
  intros Hbuild. destruct (build_dir_ok docs_dir w) as (w'' & Hrun & Hok).
  rewrite Hbuild in Hrun. by injection Hrun as <-.
Qed.

Lemma reindex_index_dir docs_dir (w w' : @HybridIndex.World Row) :
  HybridIndex.reindex embed_text docs_dir w = Ok (tt, w') →
  w' = w ∨ HybridIndex.index_dir w' = saved (HybridIndex.self w') (HybridIndex.index_dir w).
Proof.
  destruct (needs_reindex_run docs_dir w)
    as (needs & added & changed & removed & Hrun & _).
  rewrite (reindex_eq embed_text docs_dir w needs added changed removed Hrun).
  destruct needs; cbn [negb]; [|intros [= <-]; by left].
  destruct (remove_step _ _) as [s1|]; [|done].
  destruct (add_step _ _ _ _) as [s2|]; [|done].
  intros [= <-]. by right.
Qed.

(** What the command does to a directory that is in order. *)
Lemma cmd_index_run force docs_dir (d : @HybridIndex.IndexDir Row) :
  dir_ok d →
  ∃ d', cmd_index embed_text force (Some docs_dir) d = Ok (Returned, d') ∧ dir_ok d'.
Proof.
  intros Hok. unfold cmd_index.
  destruct (load_dir_ok d Hok) as (idx & -> & Hstep). cbn [rbind].
  destruct (HybridIndex.chunks idx) as [|c cs] eqn:Hcs.
  - destruct (build_dir_ok docs_dir
                {| HybridIndex.self := idx; HybridIndex.index_dir := d |})
      as (w' & -> & Hok'). cbn [rbind]. by exists (HybridIndex.index_dir w').
  - specialize (Hstep ltac:(done)).
    set (w := {| HybridIndex.self := idx; HybridIndex.index_dir := d |}).
    destruct (needs_reindex_run docs_dir w)
      as (needs & added & changed & removed & Hrun & _).
    rewrite Hrun. cbn [rbind].
    destruct needs.
    + destruct (reindex_in_step embed_text docs_dir w Hstep) as (w' & Hre & [Hwf' _]).
      rewrite Hre. cbn [rbind]. exists (HybridIndex.index_dir w'). split; [done|].
      destruct (reindex_index_dir docs_dir w w' Hre) as [-> | ->]; [done|].
      by apply saved_dir_ok.
    + destruct force; cbn [negb].
      * destruct (build_dir_ok docs_dir
                    {| HybridIndex.self := HybridIndex.new;
                       HybridIndex.index_dir := HybridIndex.index_dir w |})
          as (w' & -> & Hok'). cbn [rbind]. by exists (HybridIndex.index_dir w').
      * by exists d.
Qed.
End cli_facts.

(** X23.  The [index] command keeps the index
    directory in order.  Started on a directory that is empty or was left
    by an earlier run (manifest and chunk list agree; with chunks, one
    matrix row per chunk) and with an existing document folder, a run
    that ends without an exception has returned normally and leaves the
    directory in order again; an index with chunks that is then loaded
    from it is in step, so that the stale matrix file an emptied index
    leaves behind never reaches a search.  Without the document folder
    the command exits with status 1 and touches nothing. *)
Theorem cmd_index_keeps_index_dir_in_order {Row : Type} (embed_text : string → Row)
    (force : bool) (docs_dir : Folder) (d d' : @HybridIndex.IndexDir Row)
    (ending : Ending) :
  dir_ok d →
  (cmd_index embed_text force (Some docs_dir) d = Ok (ending, d') →
   ending = Returned ∧
   dir_ok d' ∧
   ∃ idx, HybridIndex.load d' = Ok idx ∧
          (HybridIndex.chunks idx ≠ [] → in_step idx)) ∧
  cmd_index embed_text force None d = Ok (SysExit 1, d).
Proof.
  intros Hok. split; [|done]. intros Hrun.
  destruct (cmd_index_run embed_text force docs_dir d Hok) as (d'' & Hrun' & Hok').
  rewrite Hrun in Hrun'. injection Hrun' as -> ->.
  split; [done|]. split; [done|]. by apply load_dir_ok.
Qed.

Lemma cmd_index_keeps_index_dir_in_order_witness :
  ∃ d', cmd_index example_embed false (Some folder_v2)
          (HybridIndex.index_dir world_v1) = Ok (Returned, d') ∧
        dir_ok d'.
Proof.
  pose proof (build_leaves_dir_ok example_embed folder_v1 empty_world world_v1 build_v1)
    as Hok.
  destruct (cmd_index_run example_embed false folder_v2 _ Hok) as (d' & Hrun & _).
  exists d'. split; [exact Hrun|].
  exact (proj1 (proj2 (proj1 (cmd_index_keeps_index_dir_in_order example_embed false
                                folder_v2 (HybridIndex.index_dir world_v1) d' Returned Hok)
                         Hrun))).
Defined.

(** X24.  When the index that [load] gets from
    the directory has no chunks (nothing saved yet, or an emptied index,
    which may still have its old matrix file beside the empty chunk
    list), the [index] command builds from scratch whatever [force] is:
    it returns normally and the directory then holds the chunks of the
    files of the folder that have text, file by file, with exactly one
    matrix row per chunk, computed from the text of that chunk. *)
Theorem cmd_index_builds_when_no_chunks {Row : Type} (embed_text : string → Row)
    (force : bool) (docs_dir : Folder) (d : @HybridIndex.IndexDir Row)
    (idx : @HybridIndex.t Row) :
  HybridIndex.load d = Ok idx →
  HybridIndex.chunks idx = [] →
  ∃ d' cs,
    cmd_index embed_text force (Some docs_dir) d = Ok (Returned, d') ∧
    HybridIndex.chunks_json d' = Some cs ∧
    cs = concat (map (doc_chunks docs_dir) (indexed_names docs_dir)) ∧
    HybridIndex.embeddings_npy d' = Some (HybridIndex.embed embed_text (map text cs)) ∧
    dir_ok d'.
Proof.
  intros Hload Hcs. unfold cmd_index. rewrite Hload. cbn [rbind]. rewrite Hcs.
  destruct (build_state embed_text docs_dir
              {| HybridIndex.self := idx; HybridIndex.index_dir := d |})
    as (w' & Hrun & Hchunks & Hemb & _ & _ & _ & Hdir & Hwf).
  rewrite Hrun. cbn [rbind snd].
  exists (HybridIndex.index_dir w'), (HybridIndex.chunks (HybridIndex.self w')).
  split; [done|]. rewrite Hdir at 1 2.
  cbn [HybridIndex.chunks_json HybridIndex.embeddings_npy].
  split; [done|]. split; [done|]. split; [done|].
  assert (HybridIndex.index_dir w'
          = saved (HybridIndex.self w') (HybridIndex.index_dir w')) as ->.
  { rewrite Hdir at 1. unfold saved. by rewrite Hemb. }
  by apply saved_dir_ok.
Qed.

Lemma cmd_index_builds_when_no_chunks_witness :
  ∃ d' cs,
    cmd_index example_embed false (Some folder_v1) (HybridIndex.index_dir world_emptied)
    = Ok (Returned, d') ∧
    HybridIndex.chunks_json d' = Some cs ∧
    HybridIndex.embeddings_npy d' = Some (HybridIndex.embed example_embed (map text cs)).
Proof.
  destruct (cmd_index_builds_when_no_chunks example_embed false folder_v1
              (HybridIndex.index_dir world_emptied)
              {| HybridIndex.chunks := []; HybridIndex.embeddings := Some [12];
                 HybridIndex.manifest := ∅; HybridIndex.bm25 := BM25.new |})
    as (d' & cs & Hrun & Hcs & _ & Hemb & _).
  - vm_compute. reflexivity.
  - reflexivity.
  - exists d', cs. split; [exact Hrun|]. split; [exact Hcs|exact Hemb].
Defined.

(** ** Taking the JSON text out of the reply *)

Lemma lstrip_blank_app ws s :
  Py.strip_nonempty ws = false → Str.lstrip (ws ++ s)%string = Str.lstrip s.
Proof.
  induction ws as [|c ws IH]; simpl; [done|].
  intros H. apply orb_false_iff in H as [Hc Hws].
  apply negb_false_iff in Hc. rewrite Hc. by apply IH.
Qed.

Lemma rstrip_blank ws : Py.strip_nonempty ws = false → Str.rstrip ws = EmptyString.
Proof.
  induction ws as [|c ws IH]; simpl; [done|].
  intros H. apply orb_false_iff in H as [Hc Hws].
  apply negb_false_iff in Hc. by rewrite IH, Hc.
Qed.

Lemma rstrip_app_blank s ws :
  Py.strip_nonempty ws = false → Str.rstrip (s ++ ws)%string = Str.rstrip s.
Proof.
  intros Hws. induction s as [|c s IH]; simpl; [by apply rstrip_blank|].
  by rewrite IH.
Qed.

Lemma rstrip_app_trimmed s t :
  t ≠ EmptyString → Str.rstrip t = t → Str.rstrip (s ++ t)%string = (s ++ t)%string.
Proof.
  intros Hne Ht. induction s as [|c s IH]; [done|].
  change (String c s ++ t)%string with (String c (s ++ t)%string).
  cbn [Str.rstrip]. rewrite IH. destruct (s ++ t)%string eqn:E; [|done].
  destruct s; [by destruct Hne|done].
Qed.

Lemma after_first_app sep lang rest :
  sep ∉ list_ascii_of_string lang →
  Str.after_first sep (lang ++ String sep rest)%string = Ok rest.
Proof.
  induction lang as [|c lang IH]; simpl; intros Hno.
  - by rewrite Ascii.eqb_refl.
  - apply not_elem_of_cons in Hno as [Hc Hno].
    destruct (Ascii.eqb_spec c sep) as [->|_]; [done|]. by apply IH.
Qed.

Lemma after_first_raise sep s e :
  Str.after_first sep s = Raise e ↔ e = IndexError ∧ sep ∉ list_ascii_of_string s.
Proof.
  induction s as [|c s IH]; simpl.
  - split; [intros [= <-]; split; [done|apply not_elem_of_nil]|by intros [-> _]].
  - destruct (Ascii.eqb_spec c sep) as [->|Hne].
    + split; [done|]. intros [_ Hno]. destruct Hno. by left.
    + rewrite IH, not_elem_of_cons. split.
      * intros [-> Hno]. split_and!; [done|congruence|done].
      * by intros (-> & _ & Hno).
Qed.

Lemma before_last_app_sep body :
  Str.before_last fence (body ++ fence)%string = Some body.
Proof.
  induction body as [|c body IH]; [done|].
  change (String c body ++ fence)%string with (String c (body ++ fence)%string).
  cbn [Str.before_last]. by rewrite IH.
Qed.

Lemma prefix_fence s : Str.startswith (fence ++ s)%string fence = true.
Proof. reflexivity. Qed.

Lemma strip_fenced ws1 ws2 inner :
  Py.strip_nonempty ws1 = false →
  Py.strip_nonempty ws2 = false →
  Str.strip (ws1 ++ fence ++ inner ++ fence ++ ws2)%string
  = (fence ++ inner ++ fence)%string.
Proof.
  intros Hws1 Hws2. unfold Str.strip. rewrite (lstrip_blank_app _ _ Hws1).
  change (Str.lstrip (fence ++ inner ++ fence ++ ws2)%string)
    with (fence ++ inner ++ fence ++ ws2)%string.
  assert (∀ a b c : string, (a ++ b ++ c)%string = ((a ++ b) ++ c)%string) as Hassoc.
  { intros a b c. induction a as [|x a IH]; [done|].
    change (String x a ++ b ++ c)%string with (String x (a ++ b ++ c)%string).
    by rewrite IH. }
  rewrite (Hassoc inner fence ws2), (Hassoc fence _ ws2), (rstrip_app_blank _ _ Hws2).
  rewrite (Hassoc fence inner fence). by apply rstrip_app_trimmed.
Qed.

(** What [json_text] makes of a reply whose stripped text is a fenced
    block. *)
Lemma json_text_fenced ws1 ws2 lang body :
  Py.strip_nonempty ws1 = false →
  Py.strip_nonempty ws2 = false →
  "010"%char ∉ list_ascii_of_string lang →
  json_text (ws1 ++ fence ++ (lang ++ String "010" body) ++ fence ++ ws2)%string = Ok body.
Proof.
  intros Hws1 Hws2 Hlang. unfold json_text.
  rewrite (strip_fenced _ _ _ Hws1 Hws2), prefix_fence.
  assert (Str.after_first "010" (fence ++ (lang ++ String "010" body) ++ fence)%string
          = Ok (body ++ fence)%string) as ->.
  { change (Str.after_first "010" (fence ++ (lang ++ String "010" body) ++ fence)%string)
      with (Str.after_first "010" ((lang ++ String "010" body) ++ fence)%string).
    clear Hws1 Hws2. induction lang as [|c lang IH].
    - change ((EmptyString ++ String "010" body) ++ fence)%string
        with (String "010" (body ++ fence)%string).
      done.
    - change ((String c lang ++ String "010" body) ++ fence)%string
        with (String c ((lang ++ String "010" body) ++ fence)%string).
      apply not_elem_of_cons in Hlang as [Hc Hlang]. cbn [Str.after_first].
      destruct (Ascii.eqb_spec c "010") as [->|_]; [done|]. by apply IH. }
  cbn [rbind]. unfold Str.rsplit_head. by rewrite before_last_app_sep.
Qed.

Lemma json_text_raise response_text e :
  json_text response_text = Raise e ↔
  e = IndexError ∧ Str.startswith (Str.strip response_text) fence = true ∧
  "010"%char ∉ list_ascii_of_string (Str.strip response_text).
Proof.
  unfold json_text. destruct (Str.startswith (Str.strip response_text) fence).
  - destruct (Str.after_first "010" (Str.strip response_text)) as [t|e'] eqn:E; cbn [rbind].
    + split; [done|]. intros (-> & _ & Hno).
      assert (Str.after_first "010" (Str.strip response_text) = Raise IndexError) as E'
        by (by apply after_first_raise).
      congruence.
    + apply after_first_raise in E as [-> Hno]. split; [by intros [= <-]|by intros [-> _]].
  - split; [done|]. by intros (_ & ? & _).
Qed.

(** X25.  A reply that is a Markdown code block,
    with white space before and after it, is unwrapped: of
    [```lang], a line break, [body] and the closing fence, what goes to
    the JSON decoder is exactly [body], whatever [body] holds (further
    fences in it included) and whatever stands on the opening line. *)
Theorem json_text_unwraps_fenced_block (ws1 ws2 lang body : string) :
  Py.strip_nonempty ws1 = false →
  Py.strip_nonempty ws2 = false →
  "010"%char ∉ list_ascii_of_string lang →
  json_text (ws1 ++ fence ++ (lang ++ String "010" body) ++ fence ++ ws2)%string = Ok body.
Proof. apply json_text_fenced. Qed.

Lemma json_text_unwraps_fenced_block_witness :
  json_text " ```json
[1, 2]
``` " = Ok "[1, 2]
".
Proof.
  refine (json_text_unwraps_fenced_block " " " " "json" "[1, 2]
" _ _ _).
  - reflexivity.
  - reflexivity.
  - vm_compute. intros H. repeat (apply elem_of_cons in H as [H|H]; [discriminate H|]).
    by apply elem_of_nil in H.
Defined.

(** X26.  Taking the JSON text out of a reply fails in one
    case only: the reply, stripped of surrounding white space, opens
    with a fence and has no line break; the subscript [[1]] then raises
    [IndexError].  A reply that does not open with a fence is passed on
    stripped and otherwise unchanged, also when it has a fenced block
    further down; and with an opening fence but no closing one, all that
    follows the first line is passed on. *)
Theorem json_text_edge_cases (response_text : string) :
  (∀ e, json_text response_text = Raise e ↔
        e = IndexError ∧ Str.startswith (Str.strip response_text) fence = true ∧
        "010"%char ∉ list_ascii_of_string (Str.strip response_text)) ∧
  (Str.startswith (Str.strip response_text) fence = false →
   json_text response_text = Ok (Str.strip response_text)) ∧
  (∀ rest, Str.after_first "010" (Str.strip response_text) = Ok rest →
           Str.startswith (Str.strip response_text) fence = true →
           Str.before_last fence rest = None →
           json_text response_text = Ok rest).
Proof.
  split_and!.
  - intros e. apply json_text_raise.
  - unfold json_text. by intros ->.
  - unfold json_text, Str.rsplit_head. intros rest -> -> Hnone. cbn [rbind].
    by rewrite Hnone.
Qed.

(** ** Merging the scores into the passages *)

Lemma score_map_run scores : ∀ m,
  Forall (fun item => is_Some (ScoreItem.index item)) scores →
  ∃ m', foldlM score_map_step m scores = Ok m' ∧
        ∀ z, m' !! z
             = match last (filter (fun item => ScoreItem.index item = Some z) scores) with
               | Some item => Some item
               | None => m !! z
               end.
Proof.
  induction scores as [|item scores IH]; intros m Hall.
  - by exists m.
  - apply Forall_cons in Hall as [[i Hi] Hall].
    destruct (IH (<[i := item]> m) Hall) as (m' & Hrun & Hm').
    exists m'. split.
    + cbn [foldlM]. unfold score_map_step at 1. rewrite Hi. done.
    + intros z. rewrite Hm', filter_cons.
      destruct (decide (ScoreItem.index item = Some z)) as [Hz|Hz].
      * rewrite last_cons.
        destruct (last (filter _ scores)); [done|].
        rewrite Hi in Hz. injection Hz as ->. by rewrite lookup_insert_eq.
      * destruct (last (filter _ scores)); [done|].
        rewrite lookup_insert_ne; [done|]. intros ->. by rewrite Hi in Hz.
Qed.

Lemma score_map_scored scores :
  Forall (fun item => is_Some (ScoreItem.index item)) scores →
  ∃ m, foldlM score_map_step ∅ scores = Ok m ∧
       ∀ i, m !! Z.of_nat i = scored scores i.
Proof.
  intros Hall. destruct (score_map_run scores ∅ Hall) as (m & Hrun & Hm).
  exists m. split; [done|]. intros i. rewrite Hm, lookup_empty. unfold scored.
  by destruct (last _).
Qed.

Lemma score_map_raise scores : ∀ m,
  Exists (fun item => ScoreItem.index item = None) scores →
  foldlM score_map_step m scores = Raise (KeyError "index").
Proof.
  induction scores as [|item scores IH]; intros m Hex.
  - by apply Exists_nil in Hex.
  - cbn [foldlM]. unfold score_map_step at 1.
    destruct (ScoreItem.index item) as [i|] eqn:Hi; [|done]. cbn [rbind].
    apply IH. apply Exists_cons in Hex as [Hex|Hex]; [congruence|done].
Qed.

Lemma merge_run sm scores chunks :
  (∀ i, sm !! Z.of_nat i = scored scores i) →
  ∀ n results,
    (∀ i entry, (n ≤ i < n + length chunks)%nat → scored scores i = Some entry →
                is_Some (ScoreItem.score entry)) →
    foldlM (merge_step sm) results (enumerate_from n chunks)
    = Ok (results ++ omap (merged scores) (enumerate_from n chunks)).
Proof.
  intros Hsm. induction chunks as [|chunk chunks IH]; intros n results Hscore.
  - simpl. by rewrite app_nil_r.
  - rewrite enumerate_from_cons. cbn [foldlM omap list_omap]. unfold merge_step at 1.
    unfold merged at 1. cbn [fst snd]. rewrite Hsm.
    destruct (scored scores n) as [entry|] eqn:Hentry; cbn [mbind option_bind].
    + destruct (Hscore n entry) as [sc Hsc]; [simpl; lia|done|].
      rewrite Hsc. cbn [rbind mbind option_bind]. rewrite IH.
      * by rewrite <- app_assoc.
      * intros i e Hi. apply Hscore. simpl. lia.
    + cbn [rbind]. apply IH. intros i e Hi. apply Hscore. simpl. lia.
Qed.

Lemma merge_raise sm chunks : ∀ n results,
  (∀ e, foldlM (merge_step sm) results (enumerate_from n chunks) = Raise e →
        e = KeyError "score" ∧
        ∃ i entry, (n ≤ i < n + length chunks)%nat ∧ sm !! Z.of_nat i = Some entry ∧
                   ScoreItem.score entry = None) ∧
  (∀ i entry, (n ≤ i < n + length chunks)%nat → sm !! Z.of_nat i = Some entry →
              ScoreItem.score entry = None →
              foldlM (merge_step sm) results (enumerate_from n chunks)
              = Raise (KeyError "score")).
Proof.
  induction chunks as [|chunk chunks IH]; intros n results.
  - split; [done|]. intros i entry Hi. simpl in Hi. lia.
  - rewrite enumerate_from_cons. cbn [foldlM]. unfold merge_step at 1 3.
    assert (∀ results' e,
              foldlM (merge_step sm) results' (enumerate_from (S n) chunks) = Raise e →
              e = KeyError "score" ∧
              ∃ i entry, (n ≤ i < n + length (chunk :: chunks))%nat ∧
                         sm !! Z.of_nat i = Some entry ∧
                         ScoreItem.score entry = None) as Htail.
    { intros results' e Hraise.
      apply (proj1 (IH (S n) results')) in Hraise as (-> & i & entry & Hi & H1 & H2).
      split; [done|]. exists i, entry. split; [simpl; lia|done]. }
    destruct (sm !! Z.of_nat n) as [entry|] eqn:Hentry.
    + destruct (ScoreItem.score entry) as [sc|] eqn:Hsc; cbn [rbind].
      * split; [apply Htail|]. intros i entry' Hi Hentry' Hnone.
        destruct (decide (i = n)) as [->|Hne]; [congruence|].
        apply (proj2 (IH (S n) _) i entry'); [simpl in Hi; lia|done..].
      * split; [|done]. intros e [= <-]. split; [done|].
        exists n, entry. split; [simpl; lia|done].
    + cbn [rbind]. split; [apply Htail|]. intros i entry' Hi Hentry' Hnone.
      destruct (decide (i = n)) as [->|Hne]; [congruence|].
      apply (proj2 (IH (S n) _) i entry'); [simpl in Hi; lia|done..].
Qed.

Lemma merge_sublist sm chunks : ∀ n results out,
  foldlM (merge_step sm) results (enumerate_from n chunks) = Ok out →
  ∃ extra, out = results ++ extra ∧ map Classified.hit extra `sublist_of` chunks.
Proof.
  induction chunks as [|chunk chunks IH]; intros n results out.
  - intros [= <-]. exists []. by rewrite app_nil_r.
  - rewrite enumerate_from_cons. cbn [foldlM]. unfold merge_step at 1.
    destruct (sm !! Z.of_nat n) as [entry|].
    + destruct (ScoreItem.score entry) as [sc|]; cbn [rbind]; [|done].
      intros Hrun. apply IH in Hrun as (extra & -> & Hsub).
      eexists (_ :: extra). split; [by rewrite <- app_assoc|].
      simpl. by apply sublist_skip.
    + cbn [rbind]. intros Hrun. apply IH in Hrun as (extra & -> & Hsub).
      exists extra. split; [done|]. by apply sublist_cons.
Qed.

Lemma merged_all scores chunks : ∀ n,
  (∀ i, (n ≤ i < n + length chunks)%nat →
        ∃ entry, scored scores i = Some entry ∧ is_Some (ScoreItem.score entry)) →
  map Classified.hit (omap (merged scores) (enumerate_from n chunks)) = chunks.
Proof.
  induction chunks as [|chunk chunks IH]; intros n Hall; [done|].
  rewrite enumerate_from_cons. cbn [omap list_omap]. unfold merged at 1. cbn [fst snd].
  destruct (Hall n) as (entry & Hentry & sc & Hsc); [simpl; lia|].
  rewrite Hentry. cbn [mbind option_bind]. rewrite Hsc.
  cbn [mbind option_bind map Classified.hit]. f_equal. apply IH.
  intros i Hi. apply Hall. simpl. lia.
Qed.

Lemma merged_none scores chunks : ∀ n,
  (∀ i, (n ≤ i < n + length chunks)%nat → scored scores i = None) →
  omap (merged scores) (enumerate_from n chunks) = [].
Proof.
  induction chunks as [|chunk chunks IH]; intros n Hnone; [done|].
  rewrite enumerate_from_cons. cbn [omap list_omap]. unfold merged at 1. cbn [fst snd].
  rewrite (Hnone n) by (simpl; lia). cbn [mbind option_bind]. apply IH.
  intros i Hi. apply Hnone. simpl. lia.
Qed.

Section classifier_facts.
Context (create : list SearchHit.t → string → Result string).
Context (json_loads : string → Result (list ScoreItem.t)).

(** What [classify_chunks] computes once the reply is decoded. *)
Lemma classify_eq chunks category response_text text scores :
  chunks ≠ [] →
  create chunks category = Ok response_text →
  json_text response_text = Ok text →
  json_loads text = Ok scores →
  classify_chunks create json_loads chunks category
  = (score_map <-! foldlM score_map_step ∅ scores;
     foldlM (merge_step score_map) [] (Py.enumerate chunks)).
Proof.
  intros Hne Hcreate Htext Hloads. unfold classify_chunks.
  destruct chunks; [done|]. rewrite Hcreate. cbn [rbind]. rewrite Htext. cbn [rbind].
  by rewrite Hloads.
Qed.

(** The passages that come back are passages that went in, in their
    order. *)
Lemma classify_sublist chunks category results :
  classify_chunks create json_loads chunks category = Ok results →
  map Classified.hit results `sublist_of` chunks.
Proof.
  unfold classify_chunks. destruct chunks as [|c chunks]; [by intros [= <-]|].
  destruct (create _ _) as [response_text|]; [|done]. cbn [rbind].
  destruct (json_text _) as [text|]; [|done]. cbn [rbind].
  destruct (json_loads _) as [scores|]; [|done]. cbn [rbind].
  destruct (foldlM score_map_step _ _) as [sm|]; [|done]. cbn [rbind].
  rewrite enumerate_from_0. intros Hrun.
  by apply merge_sublist in Hrun as (extra & -> & Hsub).
Qed.
End classifier_facts.

(** X27.  When the reply decodes to a list of
    objects that all have an index, and the object that counts for a
    passage has a score, [classify_chunks] returns without error.  A
    passage is kept exactly when some object of the reply carries its
    position, and gets the score and the explanation of the last such
    object (an explanation that is absent becomes the empty string);
    objects whose index is negative or beyond the passages are ignored.
    So the passages that come back are passages that went in, in their
    order and none twice; all of them come back when the reply covers
    every position, and none when it covers no position. *)
Theorem classify_chunks_merges_scores
    (create : list SearchHit.t → string → Result string)
    (json_loads : string → Result (list ScoreItem.t))
    (chunks : list SearchHit.t) (category response_text text : string)
    (scores : list ScoreItem.t) :
  chunks ≠ [] →
  create chunks category = Ok response_text →
  json_text response_text = Ok text →
  json_loads text = Ok scores →
  Forall (fun item => is_Some (ScoreItem.index item)) scores →
  (∀ i entry, (i < length chunks)%nat → scored scores i = Some entry →
              is_Some (ScoreItem.score entry)) →
  ∃ results,
    classify_chunks create json_loads chunks category = Ok results ∧
    results = omap (merged scores) (Py.enumerate chunks) ∧
    map Classified.hit results `sublist_of` chunks ∧
    ((∀ i, (i < length chunks)%nat → is_Some (scored scores i)) →
     map Classified.hit results = chunks) ∧
    ((∀ i, (i < length chunks)%nat → scored scores i = None) → results = []).
Proof.
  intros Hne Hcreate Htext Hloads Hindex Hscore.
  destruct (score_map_scored scores Hindex) as (sm & Hsm & Hlookup).
  assert (classify_chunks create json_loads chunks category
          = Ok (omap (merged scores) (Py.enumerate chunks))) as Hrun.
  { rewrite (classify_eq create json_loads chunks category response_text text scores)
      by done.
    rewrite Hsm. cbn [rbind]. rewrite enumerate_from_0.
    rewrite (merge_run sm scores chunks Hlookup 0 []); [done|].
    intros i entry Hi. apply Hscore. lia. }
  eexists. split; [exact Hrun|]. split; [done|]. split_and!.
  - by eapply classify_sublist.
  - intros Hall. rewrite enumerate_from_0. apply merged_all.
    intros i Hi. destruct (Hall i) as [entry Hentry]; [lia|].
    exists entry. split; [done|]. apply (Hscore i); [lia|done].
  - intros Hnone. rewrite enumerate_from_0. apply merged_none.
    intros i Hi. apply Hnone. lia.
Qed.

Lemma classify_chunks_merges_scores_witness :
  classify_chunks example_create example_json_loads [example_hit] "pris"
  = Ok [{| Classified.hit := example_hit; Classified.relevance := 7;
           Classified.motivering := "ok" |}].
Proof.
  destruct (classify_chunks_merges_scores example_create example_json_loads
              [example_hit] "pris" _ _ _
              ltac:(discriminate) eq_refl eq_refl eq_refl)
    as (results & Hrun & Hresults & _).
  - repeat constructor; by eexists.
  - intros [|i] entry Hi; [|simpl in Hi; lia].
    intros [= <-]. by eexists.
  - rewrite Hrun, Hresults. reflexivity.
Defined.

(** X28.  Without passages [classify_chunks] returns
    the empty list and asks nothing.  With passages and a decoded reply:
    one object without an index makes it raise [KeyError] for [index],
    wherever the object stands; when every object has an index, it
    raises exactly when the object that counts for some passage has no
    score, and then [KeyError] for [score] - an object without score
    that counts for no passage does no harm. *)
Theorem classify_chunks_edge_cases
    (create : list SearchHit.t → string → Result string)
    (json_loads : string → Result (list ScoreItem.t)) (category : string) :
  classify_chunks create json_loads [] category = Ok [] ∧
  ∀ chunks response_text text scores,
    chunks ≠ [] →
    create chunks category = Ok response_text →
    json_text response_text = Ok text →
    json_loads text = Ok scores →
    (Exists (fun item => ScoreItem.index item = None) scores →
     classify_chunks create json_loads chunks category = Raise (KeyError "index")) ∧
    (Forall (fun item => is_Some (ScoreItem.index item)) scores →
     ∀ e, classify_chunks create json_loads chunks category = Raise e ↔
          e = KeyError "score" ∧
          ∃ i entry, (i < length chunks)%nat ∧ scored scores i = Some entry ∧
                     ScoreItem.score entry = None).
Proof.
  split; [done|]. intros chunks response_text text scores Hne Hcreate Htext Hloads.
  rewrite (classify_eq create json_loads chunks category response_text text scores)
    by done.
  split.
  - intros Hex. by rewrite (score_map_raise scores ∅ Hex).
  - intros Hindex e.
    destruct (score_map_scored scores Hindex) as (sm & -> & Hlookup). cbn [rbind].
    rewrite enumerate_from_0. split.
    + intros Hraise.
      apply (proj1 (merge_raise sm chunks 0 [])) in Hraise
        as (-> & i & entry & Hi & Hentry & Hsc).
      split; [done|]. exists i, entry. rewrite <- Hlookup. split; [lia|done].
    + intros (-> & i & entry & Hi & Hentry & Hsc).
      apply (proj2 (merge_raise sm chunks 0 []) i entry); [lia| |done].
      by rewrite Hlookup.
Qed.

(** ** Search by category *)

Lemma search_loop_length round chunks items : ∀ results out,
  foldlM (search_step round chunks) results items = Ok out →
  length out = (length results + length items)%nat.
Proof.
  induction items as [|[idx sc] items IH]; intros results out.
  - intros [= <-]. simpl. lia.
  - cbn [foldlM search_step]. destruct (getitem chunks idx) as [chunk|]; [|done].
    cbn [rbind]. intros Hrun. apply IH in Hrun. rewrite Hrun, length_app. simpl. lia.
Qed.

(** [search] never returns more than [top_k] results. *)
Lemma search_length {Row} (embed_text : string → Row) (norm : Row → R)
    (dot : Row → Row → R) (round : Q → nat → Q)
    (s : @HybridIndex.t Row) query top_k results :
  HybridIndex_search embed_text norm dot round s query top_k = Ok results →
  (length results ≤ top_k)%nat.
Proof.
  unfold HybridIndex_search.
  destruct (HybridIndex.chunks s) as [|c cs]; [intros [= <-]; simpl; lia|].
  destruct (HybridIndex.embeddings s) as [rows|]; [|intros [= <-]; simpl; lia].
  destruct (getitem _ 0) as [q_emb|]; [|done]. cbn [rbind].
  destruct (BM25.search _ _ _) as [bm|]; [|done]. cbn [rbind].
  intros Hrun. apply search_loop_length in Hrun. rewrite Hrun, length_take. simpl. lia.
Qed.

(** On an index that is in step and has chunks, a search for at least
    one result finds one. *)
Lemma search_nonempty {Row} (embed_text : string → Row) (norm : Row → R)
    (dot : Row → Row → R) (round : Q → nat → Q)
    (s : @HybridIndex.t Row) query top_k :
  HybridIndex.chunks s ≠ [] →
  aligned s →
  fitted s →
  (0 < top_k)%nat →
  ∃ c cs, HybridIndex_search embed_text norm dot round s query top_k = Ok (c :: cs).
Proof.
  intros Hne Hal Hfit Hk.
  destruct (HybridIndex.embeddings s) as [rows|] eqn:Hrows.
  2:{ unfold aligned, rows_of in Hal. rewrite Hrows in Hal. simpl in Hal.
      destruct (HybridIndex.chunks s); [done|discriminate Hal]. }
  assert (length rows = length (HybridIndex.chunks s)) as Hlen.
  { unfold aligned, rows_of in Hal. by rewrite Hrows in Hal. }
  destruct (search_run_on_index embed_text norm dot round s query top_k rows
              Hne Hrows Hfit) as (bm & results & _ & Hrun & Hhits & _); [lia|].
  rewrite Hrun. apply Forall2_length in Hhits.
  set (ranking := cosine_ranking embed_text norm dot rows query) in *.
  set (fused := rrf_fuse [take (top_k * 2) ranking; bm] 60) in *.
  assert (fused ≠ []) as Hfused.
  { destruct ranking as [|[i x] ranking'] eqn:Hranking.
    { pose proof (cosine_ranking_length embed_text norm dot rows query) as Hl.
      fold ranking in Hl. rewrite Hranking in Hl. simpl in Hl.
      destruct (HybridIndex.chunks s); [done|simpl in Hlen; lia]. }
    assert (i ∈ fused.*1) as Hi.
    { apply (proj1 (proj2 (rrf_fuse_run [take (top_k * 2) ((i, x) :: ranking'); bm] 60))).
      exists (take (top_k * 2) ((i, x) :: ranking')). split; [by left|].
      destruct top_k; [lia|]. simpl. by left. }
    intros Hnil. rewrite Hnil in Hi. by apply elem_of_nil in Hi. }
  destruct results as [|c cs]; [|by exists c, cs].
  destruct fused; [done|]. destruct top_k; [lia|]. simpl in Hhits. lia.
Qed.

Lemma filter_sublist {A} (P : A → bool) l : List.filter P l `sublist_of` l.
Proof.
  induction l as [|x l IH]; [done|]. simpl.
  destruct (P x); [by apply sublist_skip|by apply sublist_cons].
Qed.

Lemma filter_filter_weaker {A} (P P' : A → bool) l :
  (∀ x, P x = true → P' x = true) →
  List.filter P (List.filter P' l) = List.filter P l.
Proof.
  intros Himpl. induction l as [|x l IH]; [done|]. simpl.
  destruct (P' x) eqn:HP'; simpl; rewrite IH; [done|].
  destruct (P x) eqn:HP; [|done]. apply Himpl in HP. congruence.
Qed.

(** Sorting in descending order of a rational key is stable: the
    elements that share a key keep their order. *)
Section sorted_stable.
Context {A : Type} (key : A → Q).
Let le (x y : A) : bool := Qle_bool (- key x) (- key y).
Let same (v : Q) (x : A) : bool := Qeq_bool (key x) v.

Lemma insert_sorted_same v x l :
  List.filter (same v) (Py.insert_sorted le x l) = List.filter (same v) (x :: l).
Proof.
  induction l as [|y l IH]; [done|]. cbn [Py.insert_sorted].
  destruct (le x y) eqn:Hle; [done|].
  cbn [List.filter] in *. rewrite IH.
  destruct (same v x) eqn:Hx, (same v y) eqn:Hy; try done.
  exfalso. unfold same in Hx, Hy. apply Qeq_bool_iff in Hx, Hy.
  assert (le x y = true); [|congruence].
  apply Qle_bool_iff. rewrite Hx, Hy. apply Qle_refl.
Qed.

Lemma sorted_same v l :
  List.filter (same v) (Py.sorted le l) = List.filter (same v) l.
Proof.
  induction l as [|x l IH]; [done|]. cbn [Py.sorted foldr].
  change (foldr (Py.insert_sorted le) [] l) with (Py.sorted le l).
  rewrite insert_sorted_same. cbn [List.filter]. by rewrite IH.
Qed.
End sorted_stable.

Lemma relevance_descending (l : list Classified.t) :
  StronglySorted (fun x y => (Classified.relevance y <= Classified.relevance x)%Q)
    (Py.sorted (fun x y => Qle_bool (- Classified.relevance x)
                                    (- Classified.relevance y)) l).
Proof.
  eapply StronglySorted_impl; [|apply sorted_StronglySorted].
  - intros x y H. apply Qle_bool_iff, Qopp_le_compat in H.
    by rewrite !Qopp_involutive in H.
  - intros x y H. by apply Qle_bool_false.
  - intros x y z H1 H2. apply Qle_bool_iff in H1, H2. apply Qle_bool_iff.
    by eapply Qle_trans.
Qed.

(** When the model answers as asked, the search by category returns on
    an index that is in step. *)
Lemma search_by_category_run
    (create : list SearchHit.t → string → Result string)
    (json_loads : string → Result (list ScoreItem.t))
    {Row : Type} (embed_text : string → Row) (norm : Row → R) (dot : Row → Row → R)
    (round : Q → nat → Q) (category : string) (index : @HybridIndex.t Row) :
  aligned index →
  fitted index →
  (∀ chunks, chunks ≠ [] →
     ∃ response_text text scores,
       create chunks category = Ok response_text ∧
       json_text response_text = Ok text ∧
       json_loads text = Ok scores ∧
       Forall (fun item => is_Some (ScoreItem.index item) ∧
                           is_Some (ScoreItem.score item)) scores) →
  ∃ results,
    search_by_category create json_loads embed_text norm dot round category index
    = Ok results.
Proof.
  intros Hal Hfit Hreply. unfold search_by_category.
  destruct (HybridIndex_search embed_text norm dot round index category 20)
    as [candidates|e] eqn:Hsearch.
  2:{ apply search_raise in Hsearch as [_ Hlt]; [|done]. unfold aligned in Hal. lia. }
  cbn [rbind]. destruct candidates as [|c candidates]; [by exists []|].
  destruct (Hreply (c :: candidates)) as (r & t & scores & Hcreate & Htext & Hloads & Hall);
    [done|].
  assert (Forall (fun item => is_Some (ScoreItem.index item)) scores) as Hindex.
  { eapply Forall_impl; [exact Hall|]. by intros item [? _]. }
  destruct (score_map_scored scores Hindex) as (sm & Hsm & Hlookup).
  rewrite (classify_eq create json_loads (c :: candidates) category r t scores)
    by done.
  rewrite Hsm. cbn [rbind]. rewrite enumerate_from_0.
  rewrite (merge_run sm scores (c :: candidates) Hlookup 0 []).
  - cbn [rbind]. by eexists.
  - intros i entry _ Hentry. unfold scored in Hentry.
    apply last_Some_elem_of, list_elem_of_filter in Hentry as [_ Hentry].
    rewrite Forall_forall in Hall. by apply Hall.
Qed.

(** The example reply, classified for passages of which there is at
    least one: the first passage gets the relevance 7. *)
Lemma example_classified c cs :
  ∃ rest,
    classify_chunks example_create example_json_loads (c :: cs) "hello"
    = Ok ({| Classified.hit := c; Classified.relevance := 7;
             Classified.motivering := "ok" |} :: rest).
Proof.
  assert (Forall (fun item => is_Some (ScoreItem.index item))
            [{| ScoreItem.index := Some 5%Z; ScoreItem.score := Some 9%Q;
                ScoreItem.motivering := None |};
             {| ScoreItem.index := Some 0%Z; ScoreItem.score := Some 2%Q;
                ScoreItem.motivering := None |};
             {| ScoreItem.index := Some 0%Z; ScoreItem.score := Some 7%Q;
                ScoreItem.motivering := Some "ok" |}]) as Hindex
    by (repeat constructor; by eexists).
  destruct (score_map_scored _ Hindex) as (sm & Hsm & Hlookup).
  rewrite (classify_eq example_create example_json_loads (c :: cs) "hello" _ _ _
             ltac:(done) eq_refl eq_refl eq_refl).
  rewrite Hsm. cbn [rbind]. rewrite enumerate_from_0.
  rewrite (merge_run sm _ (c :: cs) Hlookup 0 []).
  - rewrite enumerate_from_cons. eexists. reflexivity.
  - intros i entry _ Hentry. unfold scored in Hentry.
    apply last_Some_elem_of, list_elem_of_filter in Hentry as [_ Hentry].
    repeat (apply elem_of_cons in Hentry as [->|Hentry]; [by eexists|]).
    by apply elem_of_nil in Hentry.
Qed.

(** X29.  Whatever the language model replies,
    what [search_by_category] returns is drawn from the hybrid search:
    every result is one of the at most 20 candidates that
    [search(category, top_k=20)] found on the index, no candidate comes
    more often than the search found it, every result has a relevance of
    at least 5, and the results are in descending order of relevance.
    Every classified candidate with a relevance of at least 5 is
    returned, and the results that share a relevance stand in the order
    of the search. *)
Theorem search_by_category_contract
    (create : list SearchHit.t → string → Result string)
    (json_loads : string → Result (list ScoreItem.t))
    {Row : Type} (embed_text : string → Row) (norm : Row → R) (dot : Row → Row → R)
    (round : Q → nat → Q)
    (category : string) (index : @HybridIndex.t Row) (results : list Classified.t) :
  search_by_category create json_loads embed_text norm dot round category index
  = Ok results →
  ∃ candidates classified,
    HybridIndex_search embed_text norm dot round index category 20 = Ok candidates ∧
    (length candidates ≤ 20)%nat ∧
    classify_chunks create json_loads candidates category = Ok classified ∧
    map Classified.hit classified `sublist_of` candidates ∧
    map Classified.hit results ⊆+ candidates ∧
    Forall (fun c => (5 <= Classified.relevance c)%Q) results ∧
    StronglySorted (fun x y => (Classified.relevance y <= Classified.relevance x)%Q)
      results ∧
    ∀ v, (5 <= v)%Q →
         List.filter (fun c => Qeq_bool (Classified.relevance c) v) results
         = List.filter (fun c => Qeq_bool (Classified.relevance c) v) classified.
Proof.
  unfold search_by_category.
  destruct (HybridIndex_search embed_text norm dot round index category 20)
    as [candidates|] eqn:Hsearch; [|done].
  cbn [rbind]. intros Hrun.
  assert (∃ classified,
            classify_chunks create json_loads candidates category = Ok classified ∧
            results = Py.sorted (fun x y => Qle_bool (- Classified.relevance x)
                                                     (- Classified.relevance y))
                        (List.filter (fun c => Qle_bool 5 (Classified.relevance c))
                                     classified)) as (classified & Hclass & ->).
  { destruct candidates as [|c candidates].
    - injection Hrun as <-. by exists [].
    - destruct (classify_chunks _ _ _ _) as [classified|]; [|done].
      cbn [rbind] in Hrun. injection Hrun as <-. by exists classified. }
  clear Hrun. exists candidates, classified.
  pose proof (classify_sublist create json_loads candidates category classified Hclass)
    as Hsub.
  split_and!; [done|by eapply search_length|done|done| | | |].
  - change map with (@fmap list _). rewrite (sorted_Permutation _ _).
    apply sublist_submseteq. etrans; [|exact Hsub].
    apply fmap_sublist, filter_sublist.
  - apply Forall_forall. intros c Hc. apply elem_of_sorted in Hc.
    apply list_elem_of_In, List.filter_In in Hc as [_ Hc]. by apply Qle_bool_iff.
  - apply relevance_descending.
  - intros v Hv. rewrite (sorted_same Classified.relevance).
    apply filter_filter_weaker. intros c Hc. apply Qeq_bool_iff in Hc.
    apply Qle_bool_iff. by rewrite Hc.
Qed.

Lemma search_by_category_contract_witness :
  ∃ results,
    search_by_category example_create example_json_loads
      example_embed example_norm example_dot example_round "hello"
      (HybridIndex.self world_v1) = Ok results ∧
    results ≠ [] ∧
    Forall (fun c => (5 <= Classified.relevance c)%Q) results.
Proof.
  pose proof (build_in_step example_embed folder_v1 empty_world world_v1
                (conj eq_refl eq_refl) build_v1) as [[Hal _] Hfit].
  assert (HybridIndex.chunks (HybridIndex.self world_v1) ≠ []) as Hne
    by (vm_compute; discriminate).
  destruct (search_by_category_run example_create example_json_loads
              example_embed example_norm example_dot example_round "hello"
              (HybridIndex.self world_v1) Hal Hfit) as [results Hrun].
  { intros chunks _. do 3 eexists. split; [reflexivity|]. split; [reflexivity|].
    split; [reflexivity|]. repeat constructor; by eexists. }
  destruct (search_by_category_contract example_create example_json_loads
              example_embed example_norm example_dot example_round "hello"
              (HybridIndex.self world_v1) results Hrun)
    as (candidates & classified & Hsearch & _ & Hclass & _ & _ & Hge & _ & Hstable).
  exists results. split; [exact Hrun|]. split; [|exact Hge].
  destruct (search_nonempty example_embed example_norm example_dot example_round
              (HybridIndex.self world_v1) "hello" 20 Hne Hal Hfit ltac:(lia))
    as (c & cs & Hsearch').
  rewrite Hsearch in Hsearch'. injection Hsearch' as ->.
  destruct (example_classified c cs) as (rest & Hclass').
  rewrite Hclass in Hclass'. injection Hclass' as ->.
  specialize (Hstable 7%Q ltac:(discriminate)). intros ->. discriminate Hstable.
Defined.

(** X30.  On an index without chunks or without
    embedding matrix [search_by_category] returns the empty list,
    whatever the language model and the decoder would do.  On an index
    that is in step it returns whenever the model answers as asked: the
    reply to a request can be unwrapped and decoded, and every object of
    it has an index and a score. *)
Theorem search_by_category_returns
    {Row : Type} (embed_text : string → Row) (norm : Row → R) (dot : Row → Row → R)
    (round : Q → nat → Q) (category : string) (index : @HybridIndex.t Row) :
  (HybridIndex.chunks index = [] ∨ HybridIndex.embeddings index = None →
   ∀ create json_loads,
     search_by_category create json_loads embed_text norm dot round category index
     = Ok []) ∧
  (aligned index →
   fitted index →
   ∀ create json_loads,
     (∀ chunks, chunks ≠ [] →
        ∃ response_text text scores,
          create chunks category = Ok response_text ∧
          json_text response_text = Ok text ∧
          json_loads text = Ok scores ∧
          Forall (fun item => is_Some (ScoreItem.index item) ∧
                              is_Some (ScoreItem.score item)) scores) →
     ∃ results,
       search_by_category create json_loads embed_text norm dot round category index
       = Ok results).
Proof.
  split.
  - intros Hempty create json_loads. unfold search_by_category.
    by rewrite (search_empty embed_text norm dot round index category 20 Hempty).
  - intros Hal Hfit create json_loads. by apply search_by_category_run.
Qed.

Lemma search_by_category_returns_witness :
  search_by_category (fun _ _ => Raise IndexError) (fun _ => Raise IndexError)
    example_embed example_norm example_dot example_round "hello"
    (HybridIndex.self world_emptied) = Ok [] ∧
  ∃ results,
    search_by_category example_create example_json_loads
      example_embed example_norm example_dot example_round "hello"
      (HybridIndex.self world_v1) = Ok results.
Proof.
  split.
  - refine (proj1 (search_by_category_returns example_embed example_norm example_dot
                     example_round "hello" (HybridIndex.self world_emptied)) _ _ _).
    left. vm_compute. reflexivity.
  - pose proof (build_in_step example_embed folder_v1 empty_world world_v1
                  (conj eq_refl eq_refl) build_v1) as [[Hal _] Hfit].
    refine (proj2 (search_by_category_returns example_embed example_norm example_dot
                     example_round "hello" (HybridIndex.self world_v1))
              Hal Hfit example_create example_json_loads _).
    intros chunks _. do 3 eexists. split; [reflexivity|]. split; [reflexivity|].
    split; [reflexivity|]. repeat constructor; by eexists.
Defined.
